(** * go-ollama: the streaming core of the client

    A shallow embedding of the NDJSON scanner ([scanner.go]), of the fence
    extractor ([ParseCodeBlock], [CodeBlockRegExp]) and of the streaming loop
    of [Client.Query], with the properties the specification states about
    them; then of the address [Client.Ps] derives and of the message handlers
    of the chat client ([examples/tui]), with further properties of the code.

    Go strings and byte slices are lists of 8-bit characters.  The three
    library pieces the code drives ([bufio.Scanner], [regexp],
    [encoding/json]) are modelled next to the code that uses them. *)

From Stdlib Require Import String Ascii List ZArith Lia Bool Arith.
Import ListNotations.
Open Scope string_scope.
Open Scope list_scope.
Open Scope nat_scope.

Set Implicit Arguments.

(** ** Bytes and text *)

Definition bytes := list ascii.

(** A Go string literal. *)
Definition str (s : string) : bytes := list_ascii_of_string s.

Definition bytes_eqb (a b : bytes) : bool :=
  if list_eq_dec ascii_dec a b then true else false.

Definition nonempty (b : bytes) : bool :=
  match b with [] => false | _ :: _ => true end.

(** ** Errors

    [error] values: the sentinels of [io] and [bufio] that the scanner
    compares against by identity, plain errors ([errors.New], [fmt.Errorf]
    without [%w]) and the wrapping errors built by [fmt.Errorf("...: %w", err)],
    which keep the formatted message and the wrapped cause. *)

Inductive error : Type :=
| EOF                                  (* io.EOF *)
| ErrNoProgress                        (* io.ErrNoProgress *)
| ErrNegativeAdvance                   (* bufio.ErrNegativeAdvance *)
| ErrAdvanceTooFar                     (* bufio.ErrAdvanceTooFar *)
| ErrFinalToken                        (* bufio.ErrFinalToken *)
| ErrTooLong                           (* bufio.ErrTooLong *)
| errorString (msg : string)
| wrapError (msg : string) (cause : error).

(** The [Error()] method. *)
Definition Error (e : error) : string :=
  match e with
  | EOF => "EOF"
  | ErrNoProgress => "multiple Read calls return no data or error"
  | ErrNegativeAdvance => "bufio.Scanner: SplitFunc returns negative advance count"
  | ErrAdvanceTooFar => "bufio.Scanner: SplitFunc returns advance count beyond input"
  | ErrFinalToken => "final token"
  | ErrTooLong => "bufio.Scanner: token too long"
  | errorString msg => msg
  | wrapError msg _ => msg
  end.

(** [fmt.Errorf(prefix + "%w", err)]. *)
Definition Errorf (prefix : string) (err : error) : error :=
  wrapError (prefix ++ Error err)%string err.

(** [errors.Unwrap]. *)
Definition Unwrap (e : error) : option error :=
  match e with
  | wrapError _ cause => Some cause
  | _ => None
  end.

Definition is_ErrFinalToken (e : error) : bool :=
  match e with ErrFinalToken => true | _ => false end.

Definition is_nil {A : Type} (o : option A) : bool :=
  match o with None => true | Some _ => false end.

(** ** scanner.go *)

Fixpoint HasPrefix (s prefix : bytes) {struct prefix} : bool :=
  match prefix, s with
  | [], _ => true
  | _ :: _, [] => false
  | p :: prefix', c :: s' => Ascii.eqb p c && HasPrefix s' prefix'
  end.

(** Offset of the first occurrence of [sep] in [s], if there is one. *)
Fixpoint index_of (s sep : bytes) : option nat :=
  if HasPrefix s sep then Some 0
  else match s with
       | [] => None
       | _ :: s' => option_map S (index_of s' sep)
       end.

(** [bytes.Index]: the offset of the first occurrence, or -1. *)
Definition Index (s sep : bytes) : Z :=
  match index_of s sep with
  | Some i => Z.of_nat i
  | None => (-1)%Z
  end.

Definition len (b : bytes) : Z := Z.of_nat (length b).

(** The result of a [bufio.SplitFunc]: advance, token ([None] is the nil
    slice) and error. *)
Definition SplitResult : Type := Z * option bytes * option error.
Definition SplitFunc : Type := bytes -> bool -> SplitResult.

(** [SplitAt], scanner.go lines 17-41. *)
Definition SplitAt (substring : bytes) : SplitFunc :=
  let searchBytes := substring in
  let searchLength := len substring in
  fun (data : bytes) (atEOF : bool) =>
    let dataLen := len data in
    (* Return Nothing if at the end of file or no data passed. *)
    if atEOF && (dataLen =? 0)%Z then (0%Z, None, None)
    else
      (* Find next separator and return token. *)
      let i := Index data searchBytes in
      if (i >=? 0)%Z then
        ((i + searchLength)%Z, Some (firstn (Z.to_nat i) data), None)
      else
        (* If we're at EOF, we have a final, non-terminated line. Return it. *)
        if atEOF then (dataLen, Some data, None)
        else
          (* Request more data. *)
          (0%Z, None, None).

(** *** The reader and [bufio.Scanner]

    An [io.Reader] is the sequence of results its [Read] calls give:
    [Chunk b r] returns the bytes [b] with a nil error and goes on as [r];
    [Ends b e] returns the bytes [b] together with the error [e] ([io.EOF] at
    the end of the body, any other error when the transport breaks). *)

Inductive Reader : Type :=
| Chunk (b : bytes) (rest : Reader)
| Ends (b : bytes) (e : error).

(** The scanner's fields.  [window] is [buf[start:end]], the bytes read
    and not yet tokenized.  [NewSplitScanner] does not call [Buffer], so the
    buffer is the scanner's own: 4096 bytes at first, doubled when it is
    full, up to [MaxScanTokenSize] bytes.  Each [Read] is offered the free end
    of the buffer and its result is taken to fit there (a reader that gave
    more would break the contract of [io.Reader]; [ErrBadReadCount] does not
    arise).  The buffer itself is then not followed: what [Scan] asks of it
    is told from the window, see [buffer_full]. *)
Record Scanner : Type := mkScanner {
  r : Reader;
  split : SplitFunc;
  token : option bytes;
  window : bytes;
  err : option error;
  empties : nat;
  done : bool
}.

Definition maxConsecutiveEmptyReads : nat := 100.

(** [bufio.MaxScanTokenSize], 64 * 1024: the size the buffer does not grow
    beyond. *)
Definition MaxScanTokenSize : Z := 65536.

(** [bufio.NewScanner] followed by [Split]. *)
Definition NewSplitScanner (body : Reader) (splitChar : bytes) : Scanner :=
  {| r := body; split := SplitAt splitChar; token := None; window := [];
     err := None; empties := 0; done := false |}.

(** [setErr]: records the first non-EOF error. *)
Definition setErr (e : error) (s : Scanner) : Scanner :=
  match err s with
  | None | Some EOF =>
      {| r := r s; split := split s; token := token s; window := window s;
         err := Some e; empties := empties s; done := done s |}
  | Some _ => s
  end.

(** [Err]: the first non-EOF error the scanner met. *)
Definition Err (s : Scanner) : option error :=
  match err s with
  | Some EOF => None
  | e => e
  end.

(** [Bytes]: the most recent token. *)
Definition Bytes (s : Scanner) : bytes :=
  match token s with Some t => t | None => [] end.

Inductive ScanResult : Type :=
| Scanned (ok : bool) (s : Scanner)
| ScanPanic (msg : string).

Definition with_token (t : option bytes) (adv : nat) (e : nat) (s : Scanner) : Scanner :=
  {| r := r s; split := split s; token := t; window := skipn adv (window s);
     err := err s; empties := e; done := done s |}.

(** The first half of one turn of the loop in [Scan]: "see if we can get a
    token with what we already have".  [inl] is a return from [Scan], [inr]
    falls through to the second half. *)
Definition scan_split (s : Scanner) : ScanResult + Scanner :=
  if nonempty (window s) || negb (is_nil (err s)) then
    let '(advance, tok, e) := split s (window s) (negb (is_nil (err s))) in
    match e with
    | Some e =>
        if is_ErrFinalToken e then
          inl (Scanned (negb (is_nil tok))
                 {| r := r s; split := split s; token := tok; window := window s;
                    err := err s; empties := empties s; done := true |})
        else inl (Scanned false (setErr e s))
    | None =>
        if (advance <? 0)%Z then inl (Scanned false (setErr ErrNegativeAdvance s))
        else if (advance >? len (window s))%Z then
          inl (Scanned false (setErr ErrAdvanceTooFar s))
        else
          match tok with
          | Some _ =>
              if is_nil (err s) || (advance >? 0)%Z then
                inl (Scanned true (with_token tok (Z.to_nat advance) 0 s))
              else
                (* Returning tokens not advancing input at EOF. *)
                if maxConsecutiveEmptyReads <? S (empties s) then
                  inl (ScanPanic "bufio.Scan: too many empty tokens without progressing")
                else
                  inl (Scanned true (with_token tok (Z.to_nat advance) (S (empties s)) s))
          | None => inr (with_token tok (Z.to_nat advance) (empties s) s)
          end
    end
  else inr s.

(** The second half, when an error is recorded: "we are done", the window
    is dropped. *)
Definition shut_down (s : Scanner) : Scanner :=
  {| r := r s; split := split s; token := token s; window := [];
     err := err s; empties := empties s; done := done s |}.

(** One turn of the loop with an error already recorded. *)
Definition scan_last (s : Scanner) : ScanResult :=
  match scan_split s with
  | inl res => res
  | inr s' => Scanned false (shut_down s')
  end.

(** "Is the buffer full?", asked before each [Read], when it can no longer
    be made larger.  The window is moved to the front of the buffer before the
    question is asked, and the buffer has grown to [MaxScanTokenSize] before a
    window of that size can be in it: the answer is yes exactly when the
    window has [MaxScanTokenSize] bytes (none of which made a token, as the
    split function has just been asked). *)
Definition buffer_full (s : Scanner) : bool :=
  (MaxScanTokenSize <=? len (window s))%Z.

Definition after_read (b : bytes) (rest : Reader) (e : nat) (s : Scanner) : Scanner :=
  {| r := rest; split := split s; token := token s; window := window s ++ b;
     err := err s; empties := e; done := done s |}.

(** The rest of the loop from a [Read] on: [loop] counts the empty reads of
    the inner loop; after a read that brought bytes the outer loop turns
    again ([scan_split], then the test of the buffer and the next read).  A
    full buffer sets [ErrTooLong] and returns false at once, the window is
    kept. *)
Fixpoint scan_read (rd : Reader) (loop : nat) (s : Scanner) : ScanResult :=
  match rd with
  | Ends b e =>
      scan_last (setErr e (after_read b (Ends [] e) (empties s) s))
  | Chunk b rest =>
      if nonempty b then
        match scan_split (after_read b rest 0 s) with
        | inl res => res
        | inr s' =>
            if is_nil (err s') then
              if buffer_full s' then Scanned false (setErr ErrTooLong s')
              else scan_read rest 0 s'
            else Scanned false (shut_down s')
        end
      else if maxConsecutiveEmptyReads <? S loop then
        scan_last (setErr ErrNoProgress (after_read b rest (empties s) s))
      else scan_read rest (S loop) (after_read b rest (empties s) s)
  end.

(** [Scan]. *)
Definition Scan (s : Scanner) : ScanResult :=
  if done s then Scanned false s
  else
    match scan_split s with
    | inl res => res
    | inr s' =>
        if is_nil (err s') then
          if buffer_full s' then Scanned false (setErr ErrTooLong s')
          else scan_read (r s') 0 s'
        else Scanned false (shut_down s')
    end.

(** ** The fence extractor

    *** [regexp]

    The part of the syntax [CodeBlockRegExp] is written in: single-character
    matchers, one-or-more repetition of a character (greedy [x+] or lazy
    [x+?]), concatenation and numbered capture groups. *)

Inductive cclass : Type :=
| c_lit (c : ascii)        (* a literal character *)
| c_not_space              (* \S *)
| c_any.                   (* . under the flag (?s) *)

Inductive regex : Type :=
| r_char (c : cclass)
| r_plus (c : cclass) (greedy : bool)
| r_cat (r1 r2 : regex)
| r_group (n : nat) (re : regex).

(** Perl's [\s]: tab, line feed, form feed, carriage return, space. *)
Definition is_space (c : ascii) : bool :=
  let n := nat_of_ascii c in
  (n =? 9) || (n =? 10) || (n =? 12) || (n =? 13) || (n =? 32).

Definition accepts (c : cclass) (x : ascii) : bool :=
  match c with
  | c_lit y => Ascii.eqb x y
  | c_not_space => negb (is_space x)
  | c_any => true
  end.

(** The engine's answer is the one a backtracking search finds first
    (leftmost-first matching).  The search is written with a continuation [k]
    for the rest of the pattern: a greedy repetition tries one more
    character before it tries the continuation, a lazy one the other way
    round.  One character of the text is read per step; Go's engine reads one
    code point per step, which is the same thing on ASCII text. *)

Section Backtrack.
Variable R : Type.

Fixpoint plus_greedy (c : cclass) (s : bytes) (k : bytes -> option R) : option R :=
  match s with
  | [] => None
  | x :: s' =>
      if accepts c x then
        match plus_greedy c s' k with
        | Some res => Some res
        | None => k s'
        end
      else None
  end.

Fixpoint plus_lazy (c : cclass) (s : bytes) (k : bytes -> option R) : option R :=
  match s with
  | [] => None
  | x :: s' =>
      if accepts c x then
        match k s' with
        | Some res => Some res
        | None => plus_lazy c s' k
        end
      else None
  end.

(** Captures: group number and captured text, latest first. *)
Definition captures : Type := list (nat * bytes).

Fixpoint backtrack (re : regex) (s : bytes) (cap : captures)
         (k : bytes -> captures -> option R) : option R :=
  match re with
  | r_char c =>
      match s with
      | x :: s' => if accepts c x then k s' cap else None
      | [] => None
      end
  | r_plus c true => plus_greedy c s (fun s' => k s' cap)
  | r_plus c false => plus_lazy c s (fun s' => k s' cap)
  | r_cat r1 r2 => backtrack r1 s cap (fun s' cap' => backtrack r2 s' cap' k)
  | r_group n r1 =>
      backtrack r1 s cap
        (fun s' cap' => k s' ((n, firstn (length s - length s') s) :: cap'))
  end.
End Backtrack.

(** The text of group [n], or the empty string when the group took no
    part in the match. *)
Fixpoint group (n : nat) (cap : captures) : bytes :=
  match cap with
  | [] => []
  | (m, t) :: cap' => if n =? m then t else group n cap'
  end.

Fixpoint NumSubexp (re : regex) : nat :=
  match re with
  | r_char _ | r_plus _ _ => 0
  | r_cat r1 r2 => NumSubexp r1 + NumSubexp r2
  | r_group _ r1 => S (NumSubexp r1)
  end.

(** A match anchored at the head of [s]: the matched text and the
    captures. *)
Definition match_here (re : regex) (s : bytes) : option (bytes * captures) :=
  backtrack re s []
    (fun s' cap => Some (firstn (length s - length s') s, cap)).

(** [doExecute]: the leftmost match in [s]; the number of characters before
    it, the matched text and the captures. *)
Fixpoint doExecute (re : regex) (s : bytes) : option (nat * bytes * captures) :=
  match match_here re s with
  | Some (whole, cap) => Some (0, whole, cap)
  | None =>
      match s with
      | [] => None
      | _ :: s' =>
          match doExecute re s' with
          | Some (skipped, whole, cap) => Some (S skipped, whole, cap)
          | None => None
          end
      end
  end.

(** One match: where it starts and ends in the text, and the texts of the
    whole match and of the groups 1 .. [NumSubexp]. *)
Record Match : Type := mkMatch {
  m_start : nat;
  m_end : nat;
  m_sub : list bytes
}.

Definition submatches (re : regex) (whole : bytes) (cap : captures) : list bytes :=
  whole :: map (fun n => group n cap) (seq 1 (NumSubexp re)).

(** [allMatches], the loop behind every [FindAll...]: [s] is the text from
    [pos] on.  After a match the search goes on at its end; an empty match
    moves the position one character on, and is not delivered when it sits
    right at the end of the match before it.  Every turn moves [pos]
    forward, so [length s + 1] turns are enough. *)
Fixpoint allMatches (turns : nat) (re : regex) (s : bytes) (pos : nat)
         (prevMatchEnd : option nat) : list Match :=
  match turns with
  | 0 => []
  | S turns' =>
      match doExecute re s with
      | None => []
      | Some (skipped, whole, cap) =>
          let m0 := pos + skipped in
          let m1 := m0 + length whole in
          let m := {| m_start := m0; m_end := m1; m_sub := submatches re whole cap |} in
          if m1 =? pos then
            (* We've found an empty match. *)
            let accept :=
              match prevMatchEnd with
              | Some e => negb (m0 =? e)
              | None => true
              end in
            let found := if accept then [m] else [] in
            match s with
            | [] => found
            | _ :: s' => found ++ allMatches turns' re s' (S pos) (Some m1)
            end
          else
            m :: allMatches turns' re (skipn (skipped + length whole) s) m1 (Some m1)
      end
  end.

(** [FindAllStringSubmatchIndex] with [n = -1], kept with the texts. *)
Definition FindAll (re : regex) (s : bytes) : list Match :=
  allMatches (S (length s)) re s 0 None.

(** [FindAllStringSubmatch(s, -1)]. *)
Definition FindAllStringSubmatch (re : regex) (s : bytes) : list (list bytes) :=
  map m_sub (FindAll re s).

(** *** [CodeBlock], [CodeBlockRegExp], [ParseCodeBlock] *)

Record CodeBlock : Type := mkCodeBlock {
  Type_ : bytes;
  Code : bytes
}.

Definition backtick : ascii := "`"%char.
Definition newline : ascii := ascii_of_nat 10.

(** [regexp.MustCompile("(?s)``+(\\S+)(.+?)\n``+")]: a backtick, one or
    more backticks, group 1 [\S+], group 2 [.+?], a line feed, a backtick,
    one or more backticks. *)
Definition CodeBlockRegExp : regex :=
  r_cat (r_char (c_lit backtick))
    (r_cat (r_plus (c_lit backtick) true)
       (r_cat (r_group 1 (r_plus c_not_space true))
          (r_cat (r_group 2 (r_plus c_any false))
             (r_cat (r_char (c_lit newline))
                (r_cat (r_char (c_lit backtick))
                   (r_plus (c_lit backtick) true)))))).

(** [ParseCodeBlock], lines 280-293. *)
Definition ParseCodeBlock (text : bytes) : list CodeBlock :=
  fold_left
    (fun blocks match_ =>
       if 2 <? length match_ then
         blocks ++ [ {| Type_ := nth 1 match_ []; Code := nth 2 match_ [] |} ]
       else blocks)
    (FindAllStringSubmatch CodeBlockRegExp text) [].

(** ** The streaming loop of [Query]

    *** [Response] and [json.Unmarshal]

    The pointer fields of [Response] are options ([None] is nil). *)

Record Response : Type := mkResponse {
  Model : option bytes;
  CreatedAt : option bytes;
  Response_ : option bytes;
  Done : option bool
}.

(** What one JSON object says about a field: nothing, [null], or a value. *)
Inductive member (A : Type) : Type :=
| absent
| null
| value (a : A).

Arguments absent {A}.
Arguments null {A}.
Arguments value {A} a.

(** The fields of one decoded line that [Response] has a tag for. *)
Record Object : Type := mkObject {
  o_model : member bytes;
  o_created_at : member bytes;
  o_response : member bytes;
  o_done : member bool
}.

(** Decoding into a pointer field: a key that is absent leaves the field
    as it was, [null] sets it to nil, a value is stored. *)
Definition store {A : Type} (m : member A) (old : option A) : option A :=
  match m with
  | absent => old
  | null => None
  | value a => Some a
  end.

Definition assign (o : Object) (res : Response) : Response :=
  {| Model := store (o_model o) (Model res);
     CreatedAt := store (o_created_at o) (CreatedAt res);
     Response_ := store (o_response o) (Response_ res);
     Done := store (o_done o) (Done res) |}.

(** Trace of a run: the calls of [scanner.Scan] and of the two handlers,
    each with what it returned. *)
Inductive Event : Type :=
| EvScan (ok : bool)
| EvOnJson (res : Response) (ret : option error)
| EvOnCodeBlock (blocks : list CodeBlock) (ret : option error).

Inductive Outcome : Type :=
| Returns (err : option error)
| Panics (msg : string)
| OutOfFuel.

Section Streaming.
(** The caller's own state, which the handlers (closures) read and write. *)
Variable State : Type.

(** The reading [encoding/json] makes of one token: the object it holds,
    or the error for bytes that are not a JSON object of the expected
    shape. *)
Variable decode : bytes -> Object + error.

(** [json.Unmarshal(data, &res)]. *)
Definition Unmarshal (data : bytes) (res : Response) : Response + error :=
  match decode data with
  | inl o => inl (assign o res)
  | inr e => inr e
  end.

(** A handler: called with its argument, it updates the caller's state and
    returns an error or nil.  It gets a copy of [res] and is taken not to
    write through the pointers of that copy. *)
Definition handler (A : Type) : Type := A -> State -> State * option error.

(** The fields of [Request] the loop reads; [None] is a nil handler. *)
Record Request : Type := mkRequest {
  OnJson : option (handler Response);
  OnCodeBlock : option (handler (list CodeBlock))
}.

Record Run : Type := mkRun {
  outcome : Outcome;
  state : State;
  trace : list Event;
  buffer : bytes;       (* text *)
  scanner : Scanner
}.

(** The part of the loop body under [if shouldAnalyse]: the new value of
    [text], and the batch to hand to [OnCodeBlock] if there is one.  [None]
    is the nil-pointer dereference of [*res.Response]. *)
Definition analyse (text : bytes) (res : Response)
  : option (bytes * option (list CodeBlock)) :=
  match Response_ res with
  | None => None
  | Some fragment =>
      (* Join responses into a single string and find all markdown code blocks *)
      let text := text ++ fragment in
      let blocks := ParseCodeBlock text in
      if 0 <? length blocks then
        (* Clear text *)
        Some ([], Some blocks)
      else Some (text, None)
  end.

(** [for scanner.Scan() { ... }; return], lines 233-266.  [err] is the
    named result of [Query].  [fuel] bounds the number of turns; [Query]
    gives one more than the body has bytes and reads, which is enough
    ([Query_ending]). *)
Fixpoint Query_loop (fuel : nat) (request : Request) (shouldAnalyse : bool)
         (sc : Scanner) (res : Response) (text : bytes) (err : option error)
         (st : State) (tr : list Event) : Run :=
  match fuel with
  | 0 => mkRun OutOfFuel st tr text sc
  | S fuel' =>
      match Scan sc with
      | ScanPanic msg => mkRun (Panics msg) st tr text sc
      | Scanned false sc' => mkRun (Returns err) st (tr ++ [EvScan false]) text sc'
      | Scanned true sc' =>
          let tr := tr ++ [EvScan true] in
          (* Check for errors *)
          match Err sc' with
          | Some e =>
              mkRun (Returns (Some (Errorf "failed to read ollama response: " e)))
                st tr text sc'
          | None =>
              match Unmarshal (Bytes sc') res with
              | inr e =>
                  mkRun (Returns (Some (Errorf "failed to unmarshal ollama response: " e)))
                    st tr text sc'
              | inl res =>
                  (* Unmarshal JSON response and call OnJson handler *)
                  let '(st, tr, err) :=
                    match OnJson request with
                    | Some h =>
                        let '(st', ret) := h res st in
                        (st', tr ++ [EvOnJson res ret], ret)
                    | None => (st, tr, None)
                    end in
                  match err with
                  | Some e =>
                      mkRun (Returns (Some (Errorf "failed to process ollama response: " e)))
                        st tr text sc'
                  | None =>
                      (* Do we need to analyse the response, for blocks of code? *)
                      if shouldAnalyse then
                        match analyse text res with
                        | None =>
                            mkRun (Panics "invalid memory address or nil pointer dereference")
                              st tr text sc'
                        | Some (text, None) =>
                            Query_loop fuel' request shouldAnalyse sc' res text None st tr
                        | Some (text, Some blocks) =>
                            match OnCodeBlock request with
                            | None =>
                                mkRun (Panics "invalid memory address or nil pointer dereference")
                                  st tr text sc'
                            | Some h =>
                                let '(st', ret) := h blocks st in
                                let tr := tr ++ [EvOnCodeBlock blocks ret] in
                                match ret with
                                | Some e =>
                                    mkRun
                                      (Returns (Some (Errorf
                                         "failed to process ollama response code block: " e)))
                                      st' tr text sc'
                                | None =>
                                    Query_loop fuel' request shouldAnalyse sc' res text None st' tr
                                end
                            end
                        end
                      else Query_loop fuel' request shouldAnalyse sc' res text None st tr
                  end
              end
          end
      end
  end.

(** Bytes and reads a reader still holds: a bound on the tokens left. *)
Fixpoint Reader_size (rd : Reader) : nat :=
  match rd with
  | Chunk b rest => S (length b + Reader_size rest)
  | Ends b _ => S (length b)
  end.

Definition zero_Response : Response :=
  {| Model := None; CreatedAt := None; Response_ := None; Done := None |}.

(** [Query] from line 217 on, for a reply with status 200 whose body is
    [body]: the scanner splits at line feeds, [res] and [text] start at
    their zero values, [err] is nil after the checks before the loop. *)
Definition Query (body : Reader) (request : Request) (st : State) : Run :=
  let scanner := NewSplitScanner body [newline] in
  let shouldAnalyse := negb (is_nil (OnCodeBlock request)) in
  Query_loop (S (Reader_size body)) request shouldAnalyse scanner
    zero_Response [] None st [].
End Streaming.

(** *** A decoder for compact JSON lines

    The properties of [Query] hold for any [decode].  Runs on concrete
    bodies use [json_line], which reads the compact objects that
    [json.Marshal] writes for a [Response]: string, boolean and [null]
    members without white space, strings with the two-character escapes.
    Timestamps are kept as text. *)

Definition dquote : ascii := ascii_of_nat 34.
Definition backslash : ascii := ascii_of_nat 92.
Definition tab : ascii := ascii_of_nat 9.
Definition carriage_return : ascii := ascii_of_nat 13.

Definition json_error : error := errorString "invalid character in JSON input".

Inductive jvalue : Type :=
| j_string (t : bytes)
| j_bool (b : bool)
| j_null.

Definition unescape (c : ascii) : option ascii :=
  if Ascii.eqb c dquote then Some dquote
  else if Ascii.eqb c backslash then Some backslash
  else if Ascii.eqb c "/" then Some "/"%char
  else if Ascii.eqb c "n" then Some newline
  else if Ascii.eqb c "r" then Some carriage_return
  else if Ascii.eqb c "t" then Some tab
  else None.

(** The string whose opening quote was just read: its text and what
    follows the closing quote. *)
Fixpoint json_string (s : bytes) : option (bytes * bytes) :=
  match s with
  | [] => None
  | c :: s' =>
      if Ascii.eqb c dquote then Some ([], s')
      else if Ascii.eqb c backslash then
        match s' with
        | e :: s'' =>
            match unescape e, json_string s'' with
            | Some x, Some (t, rest) => Some (x :: t, rest)
            | _, _ => None
            end
        | [] => None
        end
      else if nat_of_ascii c <? 32 then None
      else
        match json_string s' with
        | Some (t, rest) => Some (c :: t, rest)
        | None => None
        end
  end.

Definition json_value (s : bytes) : option (jvalue * bytes) :=
  match s with
  | c :: s' =>
      if Ascii.eqb c dquote then
        match json_string s' with
        | Some (t, rest) => Some (j_string t, rest)
        | None => None
        end
      else if HasPrefix s (str "true") then Some (j_bool true, skipn 4 s)
      else if HasPrefix s (str "false") then Some (j_bool false, skipn 5 s)
      else if HasPrefix s (str "null") then Some (j_null, skipn 4 s)
      else None
  | [] => None
  end.

Definition as_string (v : jvalue) : option (member bytes) :=
  match v with
  | j_string t => Some (value t)
  | j_null => Some null
  | j_bool _ => None
  end.

Definition as_bool (v : jvalue) : option (member bool) :=
  match v with
  | j_bool b => Some (value b)
  | j_null => Some null
  | j_string _ => None
  end.

(** Stores the member [key: v]; keys without a tag in [Response] are
    skipped, a value of the wrong type is an error. *)
Definition set_member (key : bytes) (v : jvalue) (o : Object) : option Object :=
  if bytes_eqb key (str "model") then
    option_map (fun m => mkObject m (o_created_at o) (o_response o) (o_done o)) (as_string v)
  else if bytes_eqb key (str "created_at") then
    option_map (fun m => mkObject (o_model o) m (o_response o) (o_done o)) (as_string v)
  else if bytes_eqb key (str "response") then
    option_map (fun m => mkObject (o_model o) (o_created_at o) m (o_done o)) (as_string v)
  else if bytes_eqb key (str "done") then
    option_map (fun m => mkObject (o_model o) (o_created_at o) (o_response o) m) (as_bool v)
  else Some o.

(** The members after the opening brace, up to the closing brace at the
    end of the line. *)
Fixpoint json_members (fuel : nat) (s : bytes) (o : Object) : option Object :=
  match fuel with
  | 0 => None
  | S fuel' =>
      match s with
      | q :: s1 =>
          if Ascii.eqb q dquote then
            match json_string s1 with
            | Some (key, colon :: s2) =>
                if Ascii.eqb colon ":" then
                  match json_value s2 with
                  | Some (v, s3) =>
                      match set_member key v o, s3 with
                      | Some o', [c] => if Ascii.eqb c "}" then Some o' else None
                      | Some o', c :: s4 =>
                          if Ascii.eqb c "," then json_members fuel' s4 o' else None
                      | _, _ => None
                      end
                  | None => None
                  end
                else None
            | _ => None
            end
          else None
      | [] => None
      end
  end.

Definition empty_Object : Object := mkObject absent absent absent absent.

Definition json_line (line : bytes) : Object + error :=
  match line with
  | open :: rest =>
      if Ascii.eqb open "{" then
        match rest with
        | [close] => if Ascii.eqb close "}" then inl empty_Object else inr json_error
        | _ =>
            match json_members (length rest) rest empty_Object with
            | Some o => inl o
            | None => inr json_error
            end
        end
      else inr json_error
  | [] => inr (errorString "unexpected end of JSON input")
  end.

(** *** [simulateStreamBody], client_test.go lines 14-39

    The NDJSON body the tests feed to [Query]: one line per token, then the
    final line with [done] set.  [json_of_Response] writes a [Response] as
    [json.Marshal] does for texts whose only characters in need of an escape
    are the quote, the backslash, line feed, carriage return and tab. *)

Definition escape (c : ascii) : bytes :=
  if Ascii.eqb c dquote then [backslash; dquote]
  else if Ascii.eqb c backslash then [backslash; backslash]
  else if Ascii.eqb c newline then [backslash; "n"%char]
  else if Ascii.eqb c carriage_return then [backslash; "r"%char]
  else if Ascii.eqb c tab then [backslash; "t"%char]
  else [c].

Definition json_quote (t : bytes) : bytes :=
  dquote :: flat_map escape t ++ [dquote].

Definition json_key (name : string) : bytes :=
  dquote :: str name ++ [dquote; ":"%char].

Fixpoint join (sep : bytes) (parts : list bytes) : bytes :=
  match parts with
  | [] => []
  | [p] => p
  | p :: rest => p ++ sep ++ join sep rest
  end.

Definition json_of_Response (res : Response) : bytes :=
  let field {A : Type} (name : string) (show : A -> bytes) (v : option A) : list bytes :=
    match v with
    | Some a => [json_key name ++ show a]
    | None => []
    end in
  str "{" ++
  join (str ",")
    (field "model" json_quote (Model res) ++
     field "created_at" json_quote (CreatedAt res) ++
     field "response" json_quote (Response_ res) ++
     field "done" (fun b : bool => if b then str "true" else str "false") (Done res)) ++
  str "}".

Definition simulateStreamBody (now : bytes) (tokens : list bytes) (model : bytes) : bytes :=
  flat_map
    (fun tok =>
       json_of_Response
         {| Model := Some model; CreatedAt := Some now;
            Response_ := Some tok; Done := Some false |} ++ [newline])
    tokens ++
  (* Final "done" message *)
  json_of_Response
    {| Model := Some model; CreatedAt := Some now;
       Response_ := Some []; Done := Some true |} ++ [newline].

(** ** Vocabulary of the properties *)

(** *** Chunked bodies and token sequences *)

(** A body that delivers the given chunks, one per [Read] with a nil
    error, and the bytes [last] together with [io.EOF] in its final read
    ([last] is empty for a reader that reports the end on its own). *)
Fixpoint reader_of (chunks : list bytes) (last : bytes) : Reader :=
  match chunks with
  | [] => Ends last EOF
  | c :: rest => Chunk c (reader_of rest last)
  end.

(** [for sc.Scan() { tokens = append(tokens, sc.Bytes()) }] followed by
    [sc.Err()], the way the scanner's tests drain it; [None] when the fuel
    runs out or the scanner panics. *)
Fixpoint scan_all (fuel : nat) (s : Scanner) : option (list bytes * option error) :=
  match fuel with
  | 0 => None
  | S fuel' =>
      match Scan s with
      | ScanPanic _ => None
      | Scanned false s' => Some ([], Err s')
      | Scanned true s' =>
          match scan_all fuel' s' with
          | Some (toks, e) => Some (Bytes s' :: toks, e)
          | None => None
          end
      end
  end.

(** What is left for the scanner to work on: the window, and the reader as
    long as no error is recorded. *)
Definition Scanner_size (s : Scanner) : nat :=
  length (window s) +
  match err s with
  | None => Reader_size (r s)
  | Some _ => 0
  end.

(** The tokens the split scanner yields on the body [reader_of chunks last]
    (with the final value of [Err]). *)
Definition tokens (sep : bytes) (chunks : list bytes) (last : bytes)
  : option (list bytes * option error) :=
  let s := NewSplitScanner (reader_of chunks last) sep in
  scan_all (S (Scanner_size s)) s.

(** *** The language of a pattern

    [derives re s cap cap']: the pattern [re] matches exactly the text [s]
    and takes the captures from [cap] to [cap']. *)
Inductive derives : regex -> bytes -> captures -> captures -> Prop :=
| derives_char c x cap :
    accepts c x = true ->
    derives (r_char c) [x] cap cap
| derives_plus c greedy s cap :
    s <> [] ->
    forallb (accepts c) s = true ->
    derives (r_plus c greedy) s cap cap
| derives_cat r1 r2 s1 s2 cap cap1 cap2 :
    derives r1 s1 cap cap1 ->
    derives r2 s2 cap1 cap2 ->
    derives (r_cat r1 r2) (s1 ++ s2) cap cap2
| derives_group n re s cap cap1 :
    derives re s cap cap1 ->
    derives (r_group n re) s cap ((n, s) :: cap1).

(** A fence marker as [CodeBlockRegExp] reads it: two or more backticks. *)
Definition fence_marker (s : bytes) : Prop :=
  2 <= length s /\ Forall (fun c => c = backtick) s.

(** [b] sits in [text] as a closed fence: opening marker, tag, code, the
    line feed before the closing marker, closing marker. *)
Definition closed_fence (text : bytes) (b : CodeBlock) : Prop :=
  exists before opening closing after,
    text = before ++ opening ++ Type_ b ++ Code b ++ [newline] ++ closing ++ after /\
    fence_marker opening /\ fence_marker closing.

Definition block_of (m : Match) : CodeBlock :=
  {| Type_ := nth 1 (m_sub m) []; Code := nth 2 (m_sub m) [] |}.

(** The matches lie in the text one after the other. *)
Fixpoint in_order (from : nat) (ms : list Match) : Prop :=
  match ms with
  | [] => True
  | m :: rest => from <= m_start m /\ m_start m < m_end m /\ in_order (m_end m) rest
  end.

(** The match [m] is the stretch of [text] between its two offsets. *)
Definition located (text : bytes) (m : Match) : Prop :=
  m_end m <= length text /\
  nth 0 (m_sub m) [] = firstn (m_end m - m_start m) (skipn (m_start m) text).

(** *** Traces *)

(** A handler call that returned an error. *)
Definition failed (ev : Event) : bool :=
  match ev with
  | EvOnJson _ (Some _) | EvOnCodeBlock _ (Some _) => true
  | _ => false
  end.

Definition clean (tr : list Event) : Prop :=
  forallb (fun ev => negb (failed ev)) tr = true.

(** The batches handed to [OnCodeBlock], in order. *)
Definition batches (tr : list Event) : list (list CodeBlock) :=
  flat_map (fun ev => match ev with EvOnCodeBlock bs _ => [bs] | _ => [] end) tr.

(** *** Runs of [Query] *)

Section Endings.
Variable State : Type.
Variable decode : bytes -> Object + error.

(** The trace ends with [ev], and no handler failed before. *)
Definition ends_with (run : Run State) (ev : Event) : Prop :=
  exists tr, trace run = tr ++ [ev] /\ clean tr.

(** The ways [Query] comes to an end, each with its cause. *)
Inductive ending (run : Run State) : Prop :=
| end_of_stream :
    outcome run = Returns None ->
    ends_with run (EvScan false) ->
    ending run
| read_failed e :
    outcome run = Returns (Some (Errorf "failed to read ollama response: " e)) ->
    Err (scanner run) = Some e ->
    clean (trace run) ->
    ending run
| decode_failed e :
    outcome run = Returns (Some (Errorf "failed to unmarshal ollama response: " e)) ->
    decode (Bytes (scanner run)) = inr e ->
    clean (trace run) ->
    ending run
| OnJson_failed res e :
    outcome run = Returns (Some (Errorf "failed to process ollama response: " e)) ->
    ends_with run (EvOnJson res (Some e)) ->
    ending run
| OnCodeBlock_failed blocks e :
    outcome run =
      Returns (Some (Errorf "failed to process ollama response code block: " e)) ->
    ends_with run (EvOnCodeBlock blocks (Some e)) ->
    ending run
| fragment_missing :
    outcome run = Panics "invalid memory address or nil pointer dereference" ->
    clean (trace run) ->
    ending run.
End Endings.

(** *** The loop of [Query] over lines *)

Section Lines.
Variable State : Type.
Variable decode : bytes -> Object + error.

(** What a caller of [Query] can see of a run. *)
Definition Result : Type := Outcome * State * list Event * bytes.

Definition result (run : Run State) : Result :=
  (outcome run, state run, trace run, buffer run).

(** How a run ends once the lines are handled: with the call of [Scan]
    that finds the end of the stream, or with the one that brings the token
    of a failed read. *)
Definition stream_ended (st : State) (tr : list Event) (text : bytes) : Result :=
  (Returns None, st, tr ++ [EvScan false], text).

Definition read_failure (e : error) (st : State) (tr : list Event) (text : bytes)
  : Result :=
  (Returns (Some (Errorf "failed to read ollama response: " e)), st,
   tr ++ [EvScan true], text).

(** The loop of [Query], lines 233-266, over lines that came without
    error: the body of the loop for each line, then [finish]. *)
Fixpoint handle_lines (request : Request State) (shouldAnalyse : bool)
         (finish : State -> list Event -> bytes -> Result)
         (lines : list bytes) (res : Response) (text : bytes)
         (st : State) (tr : list Event) : Result :=
  match lines with
  | [] => finish st tr text
  | line :: rest =>
      let tr := tr ++ [EvScan true] in
      match Unmarshal decode line res with
      | inr e =>
          (Returns (Some (Errorf "failed to unmarshal ollama response: " e)), st, tr, text)
      | inl res =>
          let '(st, tr, err) :=
            match OnJson request with
            | Some h =>
                let '(st', ret) := h res st in
                (st', tr ++ [EvOnJson res ret], ret)
            | None => (st, tr, None)
            end in
          match err with
          | Some e =>
              (Returns (Some (Errorf "failed to process ollama response: " e)), st, tr, text)
          | None =>
              if shouldAnalyse then
                match analyse text res with
                | None =>
                    (Panics "invalid memory address or nil pointer dereference", st, tr, text)
                | Some (text, None) =>
                    handle_lines request shouldAnalyse finish rest res text st tr
                | Some (text, Some blocks) =>
                    match OnCodeBlock request with
                    | None =>
                        (Panics "invalid memory address or nil pointer dereference",
                         st, tr, text)
                    | Some h =>
                        let '(st', ret) := h blocks st in
                        let tr := tr ++ [EvOnCodeBlock blocks ret] in
                        match ret with
                        | Some e =>
                            (Returns (Some (Errorf
                               "failed to process ollama response code block: " e)),
                             st', tr, text)
                        | None =>
                            handle_lines request shouldAnalyse finish rest res text st' tr
                        end
                    end
                end
              else handle_lines request shouldAnalyse finish rest res text st tr
          end
      end
  end.
End Lines.

(** The lines decode, and line by line they carry the fragments. *)
Definition carries (decode : bytes -> Object + error)
           (lines fragments : list bytes) : Prop :=
  Forall2 (fun l fragment => exists o, decode l = inl o /\ o_response o = value fragment)
          lines fragments.

(** The extractor as the specification describes it, run over the fragments
    of a stream: each fragment is appended to the buffer and the whole buffer
    is searched with the pattern; the fences found make one batch, in the
    order they are found, and the buffer is emptied, or none is found and the
    buffer is kept.  The batches in order, and the buffer at the end. *)
Fixpoint fence_extractor (buffer : bytes) (fragments : list bytes)
  : list (list CodeBlock) * bytes :=
  match fragments with
  | [] => ([], buffer)
  | fragment :: rest =>
      match FindAll CodeBlockRegExp (buffer ++ fragment) with
      | [] => fence_extractor (buffer ++ fragment) rest
      | found =>
          let '(bs, b) := fence_extractor [] rest in
          (map block_of found :: bs, b)
      end
  end.

(** A batch as [Query] hands it to [OnCodeBlock]: all the closed fences of
    some buffer, and at least one. *)
Definition extracted (batch : list CodeBlock) : Prop :=
  batch <> [] /\
  exists buffer, batch = ParseCodeBlock buffer /\ Forall (closed_fence buffer) batch.

(** *** Matches and scanner states *)

Definition never_empty (re : regex) : Prop :=
  forall whole cap, derives re whole [] cap -> whole <> [].

(** What [allMatches] records for a match of [whole], [skipped] characters
    after position [pos]. *)
Definition match_at (re : regex) (s : bytes) (pos : nat) (m : Match) : Prop :=
  exists skipped whole cap rest,
    skipn skipped s = whole ++ rest /\
    pos + skipped + length whole <= pos + length s /\
    derives re whole [] cap /\
    m = {| m_start := pos + skipped; m_end := pos + skipped + length whole;
           m_sub := submatches re whole cap |}.

Definition splits_at (sep : bytes) (s : Scanner) : Prop :=
  split s = SplitAt sep /\ done s = false.

(** A call of [Scan] that did not panic and, when it gave a token, left
    less than [bound] to work on. *)
Definition scan_ok (sep : bytes) (bound : nat) (res : ScanResult) : Prop :=
  match res with
  | Scanned true s' => splits_at sep s' /\ Scanner_size s' < bound
  | Scanned false _ => True
  | ScanPanic _ => False
  end.

(** A scanner between two calls of [Scan]: window [w], the reads still to
    come, no error so far. *)
Definition feeding (sep w : bytes) (chunks : list bytes) (last : bytes)
           (tok : option bytes) : Scanner :=
  {| r := reader_of chunks last; split := SplitAt sep; token := tok; window := w;
     err := None; empties := 0; done := false |}.

(** A scanner that has met the end of the body, with [w] left in its
    window. *)
Definition at_end (sep w : bytes) (tok : option bytes) : Scanner :=
  {| r := Ends [] EOF; split := SplitAt sep; token := tok; window := w;
     err := Some EOF; empties := 0; done := false |}.

(** The bytes [body] fit the buffer: every token, with the separator that
    ends it, has at most [MaxScanTokenSize] bytes, and what follows the last
    separator has fewer. *)
Inductive fits (sep : bytes) : bytes -> Prop :=
| fits_tail body :
    index_of body sep = None ->
    (len body < MaxScanTokenSize)%Z ->
    fits sep body
| fits_token body i :
    index_of body sep = Some i ->
    (Z.of_nat (i + length sep) <= MaxScanTokenSize)%Z ->
    fits sep (skipn (i + length sep) body) ->
    fits sep body.

(** A scanner next to the one that holds all the remaining bytes in its
    window and has only the end of the body left to read: either it still has
    reads to make, or it has met the end already.  The remaining bytes fit the
    buffer. *)
Definition ahead (sep : bytes) (s1 s2 : Scanner) : Prop :=
  s1 = s2 \/
  (exists w chunks last tok,
      Forall (fun c => c <> []) chunks /\
      fits sep (w ++ concat chunks ++ last) /\
      s1 = feeding sep w chunks last tok /\
      s2 = feeding sep (w ++ concat chunks ++ last) [] [] tok) \/
  (exists w tok,
      fits sep w /\
      s1 = at_end sep w tok /\
      s2 = feeding sep w [] [] tok).

(** A scanner between two calls of [Scan] on a body that ends with
    [io.EOF]: it still has reads to make, none of them empty, or it has met
    the end. *)
Definition reading (sep : bytes) (s : Scanner) : Prop :=
  (exists w chunks last tok,
      Forall (fun c => c <> []) chunks /\ s = feeding sep w chunks last tok) \/
  (exists w tok, s = at_end sep w tok).

(** A call of [Scan] that did not panic and left such a scanner when it gave
    a token. *)
Definition reads_on (sep : bytes) (res : ScanResult) : Prop :=
  match res with
  | Scanned true s' => reading sep s'
  | Scanned false _ => True
  | ScanPanic _ => False
  end.

Definition same_scan (sep : bytes) (res1 res2 : ScanResult) : Prop :=
  match res1, res2 with
  | Scanned true s1, Scanned true s2 => ahead sep s1 s2
  | Scanned false s1, Scanned false s2 => Err s1 = Err s2
  | ScanPanic _, ScanPanic _ => True
  | _, _ => False
  end.

(** ** Bodies, handlers and texts of the examples *)

(** A line that carries only a text fragment, and one that carries only
    the completion flag (no [response] member). *)
Definition fragment_only (t : bytes) : Response :=
  {| Model := None; CreatedAt := None; Response_ := Some t; Done := None |}.

Definition done_only : Response :=
  {| Model := None; CreatedAt := None; Response_ := None; Done := Some true |}.

Definition line (res : Response) : bytes := json_of_Response res ++ [newline].

(** A body that arrives in one read and then ends. *)
Definition in_one_read (body : bytes) : Reader := Chunk body (Ends [] EOF).

(** [OnCodeBlock] of the tests: collects the blocks. *)
Definition keep_blocks : handler (list CodeBlock) (list CodeBlock) :=
  fun blocks st => (st ++ blocks, None).

Definition with_OnCodeBlock : Request (list CodeBlock) :=
  {| OnJson := None; OnCodeBlock := Some keep_blocks |}.

Definition connection_reset : error := errorString "read: connection reset by peer".

(** The body breaks right after its first line. *)
Definition run_reset_after_line : Run (list CodeBlock) :=
  Query json_line
    (Chunk (line (fragment_only (str "a"))) (Ends [] connection_reset))
    with_OnCodeBlock [].

(** The body breaks in the middle of its second line. *)
Definition run_reset_within_line : Run (list CodeBlock) :=
  Query json_line
    (Chunk (line (fragment_only (str "a")) ++ str "{") (Ends [] connection_reset))
    with_OnCodeBlock [].

(** A first line without fragment; a line without fragment after one that
    has the fragment [a]. *)
Definition run_done_only : Run (list CodeBlock) :=
  Query json_line (in_one_read (line done_only)) with_OnCodeBlock [].

Definition run_fragment_then_done : Run (list CodeBlock) :=
  Query json_line (in_one_read (line (fragment_only (str "a")) ++ line done_only))
    with_OnCodeBlock [].

(** The five-event stream of the tests; [OnJson] counts its calls and
    fails at the second with [stop now]. *)
Definition sentinel : error := errorString "stop now".

Definition fails_at_second : handler nat Response :=
  fun _ calls => (S calls, if calls =? 1 then Some sentinel else None).

Definition created : bytes := str "2024-05-01T10:00:00Z".

Definition event (fragment : string) (done : bool) : Response :=
  {| Model := Some (str "m"); CreatedAt := Some created;
     Response_ := Some (str fragment); Done := Some done |}.

Definition five_events : bytes :=
  simulateStreamBody created [str "Hello"; str ", "; str "world"; str "!"] (str "m").

Definition run_five_events : Run nat :=
  Query json_line (in_one_read five_events)
    {| OnJson := Some fails_at_second; OnCodeBlock := None |} 0.

(** Texts with fences. *)
Definition println_hi : bytes :=
  str "fmt.Println(" ++ [dquote] ++ str "hi" ++ [dquote] ++ str ")".

Definition go_fence : bytes :=
  str "```go" ++ [newline] ++ println_hi ++ [newline] ++ str "```" ++ [newline].

Definition two_backticks : bytes :=
  str "``go" ++ [newline] ++ str "x" ++ [newline] ++ str "``".

Definition bare_fence : bytes :=
  str "```" ++ [newline] ++ str "code" ++ [newline] ++ str "```".

Definition two_fences : bytes :=
  str "```python" ++ [newline] ++ str "print('a')" ++ [newline] ++ str "```" ++ [newline] ++
  str "middle" ++ [newline] ++
  str "```bash" ++ [newline] ++ str "echo b" ++ [newline] ++ str "```" ++ [newline].

(** A closed [go] fence followed by an open [py] fence, and the fragment
    that would close the latter. *)
Definition closed_then_open : bytes :=
  str "```go" ++ [newline] ++ str "a" ++ [newline] ++ str "```" ++ [newline] ++
  str "```py" ++ [newline] ++ str "b".

Definition closing : bytes := [newline] ++ str "```" ++ [newline].

Definition go_block : CodeBlock := {| Type_ := str "go"; Code := newline :: str "a" |}.
Definition py_block : CodeBlock := {| Type_ := str "py"; Code := newline :: str "b" |}.

Definition run_closed_then_open : Run (list CodeBlock) :=
  Query json_line
    (in_one_read (line (fragment_only closed_then_open) ++ line (fragment_only closing)))
    with_OnCodeBlock [].

(** Two fences in one fragment. *)
Definition python_block : CodeBlock :=
  {| Type_ := str "python"; Code := newline :: str "print('a')" |}.
Definition bash_block : CodeBlock :=
  {| Type_ := str "bash"; Code := newline :: str "echo b" |}.

Definition run_two_fences : Run (list CodeBlock) :=
  Query json_line (reader_of [line (fragment_only two_fences)] []) with_OnCodeBlock [].

(** A stream that ends inside a fence. *)
Definition run_open_fence : Run (list CodeBlock) :=
  Query json_line
    (in_one_read (simulateStreamBody created
              [str "see "; str "```go" ++ [newline]; str "x := 1"] (str "m")))
    with_OnCodeBlock [].

(** A text as large as the buffer can get, without separator, and the
    reads it comes in when each read fills the room the scanner offers: 4096
    bytes in the first buffer, then as many as the buffer has grown by. *)
Definition letters (n : Z) : bytes := repeat "a"%char (Z.to_nat n).

Definition long_token : bytes := letters MaxScanTokenSize.

Definition filling_reads : list bytes := map letters [4096; 4096; 8192; 16384]%Z.

Definition last_read : bytes := letters 32768.

(** A stream whose text ends in a fence that three backticks open and two
    backticks follow. *)
Definition half_closed : bytes :=
  str "```go" ++ [newline] ++ str "x := 1" ++ [newline] ++ str "``".

Definition run_half_closed : Run (list CodeBlock) :=
  Query json_line (in_one_read (line (fragment_only half_closed))) with_OnCodeBlock [].

(** *** Inputs of the repository's tests *)

Definition lines (l : list string) : bytes :=
  flat_map (fun s => str s ++ [newline]) l.

Definition quoted (s : string) : bytes := dquote :: str s ++ [dquote].

(** [OnJson] of [TestQueryStream_TokenByToken]: collects the fragments. *)
Definition collect : handler (list bytes) Response :=
  fun res st =>
    (match Response_ res with Some t => st ++ [t] | None => st end, None).

(** [OnJson] of [TestQueryStream_OnJsonDoneFlag]: collects the flags. *)
Definition collect_done : handler (list bool) Response :=
  fun res st =>
    (match Done res with Some d => st ++ [d] | None => st end, None).

(** [OnCodeBlock] of [TestQueryStream_OnCodeBlockError]. *)
Definition block_error : handler unit (list CodeBlock) :=
  fun _ st => (st, Some (errorString "block error")).

(** The fragments of [TestQueryStream_CodeBlockExtraction]. *)
Definition program : list bytes :=
  [ lines ["Here is a program:"; ""];
    lines ["```go"];
    lines ["package main"];
    [newline];
    str "import " ++ quoted "fmt" ++ [newline];
    [newline];
    lines ["func main() {"];
    tab :: str "fmt.Println(" ++ quoted "hello" ++ str ")" ++ [newline];
    lines ["}"];
    lines ["```"];
    newline :: str "That's it!" ].

Definition program_code : bytes :=
  newline :: lines ["package main"; ""] ++
  str "import " ++ quoted "fmt" ++ [newline] ++
  lines [""; "func main() {"] ++
  tab :: str "fmt.Println(" ++ quoted "hello" ++ str ")" ++ [newline] ++
  str "}".

(** The three fragments of the fence [go_fence], one event each. *)
Definition run_three_fragments : Run (list CodeBlock) :=
  Query json_line
    (in_one_read (simulateStreamBody created
       [str "```go" ++ [newline]; println_hi ++ [newline]; str "```" ++ [newline]]
       (str "m")))
    with_OnCodeBlock [].

(** ** The address of [Ps], client.go lines 162-166

    *** [strings.HasSuffix], [strings.TrimSuffix], [strings.LastIndex] *)

Definition HasSuffix (s suffix : bytes) : bool :=
  (length suffix <=? length s) &&
  bytes_eqb (skipn (length s - length suffix) s) suffix.

Definition TrimSuffix (s suffix : bytes) : bytes :=
  if HasSuffix s suffix then firstn (length s - length suffix) s else s.

(** Offset of the last occurrence of [sep] in [s], if there is one. *)
Fixpoint last_index_of (s sep : bytes) : option nat :=
  match s with
  | [] => if HasPrefix [] sep then Some 0 else None
  | _ :: s' =>
      match last_index_of s' sep with
      | Some i => Some (S i)
      | None => if HasPrefix s sep then Some 0 else None
      end
  end.

(** [strings.LastIndex]: the offset of the last occurrence, or -1. *)
Definition LastIndex (s sep : bytes) : Z :=
  match last_index_of s sep with
  | Some i => Z.of_nat i
  | None => (-1)%Z
  end.

(** The first lines of [Ps]: the address the request is sent to, derived
    from the address of the DSN. *)
Definition psURL (URL : bytes) : bytes :=
  let psURL := TrimSuffix URL (str "/") in
  let i := LastIndex psURL (str "/") in
  if (i >=? 0)%Z then firstn (Z.to_nat i) psURL ++ str "/ps"
  else psURL.

(** No slash. *)
Definition no_slash (s : bytes) : bool :=
  forallb (fun c => negb (Ascii.eqb c "/")) s.

(** ** examples/tui/main.go

    The chat client's state and the handlers of its messages.  The fields
    of [model] kept here are the ones the handlers compute with; the display
    ([viewport], [mdRenderer]), the clock ([streamStart], [lastTokSec]) and
    the handles [prog] and [client] are left out, with the calls that only
    write them ([refreshViewport], the update of the viewport).  A value of
    [model] is copied at every call; [history] and [streamBuf] are shared
    between the copies, and only the copy a handler returns is used
    afterwards, so the state is passed on as a value. *)

Module Tui.

(** [int]: 64 bits, two's complement. *)
Definition int_wrap (z : Z) : Z := ((z + 2 ^ 63) mod 2 ^ 64 - 2 ^ 63)%Z.

Definition hPad : Z := 2.
Definition vPad : Z := 1.

Definition defaultModels : list bytes :=
  [ str "gemma3:1b"; str "gemma3:4b"; str "gemma3:12b"; str "llama3.2:1b";
    str "llama3.2:3b"; str "deepseek-r1:8b"; str "deepseek-r1:14b";
    str "qwen2.5-coder:1.5b"; str "kirito1/qwen3-coder:latest"; str "gpt-oss:latest" ].

Inductive screen : Type :=
| screenModelSelect
| screenSystemPrompt
| screenChat.

Record chatEntry : Type := mkChatEntry {
  role : bytes;   (* "user" or "assistant" *)
  text : bytes
}.

(** The messages ([tea.Msg]); a key comes as its name, [msg.String()].  The
    map of [psMsg] gives the [ContextLength] of the models that run. *)
Inductive Msg : Type :=
| KeyMsg (key : string)
| WindowSizeMsg (Width Height : Z)
| tokenMsg (tok : bytes)
| doneMsg (promptEvalCount evalCount : Z)
| errMsg (e : error)
| psMsg (models : bytes -> option Z).

(** The commands ([tea.Cmd]) the handlers return. *)
Inductive Cmd : Type :=
| Cmd_nil
| Quit
| Cmd_Focus          (* what [Focus] of a text area returns *)
| Cmd_fetchPs
| Cmd_Update         (* what the widgets' [Update] return *)
| Batch (c1 c2 : Cmd).

(** [textarea.Model], as far as the program uses it. *)
Class Textarea (T : Type) : Type := mkTextarea {
  Value : T -> bytes;
  SetValue : bytes -> T -> T;
  Reset : T -> T;
  Focus : T -> T;
  Blur : T -> T;
  SetWidth : Z -> T -> T;
  textarea_Update : Msg -> T -> T
}.

Section Model.
Variable T : Type.
Context {TA : Textarea T}.

(** [strings.TrimSpace]. *)
Variable TrimSpace : bytes -> bytes.

Record model : Type := mkModel {
  screen_ : screen;
  width : Z;
  height : Z;
  (* Model picker *)
  models : list bytes;
  cursor : Z;
  runningModels : bytes -> option Z;
  (* System prompt *)
  systemPrompt : bytes;
  sysTA : T;
  (* Chat *)
  selectedModel : bytes;
  history : list chatEntry;
  streaming : bool;
  streamBuf : bytes;
  textarea : T;
  vpReady : bool;
  err : option error;
  (* Token stats *)
  tokenCount : Z;
  (* Context window tracking *)
  ctxSize : Z;
  ctxUsed : Z
}.

(** Assignments to the fields. *)
Definition set_screen (v : screen) (m : model) : model :=
  mkModel v (width m) (height m) (models m) (cursor m) (runningModels m) (systemPrompt m)
    (sysTA m) (selectedModel m) (history m) (streaming m) (streamBuf m) (textarea m)
    (vpReady m) (err m) (tokenCount m) (ctxSize m) (ctxUsed m).

Definition set_size (w h : Z) (m : model) : model :=
  mkModel (screen_ m) w h (models m) (cursor m) (runningModels m) (systemPrompt m)
    (sysTA m) (selectedModel m) (history m) (streaming m) (streamBuf m) (textarea m)
    (vpReady m) (err m) (tokenCount m) (ctxSize m) (ctxUsed m).

Definition set_cursor (v : Z) (m : model) : model :=
  mkModel (screen_ m) (width m) (height m) (models m) v (runningModels m) (systemPrompt m)
    (sysTA m) (selectedModel m) (history m) (streaming m) (streamBuf m) (textarea m)
    (vpReady m) (err m) (tokenCount m) (ctxSize m) (ctxUsed m).

Definition set_runningModels (v : bytes -> option Z) (m : model) : model :=
  mkModel (screen_ m) (width m) (height m) (models m) (cursor m) v (systemPrompt m)
    (sysTA m) (selectedModel m) (history m) (streaming m) (streamBuf m) (textarea m)
    (vpReady m) (err m) (tokenCount m) (ctxSize m) (ctxUsed m).

Definition set_systemPrompt (v : bytes) (m : model) : model :=
  mkModel (screen_ m) (width m) (height m) (models m) (cursor m) (runningModels m) v
    (sysTA m) (selectedModel m) (history m) (streaming m) (streamBuf m) (textarea m)
    (vpReady m) (err m) (tokenCount m) (ctxSize m) (ctxUsed m).

Definition set_sysTA (v : T) (m : model) : model :=
  mkModel (screen_ m) (width m) (height m) (models m) (cursor m) (runningModels m)
    (systemPrompt m) v (selectedModel m) (history m) (streaming m) (streamBuf m)
    (textarea m) (vpReady m) (err m) (tokenCount m) (ctxSize m) (ctxUsed m).

Definition set_selectedModel (v : bytes) (m : model) : model :=
  mkModel (screen_ m) (width m) (height m) (models m) (cursor m) (runningModels m)
    (systemPrompt m) (sysTA m) v (history m) (streaming m) (streamBuf m) (textarea m)
    (vpReady m) (err m) (tokenCount m) (ctxSize m) (ctxUsed m).

Definition set_history (v : list chatEntry) (m : model) : model :=
  mkModel (screen_ m) (width m) (height m) (models m) (cursor m) (runningModels m)
    (systemPrompt m) (sysTA m) (selectedModel m) v (streaming m) (streamBuf m)
    (textarea m) (vpReady m) (err m) (tokenCount m) (ctxSize m) (ctxUsed m).

Definition set_streaming (v : bool) (m : model) : model :=
  mkModel (screen_ m) (width m) (height m) (models m) (cursor m) (runningModels m)
    (systemPrompt m) (sysTA m) (selectedModel m) (history m) v (streamBuf m)
    (textarea m) (vpReady m) (err m) (tokenCount m) (ctxSize m) (ctxUsed m).

Definition set_streamBuf (v : bytes) (m : model) : model :=
  mkModel (screen_ m) (width m) (height m) (models m) (cursor m) (runningModels m)
    (systemPrompt m) (sysTA m) (selectedModel m) (history m) (streaming m) v
    (textarea m) (vpReady m) (err m) (tokenCount m) (ctxSize m) (ctxUsed m).

Definition set_textarea (v : T) (m : model) : model :=
  mkModel (screen_ m) (width m) (height m) (models m) (cursor m) (runningModels m)
    (systemPrompt m) (sysTA m) (selectedModel m) (history m) (streaming m) (streamBuf m)
    v (vpReady m) (err m) (tokenCount m) (ctxSize m) (ctxUsed m).

Definition set_vpReady (v : bool) (m : model) : model :=
  mkModel (screen_ m) (width m) (height m) (models m) (cursor m) (runningModels m)
    (systemPrompt m) (sysTA m) (selectedModel m) (history m) (streaming m) (streamBuf m)
    (textarea m) v (err m) (tokenCount m) (ctxSize m) (ctxUsed m).

Definition set_err (v : option error) (m : model) : model :=
  mkModel (screen_ m) (width m) (height m) (models m) (cursor m) (runningModels m)
    (systemPrompt m) (sysTA m) (selectedModel m) (history m) (streaming m) (streamBuf m)
    (textarea m) (vpReady m) v (tokenCount m) (ctxSize m) (ctxUsed m).

Definition set_tokenCount (v : Z) (m : model) : model :=
  mkModel (screen_ m) (width m) (height m) (models m) (cursor m) (runningModels m)
    (systemPrompt m) (sysTA m) (selectedModel m) (history m) (streaming m) (streamBuf m)
    (textarea m) (vpReady m) (err m) v (ctxSize m) (ctxUsed m).

Definition set_ctxSize (v : Z) (m : model) : model :=
  mkModel (screen_ m) (width m) (height m) (models m) (cursor m) (runningModels m)
    (systemPrompt m) (sysTA m) (selectedModel m) (history m) (streaming m) (streamBuf m)
    (textarea m) (vpReady m) (err m) (tokenCount m) v (ctxUsed m).

Definition set_ctxUsed (v : Z) (m : model) : model :=
  mkModel (screen_ m) (width m) (height m) (models m) (cursor m) (runningModels m)
    (systemPrompt m) (sysTA m) (selectedModel m) (history m) (streaming m) (streamBuf m)
    (textarea m) (vpReady m) (err m) (tokenCount m) (ctxSize m) v.

(** [initialModel], lines 160-190; [ta] and [sysTA] are the two text areas
    as they are set up. *)
Definition initialModel (ta sysTA : T) : model :=
  mkModel screenModelSelect 0 0 defaultModels 0 (fun _ => None) [] sysTA
    [] [] false [] ta false None 0 0 0.

(** What a handler leaves: the model and the command it returns, and the
    copy of the model [runQuery] was started with, if it was. *)
Record Step : Type := mkStep {
  next : model;
  cmd : Cmd;
  spawned : option model
}.

Inductive Outcome : Type :=
| Returns (s : Step)
| Panics (msg : string).

Definition returns (m : model) (c : Cmd) : Outcome := Returns (mkStep m c None).

(** [l[i]]. *)
Definition index {A : Type} (l : list A) (i : Z) : option A :=
  if (i <? 0)%Z then None else nth_error l (Z.to_nat i).

Definition len {A : Type} (l : list A) : Z := Z.of_nat (length l).

(** [innerWidth], lines 303-309. *)
Definition innerWidth (m : model) : Z :=
  let w := int_wrap (width m - hPad * 2) in
  if (w <? 20)%Z then 20%Z else w.

(** [resizeChat], lines 311-342, without the viewport and the renderer. *)
Definition resizeChat (m : model) : model :=
  let iw := innerWidth m in
  let m := set_vpReady true m in
  set_textarea (SetWidth iw (textarea m)) m.

(** [updateModelSelect], lines 250-281. *)
Definition updateModelSelect (msg : Msg) (m : model) : Outcome :=
  match msg with
  | KeyMsg key =>
      if String.eqb key "q" || String.eqb key "esc" then returns m Quit
      else if String.eqb key "up" || String.eqb key "k" then
        let m :=
          if (cursor m >? 0)%Z then set_cursor (int_wrap (cursor m - 1)) m else m in
        returns m Cmd_nil
      else if String.eqb key "down" || String.eqb key "j" then
        let m :=
          if (cursor m <? len (models m) - 1)%Z
          then set_cursor (int_wrap (cursor m + 1)) m else m in
        returns m Cmd_nil
      else if String.eqb key "s" then
        let m := set_screen screenSystemPrompt m in
        let m := set_sysTA (SetValue (systemPrompt m) (sysTA m)) m in
        let m := set_sysTA (Focus (sysTA m)) m in
        returns m Cmd_Focus
      else if String.eqb key "enter" then
        match index (models m) (cursor m) with
        | None => Panics "index out of range"
        | Some selected =>
            let m := set_selectedModel selected m in
            let m := set_screen screenChat m in
            let m :=
              match runningModels m (selectedModel m) with
              | Some ContextLength => set_ctxSize ContextLength m
              | None => m
              end in
            let m := resizeChat m in
            let m := set_textarea (Focus (textarea m)) m in
            returns m (Batch Cmd_Focus Cmd_fetchPs)
        end
      else returns m Cmd_nil
  | _ => returns m Cmd_nil
  end.

(** [updateSystemPrompt], lines 285-299. *)
Definition updateSystemPrompt (msg : Msg) (m : model) : Outcome :=
  let update :=
    returns (set_sysTA (textarea_Update msg (sysTA m)) m) Cmd_Update in
  match msg with
  | KeyMsg key =>
      if String.eqb key "esc" then
        let m := set_systemPrompt (TrimSpace (Value (sysTA m))) m in
        let m := set_sysTA (Blur (sysTA m)) m in
        let m := set_screen screenModelSelect m in
        returns m Cmd_nil
      else update
  | _ => update
  end.

(** The last entry gets the text [t]. *)
Definition set_last_text (t : bytes) (h : list chatEntry) : list chatEntry :=
  match rev h with
  | [] => h
  | last :: front => rev front ++ [mkChatEntry (role last) t]
  end.

(** [updateChat], lines 344-437. *)
Definition updateChat (msg : Msg) (m : model) : Outcome :=
  let widgets :=
    let m :=
      if negb (streaming m) then set_textarea (textarea_Update msg (textarea m)) m
      else m in
    returns m Cmd_Update in
  let leave :=
    if streaming m then returns m Cmd_nil
    else
      let m := set_textarea (Blur (textarea m)) m in
      let m := set_screen screenModelSelect m in
      returns m Cmd_fetchPs in
  match msg with
  | KeyMsg key =>
      if String.eqb key "esc" then leave
      else if String.eqb key "ctrl+m" then leave
      else if String.eqb key "enter" then
        if streaming m then returns m Cmd_nil
        else
          let prompt := TrimSpace (Value (textarea m)) in
          if negb (nonempty prompt) then returns m Cmd_nil
          else
            let m := set_textarea (Reset (textarea m)) m in
            let m := set_err None m in
            let m := set_history (history m ++ [mkChatEntry (str "user") prompt]) m in
            let m := set_history (history m ++ [mkChatEntry (str "assistant") []]) m in
            let m := set_streaming true m in
            let m := set_tokenCount 0 m in
            let m := set_streamBuf [] m in
            Returns (mkStep m Cmd_nil (Some m))
      else widgets
  | tokenMsg tok =>
      let m :=
        if streaming m && (len (history m) >? 0)%Z then
          let m := set_tokenCount (int_wrap (tokenCount m + 1)) m in
          let m := set_streamBuf (streamBuf m ++ tok) m in
          set_history (set_last_text (streamBuf m) (history m)) m
        else m in
      returns m Cmd_nil
  | doneMsg promptEvalCount evalCount =>
      let m := set_ctxUsed (int_wrap (promptEvalCount + evalCount)) m in
      let m := set_streaming false m in
      let m := set_textarea (Focus (textarea m)) m in
      returns m (Batch Cmd_Focus Cmd_fetchPs)
  | errMsg e =>
      let m := set_streaming false m in
      let m := set_err (Some e) m in
      let m :=
        match rev (history m) with
        | last :: front =>
            if bytes_eqb (role last) (str "assistant") && negb (nonempty (text last))
            then set_history (rev front) m
            else m
        | [] => m
        end in
      let m := set_textarea (Focus (textarea m)) m in
      returns m Cmd_Focus
  | _ => widgets
  end.

(** [Update], lines 212-246. *)
Definition Update (msg : Msg) (m : model) : Outcome :=
  let screens (m : model) :=
    match screen_ m with
    | screenModelSelect => updateModelSelect msg m
    | screenSystemPrompt => updateSystemPrompt msg m
    | screenChat => updateChat msg m
    end in
  match msg with
  | WindowSizeMsg Width Height =>
      let m := set_size Width Height m in
      let m := match screen_ m with screenChat => resizeChat m | _ => m end in
      returns m Cmd_nil
  | psMsg running =>
      let m := set_runningModels running m in
      let m :=
        if nonempty (selectedModel m) then
          match running (selectedModel m) with
          | Some ContextLength => set_ctxSize ContextLength m
          | None => m
          end
        else m in
      returns m Cmd_nil
  | KeyMsg key =>
      if String.eqb key "ctrl+c" then returns m Quit else screens m
  | _ => screens m
  end.

(** [buildConversationPrompt], lines 441-460: the entries written in the
    loop, and the whole prompt. *)
Definition written_entry (entry : chatEntry) : bytes :=
  if bytes_eqb (role entry) (str "user") then
    str "User: " ++ text entry ++ [newline; newline]
  else if bytes_eqb (role entry) (str "assistant") then
    if nonempty (text entry) then
      str "Assistant: " ++ text entry ++ [newline; newline]
    else []
  else [].

Definition buildConversationPrompt (m : model) : bytes :=
  let sb := fold_left (fun sb entry => sb ++ written_entry entry) (history m) [] in
  (* The last entry is the empty assistant placeholder — prompt the model to continue. *)
  sb ++ str "Assistant: ".

(** The program fed the messages [msgs], one [Update] after the other. *)
Fixpoint run (msgs : list Msg) (m : model) : model + string :=
  match msgs with
  | [] => inl m
  | msg :: rest =>
      match Update msg m with
      | Returns s => run rest (next s)
      | Panics e => inr e
      end
  end.

(** The cursor points into the list of models (a slice has fewer than
    [2 ^ 63] elements). *)
Definition cursor_ok (m : model) : Prop :=
  (0 <= cursor m < len (models m))%Z /\ (len (models m) < 2 ^ 63)%Z.

(** The entries a streamed reply leaves after the prompt [p]: the user's
    entry and the reply [reply], which is dropped with [drop_empty] when it
    is empty. *)
Definition exchange (p reply : bytes) (drop_empty : bool) : list chatEntry :=
  mkChatEntry (str "user") p ::
  (if drop_empty && negb (nonempty reply) then []
   else [mkChatEntry (str "assistant") reply]).

(** A handler returned, and left the list of models and a cursor that
    points into it. *)
Definition picker_kept (m : model) (out : Outcome) : Prop :=
  exists s, out = Returns s /\ models (next s) = models m /\ cursor_ok (next s).
End Model.

(** A text area that is its text, for the examples: keys are not typed in. *)
#[global] Instance plain_textarea : Textarea bytes :=
  {| Value := fun t => t; SetValue := fun v _ => v; Reset := fun _ => [];
     Focus := fun t => t; Blur := fun t => t; SetWidth := fun _ t => t;
     textarea_Update := fun _ t => t |}.

(** The chat screen with [prompt] typed in, after the entries [h]. *)
Definition chatting (h : list chatEntry) (prompt : bytes) : model bytes :=
  mkModel screenChat 80 24 defaultModels 0 (fun _ => None) [] []
    (str "gemma3:1b") h false [] prompt true None 0 0 0.
End Tui.

(** ** Vocabulary of the further properties

    *** Draining and joining *)

(** [n] calls of [Scan] in a row, as long as they return true. *)
Fixpoint Scan_times (n : nat) (s : Scanner) : ScanResult :=
  match n with
  | 0 => Scanned true s
  | S n' =>
      match Scan s with
      | Scanned true s' => Scan_times n' s'
      | res => res
      end
  end.

(** Every token followed by the separator. *)
Definition terminated (sep : bytes) (toks : list bytes) : bytes :=
  flat_map (fun t => t ++ sep) toks.

(** The separator does not occur in [t ++ sep] before the end of [t]. *)
Definition sep_free (sep t : bytes) : Prop :=
  index_of (t ++ sep) sep = Some (length t).

(** The token [t] and the separator fit the buffer together. *)
Definition short (sep t : bytes) : Prop :=
  (len t + len sep <= MaxScanTokenSize)%Z.

(** The scanner after one or more calls of [Scan] on a body whose first read
    gave [c], when the separator is empty. *)
Definition stuck (c : bytes) (rd : Reader) (e : option error) (n : nat) : Scanner :=
  {| r := rd; split := SplitAt []; token := Some []; window := c;
     err := e; empties := n; done := false |}.

(** The lines the scanner yields on a body, whatever its end (with the final
    value of [Err]), drained the way [tokens] does. *)
Definition scanned (body : Reader) : option (list bytes * option error) :=
  scan_all (S (Reader_size body)) (NewSplitScanner body [newline]).

(** If the line decodes, it carries a text fragment. *)
Definition has_fragment (decode : bytes -> Object + error) (l : bytes) : Prop :=
  forall o, decode l = inl o -> exists t, o_response o = value t.

(** The responses [OnJson] was called with, in order. *)
Definition OnJson_calls (tr : list Event) : list Response :=
  flat_map (fun ev => match ev with EvOnJson res _ => [res] | _ => [] end) tr.

(** The values [res] takes when the objects [os] are decoded into it one
    after the other. *)
Fixpoint accumulate (os : list Object) (res : Response) : list Response :=
  match os with
  | [] => []
  | o :: rest => assign o res :: accumulate rest (assign o res)
  end.

(** *** Texts that [json.Marshal] writes with the two-character escapes only

    Printable ASCII other than the three characters the encoder writes as
    [\u00XX] for HTML ([<], [>], [&]), and line feed, carriage return and
    tab. *)
Definition plain (c : ascii) : bool :=
  let n := nat_of_ascii c in
  ((32 <=? n) && (n <? 127) && negb (n =? 60) && negb (n =? 62) && negb (n =? 38))
  || (n =? 10) || (n =? 13) || (n =? 9).

(** What a line written for [res] says about each field: a nil field is
    left out ([omitempty]). *)
Definition member_of {A : Type} (v : option A) : member A :=
  match v with
  | Some a => value a
  | None => absent
  end.

Definition object_of (res : Response) : Object :=
  {| o_model := member_of (Model res); o_created_at := member_of (CreatedAt res);
     o_response := member_of (Response_ res); o_done := member_of (Done res) |}.

(** The strings of [res] are plain. *)
Definition plain_text (v : option bytes) : bool :=
  match v with
  | Some t => forallb plain t
  | None => true
  end.

Definition plain_Response (res : Response) : bool :=
  plain_text (Model res) && plain_text (CreatedAt res) && plain_text (Response_ res).

(** A key of [Response]: its characters need no escape. *)
Definition key_ok (name : string) : Prop :=
  forallb plain (str name) = true /\ flat_map escape (str name) = str name.

(** No raw line feed. *)
Definition no_newline (s : bytes) : bool :=
  forallb (fun c => negb (Ascii.eqb c newline)) s.

(** The value [simulateStreamBody] writes a line for. *)
Definition stream_event (model now tok : bytes) (done : bool) : Response :=
  {| Model := Some model; CreatedAt := Some now; Response_ := Some tok;
     Done := Some done |}.

(** The lines of [simulateStreamBody]. *)
Definition stream_events (model now : bytes) (toks : list bytes) : list Response :=
  map (fun tok => stream_event model now tok false) toks
  ++ [stream_event model now [] true].

(** *** Fences *)

(** The first character of [s] is [c]. *)
Definition starts_with (c : ascii) (s : bytes) : bool :=
  match s with
  | x :: _ => Ascii.eqb x c
  | [] => false
  end.

(** A fence as it is written: opening marker, tag, line feed, code, line
    feed, closing marker. *)
Definition fence (opening tag code closing : bytes) : bytes :=
  opening ++ tag ++ [newline] ++ code ++ [newline] ++ closing.

(** A fence with the text before it. *)
Record Fence : Type := mkFence {
  f_before : bytes;
  f_opening : bytes;
  f_tag : bytes;
  f_code : bytes;
  f_closing : bytes
}.

(** No backtick. *)
Definition no_backtick (s : bytes) : bool :=
  forallb (fun c => negb (Ascii.eqb c backtick)) s.

(** The text before the fence holds no backtick; the markers are fence
    markers; the tag is a word that does not start with a backtick; the first
    line feed with two backticks after the tag's line is the closing one. *)
Definition well_formed (f : Fence) : Prop :=
  no_backtick (f_before f) = true /\
  fence_marker (f_opening f) /\ fence_marker (f_closing f) /\
  f_tag f <> [] /\ forallb (accepts c_not_space) (f_tag f) = true /\
  starts_with backtick (f_tag f) = false /\
  sep_free [newline; backtick; backtick] (f_code f).

(** The text of the fence, with what stands before it. *)
Definition written (f : Fence) : bytes :=
  f_before f ++ fence (f_opening f) (f_tag f) (f_code f) (f_closing f).

(** Every fence but the first has some text before it. *)
Fixpoint separated (fs : list Fence) : Prop :=
  match fs with
  | _ :: ((g :: _) as rest) => f_before g <> [] /\ separated rest
  | _ => True
  end.

(** Fences one after the other, then a last text. *)
Definition document (fs : list Fence) (tail : bytes) : bytes :=
  flat_map written fs ++ tail.

(** The block [ParseCodeBlock] gives for a fence: the code starts with the
    line feed after the tag and ends before the one of the closing line. *)
Definition block (f : Fence) : CodeBlock :=
  {| Type_ := f_tag f; Code := newline :: f_code f |}.

(** *** Bodies that break

    A body that delivers the given chunks and then fails: its final read
    returns the bytes [last] together with the error [e]. *)
Fixpoint broken (chunks : list bytes) (last : bytes) (e : error) : Reader :=
  match chunks with
  | [] => Ends last e
  | c :: rest => Chunk c (broken rest last e)
  end.

(** A scanner between two calls of [Scan] on such a body, before the
    failing read. *)
Definition breaking (e : error) (sep w : bytes) (chunks : list bytes) (last : bytes)
           (tok : option bytes) : Scanner :=
  {| r := broken chunks last e; split := SplitAt sep; token := tok; window := w;
     err := None; empties := 0; done := false |}.

(** ** Proof tactics *)

(** Unfolds the record updates of the scanner and reads their fields. *)
Ltac fields :=
  unfold with_token, after_read, feeding, at_end;
  cbn [err is_nil r window split token empties done skipn reader_of].

(** Checks that a given text fits the buffer, token by token. *)
Ltac fits_check :=
  repeat (eapply fits_token;
          [vm_compute; reflexivity | vm_compute; discriminate | vm_compute]);
  apply fits_tail; vm_compute; reflexivity.

Unset Implicit Arguments.

(** * The repository's tests on the model

    The assertions of [file.go] (scanner tests), [parse_test.go] and
    [client_test.go], evaluated on the embedding. *)

Example TestSplitScanner_NewlineDelimited :
  tokens [newline] [lines ["line1"; "line2"; "line3"]] []
  = Some ([str "line1"; str "line2"; str "line3"], None).
Proof. vm_compute. reflexivity. Qed.

Example TestSplitScanner_CustomDelimiter :
  tokens (str "||") [str "a||b||c"] [] = Some ([str "a"; str "b"; str "c"], None).
Proof. vm_compute. reflexivity. Qed.

Example TestSplitScanner_EmptyInput :
  tokens [newline] [] [] = Some ([], None).
Proof. vm_compute. reflexivity. Qed.

Example TestParseCodeBlock_SingleBlock :
  ParseCodeBlock
    (lines ["Some text"; "```go"] ++
     str "fmt.Println(" ++ quoted "hello" ++ str ")" ++ [newline] ++
     lines ["```"] ++ str "More text")
  = [ {| Type_ := str "go";
         Code := newline :: str "fmt.Println(" ++ quoted "hello" ++ str ")" |} ].
Proof. vm_compute. reflexivity. Qed.

Example TestParseCodeBlock_MultipleBlocks :
  map Type_ (ParseCodeBlock two_fences) = [str "python"; str "bash"].
Proof. vm_compute. reflexivity. Qed.

Example TestParseCodeBlock_NoBlocks :
  ParseCodeBlock (str "Just plain text with no code") = [].
Proof. vm_compute. reflexivity. Qed.

Example TestQueryStream_TokenByToken :
  let run := Query json_line (in_one_read five_events)
               {| OnJson := Some collect; OnCodeBlock := None |} [] in
  outcome run = Returns None /\
  length (state run) = 5 /\
  concat (state run) = str "Hello, world!".
Proof. vm_compute. auto. Qed.

Example TestQueryStream_OnJsonDoneFlag :
  let run := Query json_line
               (in_one_read (simulateStreamBody created [str "a"; str "b"] (str "m")))
               {| OnJson := Some collect_done; OnCodeBlock := None |} [] in
  outcome run = Returns None /\ state run = [false; false; true].
Proof. vm_compute. auto. Qed.

Example TestQueryStream_CodeBlockExtraction :
  let run := Query json_line
               (in_one_read (simulateStreamBody created program (str "m")))
               with_OnCodeBlock [] in
  outcome run = Returns None /\
  state run = [ {| Type_ := str "go"; Code := program_code |} ].
Proof. vm_compute. auto. Qed.

Example TestQueryStream_OnCodeBlockError :
  outcome
    (Query json_line
       (in_one_read (simulateStreamBody created
          [lines ["```go"; "fmt.Println()"; "```"]] (str "m")))
       {| OnJson := None; OnCodeBlock := Some block_error |} tt)
  = Returns (Some (wrapError "failed to process ollama response code block: block error"
                     (errorString "block error"))).
Proof. vm_compute. reflexivity. Qed.

(** The fence that arrives in three fragments: one batch, handed over when
    the third event closes the fence and not before. *)
Example three_fragments_one_batch :
  trace run_three_fragments
  = [ EvScan true; EvScan true; EvScan true;
      EvOnCodeBlock [ {| Type_ := str "go"; Code := newline :: println_hi |} ] None;
      EvScan true; EvScan false ].
Proof. vm_compute. reflexivity. Qed.

(** * Proofs *)

(** ** The engine returns matches of the pattern *)

Section BacktrackSound.
Variable R : Type.

Lemma plus_greedy_sound (c : cclass) (s : bytes) (k : bytes -> option R) (res : R) :
  plus_greedy c s k = Some res ->
  exists s1 s2, s = s1 ++ s2 /\ s1 <> [] /\ forallb (accepts c) s1 = true /\ k s2 = Some res.
Proof.
  induction s as [|x s IH]; simpl; [discriminate|].
  destruct (accepts c x) eqn:Hx; [|discriminate].
  destruct (plus_greedy c s k) as [res'|] eqn:Hmore; intros H.
  - injection H as ->.
    destruct (IH eq_refl) as (s1 & s2 & -> & _ & Hall & Hk).
    exists (x :: s1), s2; simpl; rewrite Hx, Hall. repeat split; congruence.
  - exists [x], s; simpl; rewrite Hx. repeat split; congruence.
Qed.

Lemma plus_lazy_sound (c : cclass) (s : bytes) (k : bytes -> option R) (res : R) :
  plus_lazy c s k = Some res ->
  exists s1 s2, s = s1 ++ s2 /\ s1 <> [] /\ forallb (accepts c) s1 = true /\ k s2 = Some res.
Proof.
  induction s as [|x s IH]; simpl; [discriminate|].
  destruct (accepts c x) eqn:Hx; [|discriminate].
  destruct (k s) as [res'|] eqn:Hk; intros H.
  - injection H as ->.
    exists [x], s; simpl; rewrite Hx. repeat split; congruence.
  - destruct (IH H) as (s1 & s2 & -> & _ & Hall & Hk').
    exists (x :: s1), s2; simpl; rewrite Hx, Hall. repeat split; congruence.
Qed.

Lemma firstn_consumed (s1 s2 : bytes) :
  firstn (length (s1 ++ s2) - length s2) (s1 ++ s2) = s1.
Proof.
  rewrite length_app, Nat.add_sub.
  rewrite firstn_app, Nat.sub_diag, firstn_all. simpl. apply app_nil_r.
Qed.

Lemma backtrack_sound (re : regex) :
  forall (s : bytes) (cap : captures) (k : bytes -> captures -> option R) (res : R),
    backtrack re s cap k = Some res ->
    exists s1 s2 cap',
      s = s1 ++ s2 /\ derives re s1 cap cap' /\ k s2 cap' = Some res.
Proof.
  induction re as [c|c greedy|r1 IH1 r2 IH2|n re IH]; intros s cap k res H; simpl in H.
  - destruct s as [|x s]; [discriminate|].
    destruct (accepts c x) eqn:Hx; [|discriminate].
    exists [x], s, cap. repeat split; auto. now constructor.
  - destruct greedy.
    + apply plus_greedy_sound in H. destruct H as (s1 & s2 & -> & Hne & Hall & Hk).
      exists s1, s2, cap. repeat split; auto. now constructor.
    + apply plus_lazy_sound in H. destruct H as (s1 & s2 & -> & Hne & Hall & Hk).
      exists s1, s2, cap. repeat split; auto. now constructor.
  - apply IH1 in H. destruct H as (s1 & s2 & cap1 & -> & D1 & H).
    apply IH2 in H. destruct H as (s3 & s4 & cap2 & -> & D2 & H).
    exists (s1 ++ s3), s4, cap2. rewrite app_assoc. repeat split; auto.
    econstructor; eauto.
  - apply IH in H. destruct H as (s1 & s2 & cap1 & -> & D & H).
    rewrite firstn_consumed in H.
    exists s1, s2, ((n, s1) :: cap1). repeat split; auto. now constructor.
Qed.
End BacktrackSound.

Lemma match_here_sound (re : regex) (s whole : bytes) (cap : captures) :
  match_here re s = Some (whole, cap) ->
  exists rest, s = whole ++ rest /\ derives re whole [] cap.
Proof.
  unfold match_here. intros H.
  apply backtrack_sound in H. destruct H as (s1 & s2 & cap' & -> & D & H).
  rewrite firstn_consumed in H. injection H as <- <-. eauto.
Qed.

Lemma doExecute_sound (re : regex) (s : bytes) :
  forall skipped whole cap,
    doExecute re s = Some (skipped, whole, cap) ->
    exists rest,
      skipn skipped s = whole ++ rest /\ skipped + length whole <= length s /\
      derives re whole [] cap.
Proof.
  induction s as [|x s IH]; intros skipped whole cap; simpl.
  - destruct (match_here re []) as [[w c]|] eqn:Hm; [|discriminate].
    intros H; injection H as <- <- <-.
    apply match_here_sound in Hm. destruct Hm as (rest & Hs & D).
    exists rest. symmetry in Hs. apply app_eq_nil in Hs. destruct Hs as [-> ->].
    simpl. repeat split; auto.
  - destruct (match_here re (x :: s)) as [[w c]|] eqn:Hm.
    + intros H; injection H as <- <- <-.
      apply match_here_sound in Hm. destruct Hm as (rest & Hs & D).
      exists rest. rewrite skipn_O. split; [exact Hs|]. split; [|exact D].
      apply (f_equal (@length ascii)) in Hs. rewrite length_app in Hs.
      simpl in *. lia.
    + destruct (doExecute re s) as [[[k w] c]|] eqn:Hd; [|discriminate].
      intros H; injection H as <- <- <-.
      destruct (IH _ _ _ eq_refl) as (rest & Hs & Hl & D).
      exists rest. simpl. repeat split; auto. lia.
Qed.

(** ** Every match of [allMatches] is a match of the pattern, in order *)

Lemma allMatches_sound (re : regex) (Hne : never_empty re) :
  forall turns s pos prev,
    Forall (match_at re s pos) (allMatches turns re s pos prev) /\
    in_order pos (allMatches turns re s pos prev).
Proof.
  induction turns as [|turns IH]; intros s pos prev; simpl; [split; [constructor|exact I]|].
  destruct (doExecute re s) as [[[skipped whole] cap]|] eqn:Hd; [|split; [constructor|exact I]].
  destruct (doExecute_sound re s _ _ _ Hd) as (rest & Hs & Hl & D).
  assert (Hw : length whole <> 0).
  { intros H0. apply length_zero_iff_nil in H0. exact (Hne _ _ D H0). }
  destruct (Nat.eqb_spec (pos + skipped + length whole) pos) as [Heq|_]; [lia|].
  destruct (IH (skipn (skipped + length whole) s) (pos + skipped + length whole)
              (Some (pos + skipped + length whole))) as [IHs IHo].
  split.
  - constructor.
    + exists skipped, whole, cap, rest. repeat split; auto; lia.
    + eapply Forall_impl; [|exact IHs].
      intros m (skipped' & whole' & cap' & rest' & Hs' & Hl' & D' & ->).
      rewrite skipn_skipn in Hs'. rewrite length_skipn in Hl'.
      exists (skipped' + (skipped + length whole)), whole', cap', rest'.
      repeat split; auto; [lia|]. f_equal; lia.
  - simpl. repeat split; auto; lia.
Qed.

Lemma match_at_located (re : regex) (s : bytes) (m : Match) :
  match_at re s 0 m -> located s m.
Proof.
  intros (skipped & whole & cap & rest & Hs & Hl & _ & ->). unfold located; simpl.
  split; [lia|].
  replace (skipped + length whole - skipped) with (length whole) by lia.
  rewrite Hs, firstn_app, Nat.sub_diag, firstn_all. simpl. now rewrite app_nil_r.
Qed.

(** ** What [CodeBlockRegExp] matches *)

Lemma derives_plus_inv c greedy s cap cap' :
  derives (r_plus c greedy) s cap cap' ->
  cap' = cap /\ s <> [] /\ forallb (accepts c) s = true.
Proof. intros H; inversion H; subst; auto. Qed.

Lemma derives_char_inv c s cap cap' :
  derives (r_char c) s cap cap' ->
  cap' = cap /\ exists x, s = [x] /\ accepts c x = true.
Proof. intros H; inversion H; subst; eauto. Qed.

Lemma derives_cat_inv r1 r2 s cap cap' :
  derives (r_cat r1 r2) s cap cap' ->
  exists s1 s2 cap1, s = s1 ++ s2 /\ derives r1 s1 cap cap1 /\ derives r2 s2 cap1 cap'.
Proof. intros H; inversion H; subst; eauto 6. Qed.

Lemma derives_group_inv n re s cap cap' :
  derives (r_group n re) s cap cap' ->
  exists cap1, cap' = (n, s) :: cap1 /\ derives re s cap cap1.
Proof. intros H; inversion H; subst; eauto. Qed.

Lemma all_backticks (s : bytes) :
  forallb (accepts (c_lit backtick)) s = true -> Forall (fun c => c = backtick) s.
Proof.
  rewrite forallb_forall, Forall_forall. intros H x Hx.
  apply H in Hx. simpl in Hx. now apply Ascii.eqb_eq.
Qed.

Lemma lit_inv (y x : ascii) : accepts (c_lit y) x = true -> x = y.
Proof. simpl. apply Ascii.eqb_eq. Qed.

Lemma CodeBlockRegExp_inv (whole : bytes) (cap : captures) :
  derives CodeBlockRegExp whole [] cap ->
  exists ticks1 tag code ticks2,
    whole = (backtick :: ticks1) ++ tag ++ code ++ [newline] ++ (backtick :: ticks2) /\
    cap = [(2, code); (1, tag)] /\
    ticks1 <> [] /\ Forall (fun c => c = backtick) ticks1 /\
    tag <> [] /\ forallb (fun c => negb (is_space c)) tag = true /\
    code <> [] /\
    ticks2 <> [] /\ Forall (fun c => c = backtick) ticks2.
Proof.
  unfold CodeBlockRegExp. intros H.
  apply derives_cat_inv in H. destruct H as (a & s & c1 & -> & Ha & H).
  apply derives_char_inv in Ha. destruct Ha as (-> & x & -> & Hx%lit_inv). subst x.
  apply derives_cat_inv in H. destruct H as (ticks1 & s1 & c1 & -> & Ht1 & H).
  apply derives_plus_inv in Ht1. destruct Ht1 as (-> & Hne1 & Hall1%all_backticks).
  apply derives_cat_inv in H. destruct H as (tag & s2 & c2 & -> & Hg1 & H).
  apply derives_group_inv in Hg1. destruct Hg1 as (c2' & -> & Hg1).
  apply derives_plus_inv in Hg1. destruct Hg1 as (-> & Hnet & Hallt).
  apply derives_cat_inv in H. destruct H as (code & s3 & c3 & -> & Hg2 & H).
  apply derives_group_inv in Hg2. destruct Hg2 as (c3' & -> & Hg2).
  apply derives_plus_inv in Hg2. destruct Hg2 as (-> & Hnec & _).
  apply derives_cat_inv in H. destruct H as (n & s4 & c4 & -> & Hn & H).
  apply derives_char_inv in Hn. destruct Hn as (-> & x & -> & Hx%lit_inv). subst x.
  apply derives_cat_inv in H. destruct H as (b & ticks2 & c5 & -> & Hb & H).
  apply derives_char_inv in Hb. destruct Hb as (-> & x & -> & Hx%lit_inv). subst x.
  apply derives_plus_inv in H. destruct H as (-> & Hne2 & Hall2%all_backticks).
  exists ticks1, tag, code, ticks2. simpl. repeat split; auto.
Qed.

Lemma CodeBlockRegExp_never_empty : never_empty CodeBlockRegExp.
Proof.
  intros whole cap H. apply CodeBlockRegExp_inv in H.
  destruct H as (t1 & tag & code & t2 & -> & _). discriminate.
Qed.

(** ** [ParseCodeBlock] is [block_of] over the matches *)

Lemma fold_blocks (ms : list (list bytes)) :
  Forall (fun sub => length sub = 3) ms ->
  forall acc,
    fold_left
      (fun blocks match_ =>
         if 2 <? length match_ then
           blocks ++ [ {| Type_ := nth 1 match_ []; Code := nth 2 match_ [] |} ]
         else blocks) ms acc
    = acc ++ map (fun sub => {| Type_ := nth 1 sub []; Code := nth 2 sub [] |}) ms.
Proof.
  induction 1 as [|sub ms Hsub _ IH]; intros acc; cbn [fold_left map];
    [now rewrite app_nil_r|].
  unfold bytes in *. rewrite Hsub. change (2 <? 3) with true. cbv iota.
  rewrite IH, <- app_assoc. reflexivity.
Qed.

Lemma FindAll_matches (text : bytes) :
  Forall (match_at CodeBlockRegExp text 0) (FindAll CodeBlockRegExp text) /\
  in_order 0 (FindAll CodeBlockRegExp text).
Proof. apply allMatches_sound, CodeBlockRegExp_never_empty. Qed.

Lemma ParseCodeBlock_map (text : bytes) :
  ParseCodeBlock text = map block_of (FindAll CodeBlockRegExp text).
Proof.
  unfold ParseCodeBlock, FindAllStringSubmatch. rewrite fold_blocks.
  - simpl. now rewrite map_map.
  - rewrite Forall_map. eapply Forall_impl; [|apply FindAll_matches].
    intros m (skipped & whole & cap & rest & _ & _ & _ & ->). reflexivity.
Qed.

Lemma match_at_closed_fence (text : bytes) (m : Match) :
  match_at CodeBlockRegExp text 0 m ->
  closed_fence text (block_of m) /\
  Type_ (block_of m) <> [] /\
  forallb (fun c => negb (is_space c)) (Type_ (block_of m)) = true /\
  Code (block_of m) <> [].
Proof.
  intros (skipped & whole & cap & rest & Hs & _ & D & ->).
  apply CodeBlockRegExp_inv in D.
  destruct D as (t1 & tag & code & t2 & -> & -> & Hn1 & Ha1 & Hnt & Hat & Hnc & Hn2 & Ha2).
  unfold block_of, submatches; simpl. repeat split; auto.
  exists (firstn skipped text), (backtick :: t1), (backtick :: t2), rest. simpl.
  repeat split.
  - rewrite <- (firstn_skipn skipped text) at 1. rewrite Hs.
    simpl. rewrite <- !app_assoc. reflexivity.
  - simpl. destruct t1; [contradiction|simpl; lia].
  - constructor; auto.
  - simpl. destruct t2; [contradiction|simpl; lia].
  - constructor; auto.
Qed.

(** ** [bytes.Index] *)

Lemma HasPrefix_length (s sep : bytes) :
  HasPrefix s sep = true -> length sep <= length s.
Proof.
  revert s; induction sep as [|p sep IH]; intros [|c s]; simpl; try lia; try discriminate.
  intros H. apply andb_prop in H. destruct H as [_ H]. apply IH in H. lia.
Qed.

Lemma HasPrefix_app (s sep t : bytes) :
  length sep <= length s -> HasPrefix (s ++ t) sep = HasPrefix s sep.
Proof.
  revert s; induction sep as [|p sep IH]; intros [|c s]; simpl; auto; try lia.
  intros H. rewrite IH by lia. reflexivity.
Qed.

Lemma index_of_bound (sep s : bytes) :
  forall i, index_of s sep = Some i -> i + length sep <= length s.
Proof.
  induction s as [|c s IH]; intros i; simpl.
  - destruct (HasPrefix [] sep) eqn:Hp; [|discriminate].
    intros H; injection H as <-. apply HasPrefix_length in Hp. simpl in *. lia.
  - destruct (HasPrefix (c :: s) sep) eqn:Hp.
    + intros H; injection H as <-. apply HasPrefix_length in Hp. simpl in *. lia.
    + destruct (index_of s sep) as [j|]; [|discriminate].
      simpl. intros H; injection H as <-. specialize (IH _ eq_refl). lia.
Qed.

(** A separator found in the window stays the first one when more bytes
    arrive. *)
Lemma index_of_app (sep s t : bytes) :
  forall i, index_of s sep = Some i -> index_of (s ++ t) sep = Some i.
Proof.
  induction s as [|c s IH]; intros i H.
  - pose proof (index_of_bound _ _ _ H) as Hb. simpl in Hb.
    assert (sep = []) by (destruct sep; simpl in *; [auto|lia]). subst sep.
    simpl in H. injection H as <-. destruct t; reflexivity.
  - simpl in H. simpl.
    destruct (HasPrefix (c :: s) sep) eqn:Hp.
    + injection H as <-.
      change (c :: s ++ t) with ((c :: s) ++ t).
      rewrite HasPrefix_app, Hp; [reflexivity|]. now apply HasPrefix_length.
    + destruct (index_of s sep) as [j|] eqn:Hj; [|discriminate].
      simpl in H. injection H as <-.
      pose proof (index_of_bound _ _ _ Hj) as Hb.
      change (c :: s ++ t) with ((c :: s) ++ t).
      rewrite HasPrefix_app, Hp by (simpl; lia).
      now rewrite (IH _ eq_refl).
Qed.

(** ** More on [bytes.Index] *)

Lemma HasPrefix_app_self (sep rest : bytes) : HasPrefix (sep ++ rest) sep = true.
Proof.
  induction sep as [|p sep IH]; simpl; [reflexivity|].
  now rewrite Ascii.eqb_refl, IH.
Qed.

Lemma HasPrefix_split (sep s : bytes) :
  HasPrefix s sep = true -> s = sep ++ skipn (length sep) s.
Proof.
  revert s. induction sep as [|p sep IH]; intros s H; simpl in *; [reflexivity|].
  destruct s as [|c s]; [discriminate|].
  apply andb_prop in H. destruct H as [Hc H].
  apply Ascii.eqb_eq in Hc. subst c. simpl. f_equal. now apply IH.
Qed.

(** The index splits the text around the separator. *)
Lemma index_of_split (sep s : bytes) :
  forall i, index_of s sep = Some i ->
            s = firstn i s ++ sep ++ skipn (i + length sep) s.
Proof.
  induction s as [|c s IH]; intros i H; simpl in H.
  - destruct (HasPrefix [] sep) eqn:Hp; [|discriminate].
    injection H as <-. simpl. now apply HasPrefix_split.
  - destruct (HasPrefix (c :: s) sep) eqn:Hp.
    + injection H as <-. simpl firstn. simpl app at 1.
      now apply HasPrefix_split.
    + destruct (index_of s sep) as [j|] eqn:Hj; [|discriminate].
      simpl in H. injection H as <-. simpl. f_equal. now apply IH.
Qed.

(** A text that holds the separator has an index. *)
Lemma index_of_occurs (sep a b : bytes) : index_of (a ++ sep ++ b) sep <> None.
Proof.
  induction a as [|c a IH]; simpl.
  - destruct (sep ++ b) eqn:E; simpl.
    + destruct sep; [simpl; discriminate|discriminate E].
    + rewrite <- E, HasPrefix_app_self. discriminate.
  - destruct (HasPrefix (c :: a ++ sep ++ b) sep); [discriminate|].
    destruct (index_of (a ++ sep ++ b) sep); [discriminate|contradiction].
Qed.

(** What comes before the index does not hold the separator. *)
Lemma index_of_first (sep s : bytes) (i : nat) :
  sep <> [] -> index_of s sep = Some i -> index_of (firstn i s) sep = None.
Proof.
  intros Hsep Hi.
  destruct (index_of (firstn i s) sep) as [j|] eqn:Hj; [|reflexivity].
  exfalso.
  pose proof (index_of_bound _ _ _ Hj) as Hb.
  pose proof (index_of_app sep (firstn i s) (skipn i s) j Hj) as Hj'.
  rewrite firstn_skipn, Hi in Hj'. injection Hj' as ->.
  rewrite length_firstn in Hb. destruct sep; [contradiction|]. simpl in Hb. lia.
Qed.

Lemma index_of_empty (sep : bytes) : sep <> [] -> index_of [] sep = None.
Proof. destruct sep; [contradiction|reflexivity]. Qed.

(** A text without separator has none in its prefixes. *)
Lemma index_of_prefix_none (sep a b : bytes) :
  index_of (a ++ b) sep = None -> index_of a sep = None.
Proof.
  intros H. destruct (index_of a sep) as [i|] eqn:Hi; [|reflexivity].
  rewrite (index_of_app sep a b i Hi) in H. discriminate.
Qed.

(** ** [SplitAt] on a window *)

Lemma SplitAt_found (sep data : bytes) (atEOF : bool) (i : nat) :
  sep <> [] ->
  index_of data sep = Some i ->
  SplitAt sep data atEOF =
    (Z.of_nat (i + length sep), Some (firstn i data), None).
Proof.
  intros Hsep Hi. unfold SplitAt, Index, len. rewrite Hi.
  pose proof (index_of_bound _ _ _ Hi) as Hb.
  assert (Hd : (Z.of_nat (length data) =? 0)%Z = false).
  { apply Z.eqb_neq. destruct sep; [contradiction|]. simpl in Hb. lia. }
  rewrite Hd, andb_false_r.
  assert (Hge : (Z.of_nat i >=? 0)%Z = true) by (apply Z.geb_le; lia).
  rewrite Hge, Nat2Z.id, Nat2Z.inj_add. reflexivity.
Qed.

Lemma SplitAt_more (sep data : bytes) :
  index_of data sep = None ->
  SplitAt sep data false = (0%Z, None, None).
Proof.
  intros Hi. unfold SplitAt, Index. rewrite Hi. reflexivity.
Qed.

Lemma SplitAt_final (sep data : bytes) :
  index_of data sep = None ->
  SplitAt sep data true =
    if nonempty data then (len data, Some data, None) else (0%Z, None, None).
Proof.
  intros Hi. unfold SplitAt, Index. rewrite Hi.
  destruct data; reflexivity.
Qed.

(** ** One call of [Scan] on a split scanner *)

Lemma scan_split_found (sep : bytes) (s : Scanner) (i : nat) :
  sep <> [] -> splits_at sep s ->
  index_of (window s) sep = Some i ->
  scan_split s =
    inl (Scanned true (with_token (Some (firstn i (window s))) (i + length sep) 0 s)).
Proof.
  intros Hsep [Hsp _] Hi. unfold scan_split.
  pose proof (index_of_bound _ _ _ Hi) as Hb.
  assert (Hw : nonempty (window s) = true).
  { destruct (window s); [|reflexivity]. destruct sep; [contradiction|simpl in Hb; lia]. }
  rewrite Hw, Hsp. simpl orb. rewrite (SplitAt_found sep _ _ i Hsep Hi).
  assert (H1 : (Z.of_nat (i + length sep) <? 0)%Z = false) by (apply Z.ltb_ge; lia).
  assert (H2 : (Z.of_nat (i + length sep) >? len (window s))%Z = false).
  { unfold len. rewrite Z.gtb_ltb. apply Z.ltb_ge. lia. }
  assert (H3 : (Z.of_nat (i + length sep) >? 0)%Z = true).
  { rewrite Z.gtb_ltb. apply Z.ltb_lt. destruct sep; [contradiction|simpl; lia]. }
  rewrite H1, H2, H3, orb_true_r, Nat2Z.id. reflexivity.
Qed.

Lemma scan_split_more (sep : bytes) (s : Scanner) :
  splits_at sep s -> err s = None ->
  index_of (window s) sep = None ->
  scan_split s =
    inr (if nonempty (window s) then with_token None 0 (empties s) s else s).
Proof.
  intros [Hsp _] He Hi. unfold scan_split. rewrite He, Hsp. simpl.
  rewrite orb_false_r.
  destruct (nonempty (window s)); [|reflexivity].
  rewrite (SplitAt_more _ _ Hi).
  assert (H2 : (0 >? len (window s))%Z = false).
  { rewrite Z.gtb_ltb. apply Z.ltb_ge. unfold len. lia. }
  cbv beta iota. rewrite H2. reflexivity.
Qed.

Lemma scan_split_final (sep : bytes) (s : Scanner) (e : error) :
  splits_at sep s -> err s = Some e ->
  index_of (window s) sep = None ->
  scan_split s =
    if nonempty (window s) then
      inl (Scanned true (with_token (Some (window s)) (length (window s)) 0 s))
    else inr (with_token None 0 (empties s) s).
Proof.
  intros [Hsp _] He Hi. unfold scan_split. rewrite He, Hsp. simpl.
  rewrite orb_true_r, (SplitAt_final _ _ Hi).
  destruct (window s) as [|c w] eqn:Hw; [reflexivity|].
  cbn [nonempty]. cbv beta iota.
  assert (H1 : (len (c :: w) <? 0)%Z = false) by (apply Z.ltb_ge; unfold len; lia).
  assert (H2 : (len (c :: w) >? len (c :: w))%Z = false).
  { rewrite Z.gtb_ltb. apply Z.ltb_ge. lia. }
  assert (H3 : (len (c :: w) >? 0)%Z = true).
  { rewrite Z.gtb_ltb. apply Z.ltb_lt. unfold len. simpl length. lia. }
  rewrite H1, H2, H3. unfold len at 1. rewrite Nat2Z.id. reflexivity.
Qed.

Lemma scan_ok_le (sep : bytes) (b1 b2 : nat) (res : ScanResult) :
  b1 <= b2 -> scan_ok sep b1 res -> scan_ok sep b2 res.
Proof. destruct res as [[|] s'|]; simpl; auto. intros ? [? ?]; split; auto; lia. Qed.

Lemma scan_split_spec (sep : bytes) (s : Scanner) :
  sep <> [] -> splits_at sep s ->
  match scan_split s with
  | inl res => scan_ok sep (Scanner_size s) res
  | inr s' =>
      index_of (window s) sep = None /\
      window s' = window s /\ err s' = err s /\ r s' = r s /\
      split s' = split s /\ done s' = done s /\ empties s' = empties s
  end.
Proof.
  intros Hsep Hs. destruct (index_of (window s) sep) as [i|] eqn:Hi.
  - rewrite (scan_split_found sep s i Hsep Hs Hi). simpl.
    pose proof (index_of_bound _ _ _ Hi) as Hb. destruct Hs as [Hsp Hd].
    split; [split; assumption|]. unfold Scanner_size; simpl.
    rewrite length_skipn. destruct sep; [contradiction|]. simpl in *. lia.
  - destruct (err s) as [e|] eqn:He.
    + rewrite (scan_split_final sep s e Hs He Hi).
      destruct (window s) as [|c w] eqn:Hw; simpl.
      * rewrite Hw. repeat split; auto.
      * destruct Hs as [Hsp Hd]. split; [split; assumption|].
        unfold Scanner_size; simpl. rewrite Hw, He. simpl.
        rewrite length_skipn. simpl. lia.
    + rewrite (scan_split_more sep s Hs He Hi).
      destruct (nonempty (window s)); simpl; repeat split; auto.
Qed.

Lemma scan_last_ok (sep : bytes) (s : Scanner) :
  sep <> [] -> splits_at sep s -> scan_ok sep (Scanner_size s) (scan_last s).
Proof.
  intros Hsep Hs. unfold scan_last.
  pose proof (scan_split_spec sep s Hsep Hs) as H.
  destruct (scan_split s) as [res|s']; [exact H|exact I].
Qed.

Lemma setErr_fresh (e : error) (s : Scanner) :
  err s = None ->
  setErr e s =
    {| r := r s; split := split s; token := token s; window := window s;
       err := Some e; empties := empties s; done := done s |}.
Proof. intros He. unfold setErr. now rewrite He. Qed.

Lemma scan_read_ok (sep : bytes) (Hsep : sep <> []) (rd : Reader) :
  forall loop s,
    splits_at sep s -> err s = None ->
    scan_ok sep (length (window s) + Reader_size rd) (scan_read rd loop s).
Proof.
  induction rd as [b rest IH|b e]; intros loop s Hs He; simpl.
  - destruct (nonempty b) eqn:Hb.
    + pose proof (scan_split_spec sep (after_read b rest 0 s) Hsep Hs) as H.
      destruct (scan_split (after_read b rest 0 s)) as [res|s'].
      * eapply scan_ok_le; [|exact H]. unfold Scanner_size; simpl.
        rewrite He, length_app. lia.
      * simpl in H. destruct H as (_ & Hw & He' & _ & Hsp & Hd & _).
        rewrite He', He. simpl.
        destruct (buffer_full s'); [exact I|].
        eapply scan_ok_le; [|apply IH].
        -- rewrite Hw, length_app. lia.
        -- destruct Hs. split; congruence.
        -- congruence.
    + destruct (maxConsecutiveEmptyReads <? S loop).
      * eapply scan_ok_le; [|apply scan_last_ok; auto].
        -- rewrite setErr_fresh by exact He. unfold Scanner_size; simpl.
           rewrite length_app. lia.
        -- rewrite setErr_fresh by exact He. exact Hs.
      * eapply scan_ok_le; [|apply IH]; simpl; auto.
        rewrite length_app. lia.
  - eapply scan_ok_le; [|apply scan_last_ok; auto].
    + rewrite setErr_fresh by exact He. unfold Scanner_size; simpl.
      rewrite length_app. lia.
    + rewrite setErr_fresh by exact He. exact Hs.
Qed.

Lemma Scan_ok (sep : bytes) (s : Scanner) :
  sep <> [] -> splits_at sep s -> scan_ok sep (Scanner_size s) (Scan s).
Proof.
  intros Hsep Hs. unfold Scan. destruct Hs as [Hsp Hd]. rewrite Hd.
  pose proof (scan_split_spec sep s Hsep (conj Hsp Hd)) as H.
  destruct (scan_split s) as [res|s']; [exact H|].
  destruct H as (_ & Hw & He & Hr & Hsp' & Hd' & _).
  destruct (err s') eqn:He'; simpl; [exact I|].
  destruct (buffer_full s'); [exact I|].
  eapply scan_ok_le; [|apply scan_read_ok; auto].
  - unfold Scanner_size. rewrite <- He, Hw, Hr. lia.
  - split; congruence.
Qed.

(** ** The scanner once the end of the body is met *)

Lemma Scan_at_end (sep w : bytes) (tok : option bytes) :
  sep <> [] ->
  Scan (at_end sep w tok) =
    match index_of w sep with
    | Some i =>
        Scanned true (at_end sep (skipn (i + length sep) w) (Some (firstn i w)))
    | None =>
        if nonempty w then Scanned true (at_end sep [] (Some w))
        else Scanned false (shut_down (with_token None 0 0 (at_end sep w tok)))
    end.
Proof.
  intros Hsep. unfold Scan. cbn [done at_end].
  destruct (index_of w sep) as [i|] eqn:Hi.
  - rewrite (scan_split_found sep (at_end sep w tok) i) by (try split; auto).
    reflexivity.
  - rewrite (scan_split_final sep (at_end sep w tok) EOF) by (try split; auto).
    cbn [window at_end]. destruct (nonempty w) eqn:Hw; [|reflexivity].
    unfold with_token, at_end; simpl. now rewrite skipn_all.
Qed.

(** ** Draining a scanner *)

Lemma scan_all_total (sep : bytes) (Hsep : sep <> []) :
  forall fuel s,
    splits_at sep s -> Scanner_size s < fuel ->
    exists toks e, scan_all fuel s = Some (toks, e).
Proof.
  induction fuel as [|fuel IH]; intros s Hs Hlt; [lia|]. simpl.
  pose proof (Scan_ok sep s Hsep Hs) as H.
  destruct (Scan s) as [[|] s'|]; simpl in H; [|eauto|contradiction].
  destruct H as [Hs' Hlt'].
  destruct (IH s' Hs') as (toks & e & ->); [lia|]. eauto.
Qed.

Lemma scan_all_more_fuel :
  forall fuel s res,
    scan_all fuel s = Some res ->
    forall fuel', fuel <= fuel' -> scan_all fuel' s = Some res.
Proof.
  induction fuel as [|fuel IH]; intros s res H fuel' Hle; [discriminate|].
  destruct fuel' as [|fuel']; [lia|]. simpl in *.
  destruct (Scan s) as [[|] s'|]; auto.
  destruct (scan_all fuel s') as [[toks e]|] eqn:Ha; [|discriminate].
  rewrite (IH _ _ Ha fuel') by lia. exact H.
Qed.

(** ** Bodies that fit the buffer *)

(** A separator that lies within a prefix is found in the prefix. *)
Lemma index_of_within (sep p q : bytes) :
  forall i, index_of (p ++ q) sep = Some i -> i + length sep <= length p ->
            index_of p sep = Some i.
Proof.
  induction p as [|c p IH]; intros i H Hle.
  - simpl in Hle. assert (sep = []) by (destruct sep; simpl in *; [auto|lia]). subst sep.
    replace i with 0 by lia. reflexivity.
  - simpl in H. simpl.
    change (c :: p ++ q) with ((c :: p) ++ q) in H.
    destruct (HasPrefix ((c :: p) ++ q) sep) eqn:Hp.
    + injection H as <-. rewrite HasPrefix_app in Hp by (simpl in *; lia).
      now rewrite Hp.
    + destruct (index_of (p ++ q) sep) as [j|] eqn:Hj; [|discriminate].
      simpl in H. injection H as <-. simpl in Hle.
      rewrite HasPrefix_app in Hp by (simpl; lia). rewrite Hp.
      now rewrite (IH j eq_refl) by lia.
Qed.

Lemma fits_skip (sep body : bytes) (i : nat) :
  fits sep body -> index_of body sep = Some i ->
  fits sep (skipn (i + length sep) body).
Proof.
  intros [b Hn _|b j Hj _ Hf] Hi; [congruence|].
  rewrite Hj in Hi. injection Hi as <-. exact Hf.
Qed.

Lemma fits_short (sep body : bytes) :
  fits sep body -> index_of body sep = None -> (len body < MaxScanTokenSize)%Z.
Proof. intros [b _ Hl|b j Hj _ _] Hi; [exact Hl|congruence]. Qed.

(** While the separator has not come, the window is not full. *)
Lemma fits_prefix_short (sep p q : bytes) :
  fits sep (p ++ q) -> index_of p sep = None -> (len p < MaxScanTokenSize)%Z.
Proof.
  intros Hf Hi. inversion Hf as [b _ Hl|b j Hj Hle _]; subst.
  - unfold len in *. rewrite length_app in Hl. lia.
  - destruct (Nat.le_gt_cases (j + length sep) (length p)) as [Hin|Hout].
    + rewrite (index_of_within sep p q j Hj Hin) in Hi. discriminate.
    + unfold len. lia.
Qed.

Lemma buffer_not_full (s : Scanner) :
  (len (window s) < MaxScanTokenSize)%Z -> buffer_full s = false.
Proof. intros H. unfold buffer_full. apply Z.leb_gt. exact H. Qed.

(** ** Chunking does not change the tokens *)

Lemma same_scan_refl (sep : bytes) (res : ScanResult) : same_scan sep res res.
Proof. destruct res as [[|] s|]; simpl; auto. now left. Qed.

Lemma firstn_app_le {A : Type} (n : nat) (l1 l2 : list A) :
  n <= length l1 -> firstn n (l1 ++ l2) = firstn n l1.
Proof.
  intros H. rewrite firstn_app. replace (n - length l1) with 0 by lia.
  simpl. apply app_nil_r.
Qed.

Lemma skipn_app_le {A : Type} (n : nat) (l1 l2 : list A) :
  n <= length l1 -> skipn n (l1 ++ l2) = skipn n l1 ++ l2.
Proof.
  intros H. rewrite skipn_app. replace (n - length l1) with 0 by lia. reflexivity.
Qed.

(** A separator found in the window: the same token with or without the
    bytes still to come. *)
Lemma found_same (sep w : bytes) (chunks : list bytes) (last : bytes)
      (tok1 tok2 : option bytes) (i : nat) :
  Forall (fun c => c <> []) chunks ->
  fits sep (w ++ concat chunks ++ last) ->
  index_of w sep = Some i ->
  same_scan sep
    (Scanned true
       (with_token (Some (firstn i w)) (i + length sep) 0
          (feeding sep w chunks last tok1)))
    (Scanned true
       (with_token (Some (firstn i (w ++ concat chunks ++ last))) (i + length sep) 0
          (feeding sep (w ++ concat chunks ++ last) [] [] tok2))).
Proof.
  intros Hne Hf Hi. pose proof (index_of_bound _ _ _ Hi) as Hb.
  pose proof (fits_skip _ _ _ Hf (index_of_app sep w _ i Hi)) as Hf'.
  rewrite skipn_app_le in Hf' by lia.
  simpl. right. left.
  exists (skipn (i + length sep) w), chunks, last, (Some (firstn i w)).
  split; [exact Hne|]. split; [exact Hf'|]. fields.
  rewrite firstn_app_le, skipn_app_le by lia. split; reflexivity.
Qed.

(** The same when the first scanner has met the end of the body. *)
Lemma found_same_at_end (sep w : bytes) (tok1 tok2 : option bytes) (i : nat) :
  fits sep w ->
  index_of w sep = Some i ->
  same_scan sep
    (Scanned true (with_token (Some (firstn i w)) (i + length sep) 0 (at_end sep w tok1)))
    (Scanned true (with_token (Some (firstn i w)) (i + length sep) 0
                     (feeding sep w [] [] tok2))).
Proof.
  intros Hf Hi.
  simpl. right. right. exists (skipn (i + length sep) w), (Some (firstn i w)).
  split; [now apply fits_skip|]. split; reflexivity.
Qed.

(** The last turn of the loop of [Scan], once the end is met, does not
    depend on the token of the call before. *)
Lemma scan_last_at_end (sep w : bytes) (tok1 tok2 : option bytes) :
  index_of w sep = None ->
  same_scan sep (scan_last (at_end sep w tok1)) (scan_last (at_end sep w tok2)).
Proof.
  intros Hi. unfold scan_last.
  rewrite !(scan_split_final sep _ EOF) by (try split; auto).
  fields. destruct (nonempty w); simpl; [left|]; reflexivity.
Qed.

(** The scanner that has only the end of the body left to read. *)
Lemma Scan_end_left (sep w : bytes) (tok tok' : option bytes) :
  index_of w sep = None ->
  (len w < MaxScanTokenSize)%Z ->
  same_scan sep (scan_last (at_end sep w tok')) (Scan (feeding sep w [] [] tok)).
Proof.
  intros Hi Hl. unfold Scan. cbn [done feeding].
  rewrite (scan_split_more sep (feeding sep w [] [] tok)) by (try split; auto).
  assert (Hread : forall rd tok0,
    scan_read (Ends [] EOF) 0
      {| r := rd; split := SplitAt sep; token := tok0; window := w;
         err := None; empties := 0; done := false |}
    = scan_last (at_end sep w tok0)).
  { intros rd tok0. simpl. unfold setErr, after_read, at_end; simpl.
    now rewrite app_nil_r. }
  cbn [window feeding].
  destruct (nonempty w); fields; rewrite buffer_not_full by exact Hl;
    cbn [r]; rewrite Hread; now apply scan_last_at_end.
Qed.

Lemma scan_read_chunks (sep : bytes) (Hsep : sep <> []) (last : bytes)
      (chunks : list bytes) :
  forall w tok1 tok2 rd,
    Forall (fun c => c <> []) chunks ->
    fits sep (w ++ concat chunks ++ last) ->
    index_of w sep = None ->
    same_scan sep
      (scan_read (reader_of chunks last) 0
         {| r := rd; split := SplitAt sep; token := tok1; window := w;
            err := None; empties := 0; done := false |})
      (Scan (feeding sep (w ++ concat chunks ++ last) [] [] tok2)).
Proof.
  induction chunks as [|c chunks IH]; intros w tok1 tok2 rd Hne Hf Hi.
  - (* the final read: [last] arrives together with the end of the body *)
    simpl concat in *. simpl app at 2. simpl app in Hf at 2. cbn [reader_of scan_read].
    unfold setErr, after_read; cbn [err window split token r empties done].
    change {| r := Ends [] EOF; split := SplitAt sep; token := tok1;
              window := w ++ last; err := Some EOF; empties := 0; done := false |}
      with (at_end sep (w ++ last) tok1).
    destruct (index_of (w ++ last) sep) as [i|] eqn:Hi'.
    + unfold scan_last, Scan. cbn [done feeding].
      rewrite (scan_split_found sep (at_end sep (w ++ last) tok1) i)
        by (try split; auto).
      rewrite (scan_split_found sep (feeding sep (w ++ last) [] [] tok2) i)
        by (try split; auto).
      now apply found_same_at_end.
    + apply Scan_end_left; [exact Hi'|now apply (fits_short sep)].
  - inversion Hne as [|? ? Hc Hne']; subst.
    simpl reader_of. simpl concat in *. rewrite <- app_assoc, app_assoc in *.
    cbn [scan_read].
    assert (Hcb : nonempty c = true) by (destruct c; [contradiction|reflexivity]).
    rewrite Hcb. unfold after_read; cbn [window split token err done r empties].
    change {| r := reader_of chunks last; split := SplitAt sep; token := tok1;
              window := w ++ c; err := None; empties := 0; done := false |}
      with (feeding sep (w ++ c) chunks last tok1).
    destruct (index_of (w ++ c) sep) as [i|] eqn:Hi'.
    + rewrite (scan_split_found sep _ i) by (try split; auto).
      unfold Scan. cbn [done feeding].
      rewrite (scan_split_found sep
                 (feeding sep ((w ++ c) ++ concat chunks ++ last) [] [] tok2) i);
        [|auto|split; auto|now apply index_of_app].
      now apply found_same.
    + rewrite (scan_split_more sep) by (try split; auto).
      cbn [window feeding].
      assert (Hwc : nonempty (w ++ c) = true).
      { destruct w; simpl; [exact Hcb|reflexivity]. }
      rewrite Hwc. fields.
      rewrite buffer_not_full by (exact (fits_prefix_short sep _ _ Hf Hi')).
      apply IH; auto.
Qed.

Lemma Scan_ahead (sep : bytes) (Hsep : sep <> []) (s1 s2 : Scanner) :
  ahead sep s1 s2 -> same_scan sep (Scan s1) (Scan s2).
Proof.
  intros [->|[(w & chunks & last & tok & Hne & Hf & -> & ->)|(w & tok & Hf & -> & ->)]];
    [apply same_scan_refl| |].
  - destruct (index_of w sep) as [i|] eqn:Hi.
    + unfold Scan. cbn [done feeding].
      rewrite (scan_split_found sep (feeding sep w chunks last tok) i)
        by (try split; auto).
      rewrite (scan_split_found sep
                 (feeding sep (w ++ concat chunks ++ last) [] [] tok) i);
        [|auto|split; auto|now apply index_of_app].
      now apply found_same.
    + unfold Scan at 1. cbn [done feeding].
      rewrite (scan_split_more sep (feeding sep w chunks last tok))
        by (try split; auto).
      cbn [window feeding].
      pose proof (fits_prefix_short sep _ _ Hf Hi) as Hl.
      destruct (nonempty w); unfold with_token, feeding at 1;
        cbn [err is_nil window split token r empties done skipn];
        rewrite buffer_not_full by exact Hl; cbn [r];
        apply scan_read_chunks; auto.
  - destruct (index_of w sep) as [i|] eqn:Hi.
    + unfold Scan. cbn [done feeding at_end].
      rewrite (scan_split_found sep (at_end sep w tok) i) by (try split; auto).
      rewrite (scan_split_found sep (feeding sep w [] [] tok) i) by (try split; auto).
      now apply found_same_at_end.
    + assert (Hl : Scan (at_end sep w tok) = scan_last (at_end sep w tok)).
      { unfold Scan, scan_last. cbn [done at_end].
        rewrite (scan_split_final sep (at_end sep w tok) EOF) by (try split; auto).
        destruct (nonempty (window (at_end sep w tok))); reflexivity. }
      rewrite Hl. apply Scan_end_left; [exact Hi|now apply (fits_short sep)].
Qed.

Lemma scan_all_ahead (sep : bytes) (Hsep : sep <> []) :
  forall fuel s1 s2, ahead sep s1 s2 -> scan_all fuel s1 = scan_all fuel s2.
Proof.
  induction fuel as [|fuel IH]; intros s1 s2 H; [reflexivity|]. simpl.
  pose proof (Scan_ahead sep Hsep s1 s2 H) as Hs.
  destruct (Scan s1) as [[|] a|], (Scan s2) as [[|] b|]; simpl in Hs;
    try contradiction; auto.
  - rewrite (IH a b Hs).
    assert (Hb : Bytes a = Bytes b).
    { destruct Hs as [->|[(w & chunks & last & tok & _ & _ & -> & ->)
                         |(w & tok & _ & -> & ->)]];
        reflexivity. }
    now rewrite Hb.
  - now rewrite Hs.
Qed.

(** A body that ends with [io.EOF] and fits the buffer leaves no error in
    the scanner. *)
Lemma scan_all_no_error (sep : bytes) (Hsep : sep <> []) :
  forall fuel s toks e,
    (exists w tok, (s = feeding sep w [] [] tok /\ fits sep w) \/ s = at_end sep w tok) ->
    scan_all fuel s = Some (toks, e) -> e = None.
Proof.
  induction fuel as [|fuel IH]; intros s toks e Hs H; [discriminate|].
  simpl in H.
  assert (Hscan : match Scan s with
                  | Scanned true s' =>
                      exists w tok, (s' = feeding sep w [] [] tok /\ fits sep w)
                                    \/ s' = at_end sep w tok
                  | Scanned false s' => Err s' = None
                  | ScanPanic _ => True
                  end).
  { destruct Hs as (w & tok & [[-> Hf]| ->]).
    - destruct (index_of w sep) as [i|] eqn:Hi.
      + unfold Scan. cbn [done feeding].
        rewrite (scan_split_found sep (feeding sep w [] [] tok) i) by (try split; auto).
        exists (skipn (i + length sep) w), (Some (firstn i w)). left.
        split; [reflexivity|now apply fits_skip].
      + pose proof (Scan_end_left sep w tok tok Hi (fits_short sep w Hf Hi)) as Hsame.
        unfold scan_last in Hsame.
        rewrite (scan_split_final sep (at_end sep w tok) EOF) in Hsame
          by (try split; auto).
        cbn [window at_end] in Hsame.
        destruct (nonempty w), (Scan (feeding sep w [] [] tok)) as [[|] s'|];
          simpl in Hsame; try contradiction; auto.
        * destruct Hsame as [<-|[(w' & chunks & last & tok' & _ & _ & Hx & _)
                                |(w' & tok' & Hf' & _ & ->)]].
          -- exists [], (Some w). right.
             unfold with_token, at_end; simpl. now rewrite skipn_all.
          -- discriminate Hx.
          -- exists w', tok'. now left.
    - destruct (index_of w sep) as [i|] eqn:Hi.
      + unfold Scan. cbn [done at_end].
        rewrite (scan_split_found sep (at_end sep w tok) i) by (try split; auto).
        exists (skipn (i + length sep) w), (Some (firstn i w)). right. reflexivity.
      + unfold Scan. cbn [done at_end].
        rewrite (scan_split_final sep (at_end sep w tok) EOF) by (try split; auto).
        cbn [window at_end]. destruct (nonempty w); simpl; [|reflexivity].
        exists [], (Some w). right. unfold with_token, at_end; simpl.
        now rewrite skipn_all. }
  destruct (Scan s) as [[|] s'|]; [| |discriminate].
  - destruct (scan_all fuel s') as [[toks' e']|] eqn:Ha; [|discriminate].
    injection H as _ <-. exact (IH s' toks' e' Hscan Ha).
  - injection H as _ <-. exact Hscan.
Qed.

Lemma tokens_chunking (sep : bytes) (chunks1 chunks2 : list bytes) (last1 last2 : bytes) :
  sep <> [] ->
  Forall (fun c => c <> []) chunks1 ->
  Forall (fun c => c <> []) chunks2 ->
  concat chunks1 ++ last1 = concat chunks2 ++ last2 ->
  fits sep (concat chunks1 ++ last1) ->
  (exists toks, tokens sep chunks1 last1 = Some (toks, None)) /\
  tokens sep chunks1 last1 = tokens sep chunks2 last2.
Proof.
  intros Hsep H1 H2 Heq Hf.
  assert (Htot : forall chunks last, exists toks e, tokens sep chunks last = Some (toks, e)).
  { intros chunks last. unfold tokens.
    apply (scan_all_total sep Hsep); [split; reflexivity|lia]. }
  assert (Hall : forall chunks last fuel,
            Forall (fun c => c <> []) chunks ->
            fits sep (concat chunks ++ last) ->
            scan_all fuel (NewSplitScanner (reader_of chunks last) sep)
            = scan_all fuel (feeding sep (concat chunks ++ last) [] [] None)).
  { intros chunks last fuel Hne Hfit. apply (scan_all_ahead sep Hsep).
    right. left. exists [], chunks, last, None. auto. }
  destruct (Htot chunks1 last1) as (t1 & e1 & E1), (Htot chunks2 last2) as (t2 & e2 & E2).
  rewrite E1, E2. unfold tokens in E1, E2.
  rewrite Hall in E1, E2 by (try assumption; rewrite <- ?Heq; assumption).
  rewrite <- Heq in E2.
  assert (e1 = None) as ->.
  { apply (scan_all_no_error sep Hsep _ _ _ _
             (ex_intro _ _ (ex_intro _ _ (or_introl (conj eq_refl Hf)))) E1). }
  split; [eauto|].
  set (f1 := S (Scanner_size (NewSplitScanner (reader_of chunks1 last1) sep))) in *.
  set (f2 := S (Scanner_size (NewSplitScanner (reader_of chunks2 last2) sep))) in *.
  pose proof (scan_all_more_fuel _ _ _ E1 (max f1 f2) (Nat.le_max_l _ _)) as M1.
  pose proof (scan_all_more_fuel _ _ _ E2 (max f1 f2) (Nat.le_max_r _ _)) as M2.
  congruence.
Qed.

(** ** The limit of the buffer *)

Lemma nonempty_app_r (w c : bytes) : c <> [] -> nonempty (w ++ c) = true.
Proof. intros Hc. destruct w; [destruct c; [contradiction|]|]; reflexivity. Qed.

(** A body without separator whose bytes, but for those of the final read,
    do not fill the buffer: the reads bring it whole into the window. *)
Lemma scan_read_whole (sep : bytes) (last : bytes) (chunks : list bytes) :
  forall w tok rd,
    Forall (fun c => c <> []) chunks ->
    index_of (w ++ concat chunks ++ last) sep = None ->
    (len (w ++ concat chunks) < MaxScanTokenSize)%Z ->
    exists tok',
      scan_read (reader_of chunks last) 0
        {| r := rd; split := SplitAt sep; token := tok; window := w;
           err := None; empties := 0; done := false |}
      = scan_last (at_end sep (w ++ concat chunks ++ last) tok').
Proof.
  induction chunks as [|c chunks IH]; intros w tok rd Hne Hi Hl.
  - exists tok. reflexivity.
  - inversion Hne as [|? ? Hc Hne']; subst.
    simpl reader_of. simpl concat in *.
    rewrite <- (app_assoc c) in Hi. rewrite (app_assoc w c) in Hi, Hl.
    cbn [scan_read].
    assert (Hcb : nonempty c = true) by (destruct c; [contradiction|reflexivity]).
    rewrite Hcb. unfold after_read; cbn [window split token err done r empties].
    change {| r := reader_of chunks last; split := SplitAt sep; token := tok;
              window := w ++ c; err := None; empties := 0; done := false |}
      with (feeding sep (w ++ c) chunks last tok).
    assert (Hwc : index_of (w ++ c) sep = None)
      by exact (index_of_prefix_none sep _ _ Hi).
    rewrite (scan_split_more sep) by (try split; auto).
    cbn [window feeding]. rewrite (nonempty_app_r w c Hc). fields.
    rewrite buffer_not_full
      by (cbn [window]; unfold len in *; rewrite length_app in Hl; lia).
    destruct (IH (w ++ c) None (reader_of chunks last) Hne' Hi Hl) as [tok' ->].
    exists tok'. now rewrite <- !app_assoc.
Qed.

(** A body that fills the buffer before a separator or the end has come:
    [ErrTooLong]. *)
Lemma scan_read_too_long (sep : bytes) (last : bytes) (chunks : list bytes) :
  forall w tok rd,
    Forall (fun c => c <> []) chunks ->
    index_of (w ++ concat chunks) sep = None ->
    (len w < MaxScanTokenSize <= len (w ++ concat chunks))%Z ->
    exists s',
      scan_read (reader_of chunks last) 0
        {| r := rd; split := SplitAt sep; token := tok; window := w;
           err := None; empties := 0; done := false |}
      = Scanned false s' /\ Err s' = Some ErrTooLong.
Proof.
  induction chunks as [|c chunks IH]; intros w tok rd Hne Hi Hl.
  - simpl in Hl. rewrite app_nil_r in Hl. lia.
  - inversion Hne as [|? ? Hc Hne']; subst.
    simpl reader_of. simpl concat in *.
    rewrite (app_assoc w c) in Hi, Hl.
    cbn [scan_read].
    assert (Hcb : nonempty c = true) by (destruct c; [contradiction|reflexivity]).
    rewrite Hcb. unfold after_read; cbn [window split token err done r empties].
    change {| r := reader_of chunks last; split := SplitAt sep; token := tok;
              window := w ++ c; err := None; empties := 0; done := false |}
      with (feeding sep (w ++ c) chunks last tok).
    assert (Hwc : index_of (w ++ c) sep = None)
      by exact (index_of_prefix_none sep _ _ Hi).
    rewrite (scan_split_more sep) by (try split; auto).
    cbn [window feeding]. rewrite (nonempty_app_r w c Hc). fields.
    unfold buffer_full. cbn [window].
    destruct (MaxScanTokenSize <=? len (w ++ c))%Z eqn:Hfull.
    + eexists. split; reflexivity.
    + apply Z.leb_gt in Hfull. apply IH; auto. split; [exact Hfull|apply Hl].
Qed.

(** The first call of [Scan] starts with a read. *)
Lemma Scan_new (sep : bytes) (body : Reader) :
  Scan (NewSplitScanner body sep)
  = scan_read body 0
      {| r := body; split := SplitAt sep; token := None; window := [];
         err := None; empties := 0; done := false |}.
Proof. reflexivity. Qed.

(** The tokens of a body without separator that the reads bring whole into
    the window: the body itself. *)
Lemma tokens_whole (sep : bytes) (chunks : list bytes) (last : bytes) :
  sep <> [] ->
  Forall (fun c => c <> []) chunks ->
  index_of (concat chunks ++ last) sep = None ->
  (len (concat chunks) < MaxScanTokenSize)%Z ->
  concat chunks ++ last <> [] ->
  tokens sep chunks last = Some ([concat chunks ++ last], None).
Proof.
  intros Hsep Hne Hi Hl Hbody.
  set (s0 := NewSplitScanner (reader_of chunks last) sep).
  assert (H2 : scan_all 2 s0 = Some ([concat chunks ++ last], None)).
  { cbn [scan_all]. unfold s0. rewrite Scan_new.
    destruct (scan_read_whole sep last chunks [] None (reader_of chunks last) Hne Hi Hl)
      as [tok' ->].
    cbn [app]. unfold scan_last.
    rewrite (scan_split_final sep (at_end sep (concat chunks ++ last) tok') EOF)
      by (try split; auto).
    cbn [window at_end].
    destruct (concat chunks ++ last) as [|x body] eqn:Hb; [contradiction|].
    cbn [nonempty]. unfold with_token. cbn [window at_end r split err done].
    rewrite skipn_all.
    change {| r := Ends [] EOF; split := SplitAt sep; token := Some (x :: body);
              window := []; err := Some EOF; empties := 0; done := false |}
      with (at_end sep [] (Some (x :: body))).
    rewrite (Scan_at_end sep [] _ Hsep), (index_of_empty sep Hsep). reflexivity. }
  unfold tokens. fold s0.
  apply (scan_all_more_fuel _ _ _ H2).
  unfold s0, Scanner_size. cbn [window err r NewSplitScanner length].
  assert (Hr : forall cs, 1 + length (concat cs ++ last) <= Reader_size (reader_of cs last)).
  { induction cs as [|c cs IHc]; simpl; [lia|]. rewrite !length_app in *. lia. }
  specialize (Hr chunks).
  assert (0 < length (concat chunks ++ last)) by (destruct (concat chunks ++ last); [contradiction|simpl; lia]).
  lia.
Qed.

(** The tokens of a body that fills the buffer before the first separator
    has come: none, and [ErrTooLong]. *)
Lemma tokens_too_long (sep : bytes) (chunks : list bytes) (last : bytes) :
  Forall (fun c => c <> []) chunks ->
  index_of (concat chunks) sep = None ->
  (MaxScanTokenSize <= len (concat chunks))%Z ->
  tokens sep chunks last = Some ([], Some ErrTooLong).
Proof.
  intros Hne Hi Hl.
  unfold tokens. cbn [scan_all]. rewrite Scan_new.
  destruct (scan_read_too_long sep last chunks [] None (reader_of chunks last) Hne Hi)
    as (s' & -> & ->); [|reflexivity].
  cbn [app]. split; [|exact Hl]. unfold MaxScanTokenSize, len; simpl; lia.
Qed.

(** Texts made of one letter. *)
Lemma letters_app (m n : Z) :
  (0 <= m)%Z -> (0 <= n)%Z -> letters m ++ letters n = letters (m + n).
Proof.
  intros Hm Hn. unfold letters. rewrite Z2Nat.inj_add by assumption.
  symmetry. apply repeat_app.
Qed.

Lemma letters_length (n : Z) : (0 <= n)%Z -> len (letters n) = n.
Proof. intros Hn. unfold len, letters. rewrite repeat_length. lia. Qed.

Lemma letters_no_newline (n : Z) : index_of (letters n) [newline] = None.
Proof.
  unfold letters. induction (Z.to_nat n) as [|k IH]; [reflexivity|].
  simpl repeat. cbn [index_of]. rewrite IH. reflexivity.
Qed.

Lemma letters_not_empty (n : Z) : (0 < n)%Z -> letters n <> [].
Proof.
  intros Hn H. apply (f_equal len) in H. rewrite letters_length in H by lia.
  unfold len in H. simpl in H. lia.
Qed.

Lemma filling_reads_long_token :
  concat filling_reads = letters 32768 /\
  concat filling_reads ++ last_read = long_token /\
  concat (filling_reads ++ [last_read]) = long_token.
Proof.
  assert (H : concat filling_reads = letters 32768).
  { unfold filling_reads. cbn [map concat]. rewrite app_nil_r.
    rewrite !letters_app by lia. reflexivity. }
  split; [exact H|]. split.
  - rewrite H. unfold last_read, long_token. rewrite letters_app by lia. reflexivity.
  - rewrite concat_app, H. cbn [concat]. rewrite app_nil_r.
    unfold last_read, long_token. rewrite letters_app by lia. reflexivity.
Qed.

(** ** Traces *)

Lemma clean_app (tr1 tr2 : list Event) :
  clean (tr1 ++ tr2) <-> clean tr1 /\ clean tr2.
Proof. unfold clean. rewrite forallb_app. apply andb_true_iff. Qed.

Lemma clean_snoc (tr : list Event) (ev : Event) :
  clean tr -> failed ev = false -> clean (tr ++ [ev]).
Proof.
  intros H Hev. apply clean_app. split; [exact H|].
  unfold clean; simpl. now rewrite Hev.
Qed.

Lemma batches_app (tr1 tr2 : list Event) :
  batches (tr1 ++ tr2) = batches tr1 ++ batches tr2.
Proof. unfold batches. apply flat_map_app. Qed.

(** A failed call in a trace that is clean up to its last event is that
    last event. *)
Lemma failed_is_last (tr tr1 tr2 : list Event) (last ev : Event) :
  clean tr -> failed ev = true ->
  tr ++ [last] = tr1 ++ ev :: tr2 ->
  tr2 = [] /\ ev = last /\ tr1 = tr.
Proof.
  intros Hc Hev. revert tr1. induction tr as [|x tr IH]; intros tr1 H.
  - destruct tr1 as [|y tr1]; simpl in H.
    + injection H as <- <-. auto.
    + injection H as _ H. destruct tr1; discriminate.
  - apply clean_app with (tr1 := [x]) in Hc. destruct Hc as [Hx Hc].
    destruct tr1 as [|y tr1]; simpl in H.
    + injection H as <- _. unfold clean in Hx. simpl in Hx. rewrite Hev in Hx. discriminate.
    + injection H as <- H. destruct (IH Hc tr1 H) as (-> & -> & ->). auto.
Qed.

Lemma clean_no_failed (tr tr1 tr2 : list Event) (ev : Event) :
  clean tr -> failed ev = true -> tr <> tr1 ++ ev :: tr2.
Proof.
  intros Hc Hev ->. apply clean_app in Hc. destruct Hc as [_ Hc].
  unfold clean in Hc. simpl in Hc. rewrite Hev in Hc. discriminate.
Qed.

(** ** The fence extractor's step *)

Lemma ParseCodeBlock_closed (text : bytes) :
  Forall (closed_fence text) (ParseCodeBlock text).
Proof.
  rewrite ParseCodeBlock_map, Forall_map.
  eapply Forall_impl; [|apply FindAll_matches].
  intros m Hm. now apply match_at_closed_fence.
Qed.

Lemma analyse_spec (text : bytes) (res : Response) :
  match analyse text res with
  | None => Response_ res = None
  | Some (text', batch) =>
      exists fragment,
        Response_ res = Some fragment /\
        match batch with
        | Some blocks =>
            blocks = ParseCodeBlock (text ++ fragment) /\ blocks <> [] /\ text' = []
        | None => ParseCodeBlock (text ++ fragment) = [] /\ text' = text ++ fragment
        end
  end.
Proof.
  unfold analyse. destruct (Response_ res) as [fragment|]; [|reflexivity].
  destruct (ParseCodeBlock (text ++ fragment)) as [|b bs] eqn:Hp; simpl.
  - exists fragment. rewrite Hp. auto.
  - exists fragment. rewrite Hp. repeat split; auto. discriminate.
Qed.

(** ** The loop *)

Section Loop.
Variable State : Type.
Variable decode : bytes -> Object + error.

Lemma Query_loop_ending (request : Request State) (shouldAnalyse : bool) :
  forall fuel sc res text st tr,
    splits_at [newline] sc -> Scanner_size sc < fuel ->
    clean tr -> ParseCodeBlock text = [] -> Forall extracted (batches tr) ->
    ~ In (EvScan false) tr ->
    let run := Query_loop decode fuel request shouldAnalyse sc res text None st tr in
    ending decode run /\
    ParseCodeBlock (buffer run) = [] /\
    Forall extracted (batches (trace run)) /\
    (In (EvScan false) (trace run) -> outcome run = Returns None).
Proof.
  assert (Hnl : [newline] <> []) by discriminate.
  assert (Hin : forall tr ev, ~ In (EvScan false) tr -> ev <> EvScan false ->
                              ~ In (EvScan false) (tr ++ [ev])).
  { intros tr ev Hn Hev Hi. apply in_app_or in Hi.
    destruct Hi as [Hi|[Hi|[]]]; [exact (Hn Hi)|exact (Hev Hi)]. }
  induction fuel as [|fuel IH]; intros sc res text st tr Hsc Hlt Hc Ht Hb Hn; [lia|].
  cbn [Query_loop].
  pose proof (Scan_ok [newline] sc Hnl Hsc) as Hscan.
  destruct (Scan sc) as [[|] sc'|]; simpl in Hscan; [| |contradiction].
  2:{ cbn zeta. repeat split; simpl; auto.
      - apply end_of_stream; [reflexivity|]. exists tr. auto.
      - rewrite batches_app. simpl. now rewrite app_nil_r. }
  destruct Hscan as [Hsc' Hlt'].
  assert (Hc1 : clean (tr ++ [EvScan true])) by (apply clean_snoc; auto).
  assert (Hb1 : Forall extracted (batches (tr ++ [EvScan true]))).
  { rewrite batches_app. simpl. now rewrite app_nil_r. }
  assert (Hn1 : ~ In (EvScan false) (tr ++ [EvScan true])).
  { apply Hin; [exact Hn|discriminate]. }
  cbn zeta.
  destruct (Err sc') as [e|] eqn:He.
  { repeat split; simpl; auto; [|contradiction]. now apply read_failed with (e := e). }
  unfold Unmarshal.
  destruct (decode (Bytes sc')) as [o|e] eqn:Hd.
  2:{ repeat split; simpl; auto; [|contradiction]. now apply decode_failed with (e := e). }
  set (res' := assign o res).
  (* the state, the trace and the error after the per-event handler *)
  assert (Hjson : exists st1 tr1 ret,
    match OnJson request with
    | Some h => let '(st', ret) := h res' st in
                (st', (tr ++ [EvScan true]) ++ [EvOnJson res' ret], ret)
    | None => (st, tr ++ [EvScan true], None)
    end = (st1, tr1, ret) /\
    ~ In (EvScan false) tr1 /\
    match ret with
    | None => clean tr1 /\ Forall extracted (batches tr1)
    | Some e => exists tr0, tr1 = tr0 ++ [EvOnJson res' (Some e)] /\ clean tr0 /\
                Forall extracted (batches tr1)
    end).
  { destruct (OnJson request) as [h|].
    - destruct (h res' st) as [st' [e|]]; do 3 eexists; (split; [reflexivity|]);
        (split; [apply Hin; [exact Hn1|discriminate]|]).
      + exists (tr ++ [EvScan true]). repeat split; auto.
        rewrite batches_app. simpl. now rewrite app_nil_r.
      + split; [apply clean_snoc; auto|].
        rewrite batches_app. simpl. now rewrite app_nil_r.
    - do 3 eexists; split; [reflexivity|]. simpl. auto. }
  destruct Hjson as (st1 & tr1 & ret & -> & Hn2 & Hret).
  destruct ret as [e|].
  { destruct Hret as (tr0 & -> & Hc0 & Hb0). repeat split; simpl; auto; [|contradiction].
    apply OnJson_failed with (res := res') (e := e); [reflexivity|].
    exists tr0. auto. }
  destruct Hret as [Hc2 Hb2].
  destruct shouldAnalyse.
  2:{ apply IH; auto. lia. }
  pose proof (analyse_spec text res') as Ha.
  destruct (analyse text res') as [[text' [blocks|]]|].
  - destruct Ha as (fragment & Hf & -> & Hne & ->).
    assert (Hex : extracted (ParseCodeBlock (text ++ fragment))).
    { split; [exact Hne|]. exists (text ++ fragment). split; [reflexivity|].
      apply ParseCodeBlock_closed. }
    destruct (OnCodeBlock request) as [h|].
    + destruct (h (ParseCodeBlock (text ++ fragment)) st1) as [st2 [e|]] eqn:Hh.
      * repeat split; simpl; auto.
        -- apply OnCodeBlock_failed
             with (blocks := ParseCodeBlock (text ++ fragment)) (e := e);
             [reflexivity|]. exists tr1. auto.
        -- rewrite batches_app. simpl. apply Forall_app. auto.
        -- intros Hi. exfalso. revert Hi. apply Hin; [exact Hn2|discriminate].
      * apply IH; auto; [lia|apply clean_snoc; auto| |apply Hin; [exact Hn2|discriminate]].
        rewrite batches_app. simpl. apply Forall_app. auto.
    + repeat split; simpl; auto; [|contradiction]. now apply fragment_missing.
  - destruct Ha as (fragment & Hf & Hnone & ->). apply IH; auto. lia.
  - repeat split; simpl; auto; [|contradiction]. now apply fragment_missing.
Qed.

Lemma Query_ending (body : Reader) (request : Request State) (st : State) :
  let run := Query decode body request st in
  ending decode run /\
  ParseCodeBlock (buffer run) = [] /\
  Forall extracted (batches (trace run)) /\
  (In (EvScan false) (trace run) -> outcome run = Returns None).
Proof.
  unfold Query. apply Query_loop_ending.
  - split; reflexivity.
  - unfold Scanner_size. simpl. lia.
  - reflexivity.
  - reflexivity.
  - constructor.
  - intros [].
Qed.
End Loop.

(** ** The loop, line by line *)

Lemma reading_Err (sep : bytes) (s : Scanner) : reading sep s -> Err s = None.
Proof.
  intros [(w & chunks & last & tok & _ & ->)|(w & tok & ->)]; reflexivity.
Qed.

Lemma scan_read_reading (sep : bytes) (Hsep : sep <> []) (last : bytes)
      (chunks : list bytes) :
  forall w tok rd,
    Forall (fun c => c <> []) chunks ->
    index_of w sep = None ->
    reads_on sep
      (scan_read (reader_of chunks last) 0
         {| r := rd; split := SplitAt sep; token := tok; window := w;
            err := None; empties := 0; done := false |}).
Proof.
  induction chunks as [|c chunks IH]; intros w tok rd Hne Hi.
  - cbn [reader_of scan_read].
    unfold setErr, after_read; cbn [err window split token r empties done].
    change {| r := Ends [] EOF; split := SplitAt sep; token := tok;
              window := w ++ last; err := Some EOF; empties := 0; done := false |}
      with (at_end sep (w ++ last) tok).
    unfold scan_last.
    destruct (index_of (w ++ last) sep) as [i|] eqn:Hi'.
    + rewrite (scan_split_found sep (at_end sep (w ++ last) tok) i)
        by (try split; auto).
      right. eexists _, _. reflexivity.
    + rewrite (scan_split_final sep (at_end sep (w ++ last) tok) EOF)
        by (try split; auto).
      destruct (nonempty (window (at_end sep (w ++ last) tok))); [|exact I].
      right. eexists _, _. reflexivity.
  - inversion Hne as [|? ? Hc Hne']; subst.
    cbn [reader_of scan_read].
    assert (Hcb : nonempty c = true) by (destruct c; [contradiction|reflexivity]).
    rewrite Hcb. unfold after_read; cbn [window split token err done r empties].
    change {| r := reader_of chunks last; split := SplitAt sep; token := tok;
              window := w ++ c; err := None; empties := 0; done := false |}
      with (feeding sep (w ++ c) chunks last tok).
    destruct (index_of (w ++ c) sep) as [i|] eqn:Hi'.
    + rewrite (scan_split_found sep _ i) by (try split; auto).
      left. eexists _, chunks, last, _. split; [exact Hne'|reflexivity].
    + rewrite (scan_split_more sep) by (try split; auto).
      cbn [window feeding]. rewrite (nonempty_app_r w c Hc). fields.
      destruct (buffer_full _); [exact I|]. now apply IH.
Qed.

(** On a body that ends with [io.EOF], a call of [Scan] that gives a token
    leaves no error behind. *)
Lemma Scan_reading (sep : bytes) (Hsep : sep <> []) (s : Scanner) :
  reading sep s -> reads_on sep (Scan s).
Proof.
  intros [(w & chunks & last & tok & Hne & ->)|(w & tok & ->)].
  - unfold Scan. cbn [done feeding].
    destruct (index_of w sep) as [i|] eqn:Hi.
    + rewrite (scan_split_found sep (feeding sep w chunks last tok) i)
        by (try split; auto).
      left. eexists _, chunks, last, _. split; [exact Hne|reflexivity].
    + rewrite (scan_split_more sep (feeding sep w chunks last tok))
        by (try split; auto).
      cbn [window feeding].
      destruct (nonempty w); unfold with_token, feeding;
        cbn [err is_nil window split token r empties done skipn];
        (destruct (buffer_full _); [exact I|]); cbn [r];
        now apply scan_read_reading.
  - rewrite (Scan_at_end sep w tok Hsep).
    destruct (index_of w sep) as [i|].
    + right. eexists _, _. reflexivity.
    + destruct (nonempty w); [|exact I]. right. eexists _, _. reflexivity.
Qed.

(** The body of the loop after a token came without error: the loop and
    [handle_lines] go the same way, and the tactic [IH] closes the turns that
    follow. *)
Ltac loop_turn IH :=
  cbn [handle_lines]; cbn zeta;
  match goal with
  | |- context [Unmarshal ?d ?t ?res] =>
      destruct (Unmarshal d t res) as [?res|?e]; [|reflexivity]
  end;
  match goal with
  | |- context [OnJson ?request] => destruct (OnJson request) as [?h|]
  end;
  [ match goal with
    | |- context [?h ?res ?st] =>
        match type of h with handler _ _ => destruct (h res st) as [?st [?e|]] end
    end; [reflexivity|] | ];
  (match goal with
   | |- context [if ?b then _ else _] => destruct b; [|IH]
   end;
   match goal with
   | |- context [analyse ?text ?res] =>
       destruct (analyse text res) as [[?text [?blocks|]]|];
       [| IH | reflexivity]
   end;
   match goal with
   | |- context [OnCodeBlock ?request] =>
       destruct (OnCodeBlock request) as [?h|]; [|reflexivity]
   end;
   match goal with
   | |- context [let '(_, _) := ?h ?blocks ?st in _] =>
       destruct (h blocks st) as [?st [?e|]]; [reflexivity|IH]
   end).

Section Lines.
Variable State : Type.
Variable decode : bytes -> Object + error.

(** The loop of [Query] handles the tokens the scanner yields, one turn per
    token, and returns with the call of [Scan] that yields none. *)
Lemma Query_loop_lines (request : Request State) (shouldAnalyse : bool) :
  forall fuel s ls e res text st tr,
    reading [newline] s ->
    scan_all fuel s = Some (ls, e) ->
    result (Query_loop decode fuel request shouldAnalyse s res text None st tr)
    = handle_lines decode request shouldAnalyse (@stream_ended State) ls res text st tr.
Proof.
  assert (Hnl : [newline] <> []) by discriminate.
  induction fuel as [|fuel IH]; intros s ls e res text st tr Hs H; [discriminate|].
  cbn [Query_loop]. cbn [scan_all] in H.
  pose proof (Scan_reading [newline] Hnl s Hs) as Hr.
  destruct (Scan s) as [[|] s'|]; cbn [reads_on] in Hr; [| |contradiction].
  - destruct (scan_all fuel s') as [[ls' e']|] eqn:Ha; [|discriminate].
    injection H as <- <-. cbn zeta. rewrite (reading_Err _ _ Hr).
    loop_turn ltac:(eapply IH; eassumption).
  - injection H as <- <-. reflexivity.
Qed.

(** The fuel [Query] gives its loop is the one [tokens] gives the scanner. *)
Lemma Query_fuel (body : Reader) (sep : bytes) :
  S (Scanner_size (NewSplitScanner body sep)) = S (Reader_size body).
Proof. reflexivity. Qed.

Lemma Query_lines (request : Request State) (st : State)
      (chunks : list bytes) (last : bytes) :
  Forall (fun c => c <> []) chunks ->
  exists ls e,
    tokens [newline] chunks last = Some (ls, e) /\
    result (Query decode (reader_of chunks last) request st)
    = handle_lines decode request (negb (is_nil (OnCodeBlock request)))
        (@stream_ended State) ls zero_Response [] st [].
Proof.
  intros Hne.
  assert (Hnl : [newline] <> []) by discriminate.
  destruct (scan_all_total [newline] Hnl
              (S (Scanner_size (NewSplitScanner (reader_of chunks last) [newline])))
              (NewSplitScanner (reader_of chunks last) [newline]))
    as (ls & e & H); [split; reflexivity|lia|].
  exists ls, e. split; [exact H|].
  unfold Query. rewrite Query_fuel in H.
  apply (Query_loop_lines _ _ _ _ _ e); [|exact H].
  left. exists [], chunks, last, None. split; [exact Hne|reflexivity].
Qed.

(** The batches [handle_lines] hands over are those of the extractor of the
    specification, and so is the buffer it leaves. *)
Lemma handle_lines_batches (request : Request State) (h : handler State (list CodeBlock)) :
  OnCodeBlock request = Some h ->
  forall ls fs res text st tr out st' tr' text',
    carries decode ls fs ->
    handle_lines decode request true (@stream_ended State) ls res text st tr
      = (out, st', tr', text') ->
    (exists k, batches tr' = batches tr ++ firstn k (fst (fence_extractor text fs))) /\
    (out = Returns None ->
     batches tr' = batches tr ++ fst (fence_extractor text fs) /\
     text' = snd (fence_extractor text fs)) /\
    (OnJson request = None -> (forall bs s, snd (h bs s) = None) -> out = Returns None).
Proof.
  intros Hh.
  induction ls as [|l ls IH]; intros fs res text st tr out st' tr' text' Hc H.
  - inversion Hc; subst. simpl in H. injection H as <- <- <- <-.
    rewrite batches_app. simpl. rewrite !app_nil_r.
    split; [exists 0; now rewrite app_nil_r|]. split; [auto|reflexivity].
  - inversion Hc as [|? f ? fs' (o & Hd & Ho) Hc']; subst.
    cbn [handle_lines] in H. unfold Unmarshal in H. rewrite Hd in H. cbn zeta in H.
    set (res' := assign o res) in *.
    assert (Ha : analyse text res'
                 = match FindAll CodeBlockRegExp (text ++ f) with
                   | [] => Some (text ++ f, None)
                   | found => Some ([], Some (map block_of found))
                   end).
    { unfold analyse, res'. cbn [assign Response_]. rewrite Ho. cbn [store].
      rewrite ParseCodeBlock_map.
      destruct (FindAll CodeBlockRegExp (text ++ f)); reflexivity. }
    cbn [fence_extractor].
    (* the turns that follow, from a trace with the same batches *)
    assert (Hnone : forall st1 tr1,
      batches tr1 = batches tr ->
      FindAll CodeBlockRegExp (text ++ f) = [] ->
      handle_lines decode request true (@stream_ended State) ls res' (text ++ f) st1 tr1
        = (out, st', tr', text') ->
      (exists k, batches tr' = batches tr ++ firstn k (fst (fence_extractor (text ++ f) fs'))) /\
      (out = Returns None ->
       batches tr' = batches tr ++ fst (fence_extractor (text ++ f) fs') /\
       text' = snd (fence_extractor (text ++ f) fs')) /\
      (OnJson request = None -> (forall bs s, snd (h bs s) = None) -> out = Returns None)).
    { intros st1 tr1 Htr1 _ H1.
      destruct (IH _ _ _ _ _ _ _ _ _ Hc' H1) as (Hk & Hall & Hok).
      rewrite Htr1 in Hk, Hall. auto. }
    assert (Hsome : forall st1 tr1 m ms,
      batches tr1 = batches tr ++ [map block_of (m :: ms)] ->
      handle_lines decode request true (@stream_ended State) ls res' [] st1 tr1
        = (out, st', tr', text') ->
      (exists k, batches tr' = batches tr ++
                   firstn k (fst (let '(bs, b) := fence_extractor [] fs' in
                                  (map block_of (m :: ms) :: bs, b)))) /\
      (out = Returns None ->
       batches tr' = batches tr ++
                     fst (let '(bs, b) := fence_extractor [] fs' in
                          (map block_of (m :: ms) :: bs, b)) /\
       text' = snd (let '(bs, b) := fence_extractor [] fs' in
                    (map block_of (m :: ms) :: bs, b))) /\
      (OnJson request = None -> (forall bs s, snd (h bs s) = None) -> out = Returns None)).
    { intros st1 tr1 m ms Htr1 H1.
      destruct (IH _ _ _ _ _ _ _ _ _ Hc' H1) as ([k Hk] & Hall & Hok).
      destruct (fence_extractor [] fs') as [bs b]. cbn [fst snd] in *.
      rewrite Htr1, <- app_assoc in Hk, Hall.
      split; [exists (S k); exact Hk|]. split; [exact Hall|exact Hok]. }
    assert (Hstop : forall (bs0 : list (list CodeBlock)) tr1,
      batches tr1 = batches tr ->
      exists k, batches tr1 = batches tr ++ firstn k bs0).
    { intros bs0 tr1 E. exists 0. now rewrite E, app_nil_r. }
    assert (Hscan : batches (tr ++ [EvScan true]) = batches tr).
    { rewrite batches_app. simpl. now rewrite app_nil_r. }
    assert (Hjson : forall ret, batches ((tr ++ [EvScan true]) ++ [EvOnJson res' ret])
                                = batches tr).
    { intros ret. rewrite batches_app, Hscan. simpl. now rewrite app_nil_r. }
    rewrite Hh, Ha in H.
    destruct (OnJson request) as [hj|].
    + destruct (hj res' st) as [st1 [e|]].
      * injection H as <- <- <- <-.
        split; [apply Hstop, Hjson|]. split; [discriminate|discriminate].
      * destruct (FindAll CodeBlockRegExp (text ++ f)) as [|m ms] eqn:Hf.
        -- exact (Hnone _ _ (Hjson None) eq_refl H).
        -- destruct (h (map block_of (m :: ms)) st1) as [st2 [e|]].
           ++ injection H as <- <- <- <-.
              split; [|split; discriminate].
              exists 1. rewrite batches_app, Hjson.
              destruct (fence_extractor [] fs'); reflexivity.
           ++ refine (Hsome _ _ m ms _ H). now rewrite batches_app, Hjson.
    + destruct (FindAll CodeBlockRegExp (text ++ f)) as [|m ms] eqn:Hf.
      * exact (Hnone _ _ Hscan eq_refl H).
      * destruct (h (map block_of (m :: ms)) st) as [st2 [e|]] eqn:Hcall.
        -- injection H as <- <- <- <-.
           split; [|split; [discriminate|]].
           ++ exists 1. rewrite batches_app, Hscan.
              destruct (fence_extractor [] fs'); reflexivity.
           ++ intros _ Hnf. specialize (Hnf (map block_of (m :: ms)) st).
              rewrite Hcall in Hnf. discriminate Hnf.
        -- refine (Hsome _ _ m ms _ H). now rewrite batches_app, Hscan.
Qed.
End Lines.

(** * The claims *)

(** C1 (defect of the code).  A transport error is not always surfaced: when
    the failing read comes at a line boundary (with nothing pending in the
    window), [Scan] returns false, the loop ends and [Query] returns nil.  So
    for every body whose very first read fails, and for the body that breaks
    right after its first line, [Query] returns success although the scanner
    holds the error. *)
Theorem C1_read_error_at_line_boundary_returns_nil :
  (forall (State : Type) (decode : bytes -> Object + error)
          (request : Request State) (st : State) (e : error),
      outcome (Query decode (Ends [] e) request st) = Returns None) /\
  outcome run_reset_after_line = Returns None /\
  Err (scanner run_reset_after_line) = Some connection_reset /\
  trace run_reset_after_line = [EvScan true; EvScan false].
Proof.
  split; [intros; reflexivity|]. vm_compute. auto.
Qed.

(** The sibling path: an error that arrives with a partial line pending is
    met by the check inside the loop and reported. *)
Lemma read_error_within_line_is_reported :
  outcome run_reset_within_line =
    Returns (Some (Errorf "failed to read ollama response: " connection_reset)).
Proof. vm_compute. reflexivity. Qed.

(** The extraction step dereferences the fragment whether it is there or
    not. *)
Lemma analyse_nil_fragment (text : bytes) (res : Response) :
  Response_ res = None -> analyse text res = None.
Proof. intros H. unfold analyse. now rewrite H. Qed.

(** C2 (defect of the code).  With [OnCodeBlock] registered, a line without
    [response] member is dereferenced all the same: as the first line it
    makes [Query] panic, right after the scan and before any handler is
    called; after a line that had the fragment [a], that stale fragment is
    appended to the buffer a second time. *)
Theorem C2_absent_fragment_is_dereferenced :
  outcome run_done_only = Panics "invalid memory address or nil pointer dereference" /\
  trace run_done_only = [EvScan true] /\
  outcome run_fragment_then_done = Returns None /\
  buffer run_fragment_then_done = str "aa".
Proof. vm_compute. auto. Qed.

(** C3 (defect of the code).  The pattern asks for two backticks or more,
    not three: a text fenced by runs of exactly two backticks yields a
    block. *)
Theorem C3_two_backticks_open_and_close_a_block :
  ParseCodeBlock two_backticks = [ {| Type_ := str "go"; Code := newline :: str "x" |} ].
Proof. vm_compute. reflexivity. Qed.

(** Counterexample to C4 as stated: the block extracted from [go_fence], the
    text of the specification's example, does not have the content
    [fmt.Println("hi")\n]. *)
Lemma C4_counterexample :
  ParseCodeBlock go_fence <> [ {| Type_ := str "go"; Code := println_hi ++ [newline] |} ].
Proof. vm_compute. discriminate. Qed.

(** C4 (amended).  The code of every extracted block is, byte for byte, what
    lies between the end of the language tag and the line feed that comes
    before the closing marker: that line feed is not part of it, the one after
    the tag is.  The text [go_fence] yields one block, with tag [go] and the
    content [\nfmt.Println("hi")]. *)
Theorem C4_code_ends_before_the_closing_line_feed :
  (forall text, Forall (closed_fence text) (ParseCodeBlock text)) /\
  ParseCodeBlock go_fence = [ {| Type_ := str "go"; Code := newline :: println_hi |} ].
Proof.
  split; [apply ParseCodeBlock_closed|]. vm_compute. reflexivity.
Qed.

(** Counterexample to C5 as stated: [OnJson] fails with [stop now] at the
    second of five events, and the result of [Query] is not that value. *)
Lemma C5_counterexample :
  outcome run_five_events <> Returns (Some sentinel).
Proof. vm_compute. discriminate. Qed.

(** C5 (amended).  When [OnJson] returns a failure, that call is the last
    event of the run (no further call of a handler, no further [Scan]), and
    the result of [Query] wraps the failure: its message is prefixed with
    [failed to process ollama response: ], and unwrapping it gives the
    handler's value. *)
Theorem C5_OnJson_failure_stops_the_run_and_is_wrapped :
  forall (State : Type) (decode : bytes -> Object + error) (body : Reader)
         (request : Request State) (st : State)
         (tr1 tr2 : list Event) (res : Response) (e : error),
    trace (Query decode body request st) = tr1 ++ EvOnJson res (Some e) :: tr2 ->
    tr2 = [] /\
    outcome (Query decode body request st)
      = Returns (Some (Errorf "failed to process ollama response: " e)) /\
    Unwrap (Errorf "failed to process ollama response: " e) = Some e.
Proof.
  intros State decode body request st tr1 tr2 res e Htr.
  destruct (Query_ending State decode body request st) as (Hend & _).
  assert (Hf : failed (EvOnJson res (Some e)) = true) by reflexivity.
  destruct Hend as [_ (tr & Ht & Hc)|e' _ _ Hc|e' _ _ Hc|res' e' Ho (tr & Ht & Hc)
                   |bs e' _ (tr & Ht & Hc)|_ Hc];
    try (exfalso; exact (clean_no_failed _ _ _ _ Hc Hf Htr));
    rewrite Ht in Htr;
    destruct (failed_is_last _ _ _ _ _ Hc Hf Htr) as (-> & Hev & _);
    try discriminate.
  injection Hev as _ <-. auto.
Qed.

(** The five-event stream: the second call of [OnJson] fails and is the
    last event. *)
Lemma C5_witness :
  trace run_five_events
    = [EvScan true; EvOnJson (event "Hello" false) None; EvScan true]
        ++ EvOnJson (event ", " false) (Some sentinel) :: [] /\
  outcome run_five_events
    = Returns (Some (Errorf "failed to process ollama response: " sentinel)).
Proof.
  assert (H : trace run_five_events
              = [EvScan true; EvOnJson (event "Hello" false) None; EvScan true]
                  ++ EvOnJson (event ", " false) (Some sentinel) :: [])
    by (vm_compute; reflexivity).
  split; [exact H|].
  exact (proj1 (proj2 (C5_OnJson_failure_stops_the_run_and_is_wrapped
                         nat json_line (in_one_read five_events)
                         {| OnJson := Some fails_at_second; OnCodeBlock := None |} 0
                         _ _ _ _ H))).
Defined.

(** Counterexample to C6 as stated: the buffer holds a closed [go] fence and
    an open [py] fence; the next fragment would close the [py] fence (the
    whole text holds both blocks), yet the [py] block is in no batch. *)
Lemma C6_counterexample :
  In py_block (ParseCodeBlock (closed_then_open ++ closing)) /\
  batches (trace run_closed_then_open) = [[go_block]] /\
  ~ In py_block (concat (batches (trace run_closed_then_open))).
Proof.
  assert (H : batches (trace run_closed_then_open) = [[go_block]])
    by (vm_compute; reflexivity).
  split; [vm_compute; auto|]. split; [exact H|]. rewrite H. simpl.
  intros [E|[]]. discriminate E.
Qed.

(** C6 (amended).  When a batch has been extracted the buffer is empty,
    whatever followed the closed fences in it: the text of an open fence is
    dropped with the rest, and the next fragment is scanned on its own. *)
Theorem C6_reset_drops_the_open_fence :
  forall (text text' fragment : bytes) (res1 res2 : Response) (batch : list CodeBlock),
    analyse text res1 = Some (text', Some batch) ->
    Response_ res2 = Some fragment ->
    text' = [] /\
    analyse text' res2
      = Some (if 0 <? length (ParseCodeBlock fragment)
              then ([], Some (ParseCodeBlock fragment))
              else (fragment, None)).
Proof.
  intros text text' fragment res1 res2 batch H1 H2.
  pose proof (analyse_spec text res1) as Ha. rewrite H1 in Ha.
  destruct Ha as (f1 & _ & _ & _ & ->). split; [reflexivity|].
  unfold analyse. rewrite H2. simpl.
  destruct (0 <? length (ParseCodeBlock fragment)); reflexivity.
Qed.

(** The closed [go] fence is extracted, the open [py] fence is dropped: the
    fragment that would close it is kept as a text without fence. *)
Lemma C6_witness :
  analyse [] (fragment_only closed_then_open) = Some ([], Some [go_block]) /\
  analyse [] (fragment_only closing) = Some (closing, None).
Proof.
  assert (H : analyse [] (fragment_only closed_then_open) = Some ([], Some [go_block]))
    by (vm_compute; reflexivity).
  split; [exact H|].
  exact (proj2 (C6_reset_drops_the_open_fence
                  [] [] closing (fragment_only closed_then_open) (fragment_only closing)
                  [go_block] H eq_refl)).
Defined.

(** Counterexample to C7 as stated: a fence whose opening marker is followed
    by a line feed yields a block whose tag is not empty (it is the last
    backtick of the marker). *)
Lemma C7_counterexample :
  ParseCodeBlock bare_fence = [ {| Type_ := [backtick]; Code := newline :: str "code" |} ] /\
  ~ exists b, In b (ParseCodeBlock bare_fence) /\ Type_ b = [].
Proof.
  assert (H : ParseCodeBlock bare_fence
              = [ {| Type_ := [backtick]; Code := newline :: str "code" |} ])
    by (vm_compute; reflexivity).
  split; [exact H|]. rewrite H. intros (b & [<-|[]] & Hb). discriminate Hb.
Qed.

(** C7 (amended).  No extracted block has an empty language tag: the tag
    of every block is a run of one or more characters none of which is white
    space. *)
Theorem C7_language_tag_is_never_empty :
  forall text : bytes,
    Forall (fun b => Type_ b <> [] /\
                     forallb (fun c => negb (is_space c)) (Type_ b) = true)
           (ParseCodeBlock text).
Proof.
  intros text. rewrite ParseCodeBlock_map, Forall_map.
  eapply Forall_impl; [|apply FindAll_matches].
  intros m Hm. apply match_at_closed_fence in Hm. tauto.
Qed.

(** Counterexample to C8 as stated: the same [MaxScanTokenSize] bytes
    without separator, in reads that fill the buffer as it grows.  When the
    last read brings its bytes together with the end of the body, they are one
    token; when the end of the body comes in a read of its own, the scanner
    finds its buffer full first and stops with [ErrTooLong], without a
    token. *)
Lemma C8_counterexample :
  concat filling_reads ++ last_read = long_token /\
  concat (filling_reads ++ [last_read]) ++ [] = long_token /\
  tokens [newline] filling_reads last_read = Some ([long_token], None) /\
  tokens [newline] (filling_reads ++ [last_read]) [] = Some ([], Some ErrTooLong).
Proof.
  destruct filling_reads_long_token as (H0 & H1 & H2).
  assert (Hne : Forall (fun c => c <> []) (filling_reads ++ [last_read])).
  { repeat constructor; apply letters_not_empty; lia. }
  split; [exact H1|]. split; [now rewrite app_nil_r|]. split.
  - rewrite <- H1. apply tokens_whole.
    + discriminate.
    + apply Forall_app in Hne. tauto.
    + rewrite H1. apply letters_no_newline.
    + rewrite H0, letters_length by lia. reflexivity.
    + rewrite H1. apply letters_not_empty. reflexivity.
  - apply tokens_too_long.
    + exact Hne.
    + rewrite H2. apply letters_no_newline.
    + rewrite H2. unfold long_token. rewrite letters_length by discriminate. lia.
Qed.

(** C8 (amended).  With a non-empty separator, on every body that fits the
    buffer (each token with its separator has at most [MaxScanTokenSize]
    bytes, the bytes after the last separator are fewer), the scanner yields
    its tokens without error, and they depend on the bytes alone, not on how
    the bytes are cut into reads: two ways of cutting the same bytes into
    non-empty chunks (the last of which may come together with the end of the
    body) give the same tokens.  In particular a separator cut anywhere by a
    read boundary is found as if it had come in one piece. *)
Theorem C8_tokens_do_not_depend_on_chunking :
  forall (sep : bytes) (chunks1 chunks2 : list bytes) (last1 last2 : bytes),
    sep <> [] ->
    Forall (fun c => c <> []) chunks1 ->
    Forall (fun c => c <> []) chunks2 ->
    concat chunks1 ++ last1 = concat chunks2 ++ last2 ->
    fits sep (concat chunks1 ++ last1) ->
    (exists toks, tokens sep chunks1 last1 = Some (toks, None)) /\
    tokens sep chunks1 last1 = tokens sep chunks2 last2 /\
    (forall (a b : bytes) (k : nat),
        0 < k < length sep ->
        fits sep (a ++ sep ++ b) ->
        tokens sep [a ++ firstn k sep; skipn k sep ++ b] []
        = tokens sep [a ++ sep ++ b] []).
Proof.
  intros sep chunks1 chunks2 last1 last2 Hsep H1 H2 Heq Hf.
  destruct (tokens_chunking sep chunks1 chunks2 last1 last2 Hsep H1 H2 Heq Hf)
    as [Ht Hsame].
  repeat split; auto.
  intros a b k Hk Hfab.
  assert (Hcut : concat [a ++ firstn k sep; skipn k sep ++ b] ++ [] = a ++ sep ++ b).
  { simpl. rewrite !app_nil_r, <- app_assoc.
    rewrite (app_assoc (firstn k sep)), firstn_skipn. reflexivity. }
  apply (tokens_chunking sep); auto.
  - repeat constructor.
    + intros H. apply (f_equal (@length ascii)) in H.
      rewrite length_app, length_firstn in H. simpl in H. lia.
    + intros H. apply (f_equal (@length ascii)) in H.
      rewrite length_app, length_skipn in H. simpl in H. lia.
  - repeat constructor. destruct sep; [contradiction|]. destruct a; discriminate.
  - rewrite Hcut. simpl. now rewrite !app_nil_r.
  - rewrite Hcut. exact Hfab.
Qed.

(** The bytes [a||b||c] cut inside both separators, the last chunk coming
    with the end of the body, against the same bytes in one read. *)
Lemma C8_witness :
  tokens (str "||") [str "a|"; str "|b|"] (str "|c")
    = Some ([str "a"; str "b"; str "c"], None) /\
  tokens (str "||") [str "a|"; str "|b|"] (str "|c")
    = tokens (str "||") [str "a||b||c"] [] /\
  tokens (str "||") [str "a" ++ firstn 1 (str "||"); skipn 1 (str "||") ++ str "b"] []
    = tokens (str "||") [str "a" ++ str "||" ++ str "b"] [].
Proof.
  destruct (C8_tokens_do_not_depend_on_chunking
              (str "||") [str "a|"; str "|b|"] [str "a||b||c"] (str "|c") [])
    as (_ & Hsame & Hcut).
  - discriminate.
  - repeat constructor; discriminate.
  - repeat constructor; discriminate.
  - reflexivity.
  - fits_check.
  - split; [vm_compute; reflexivity|]. split; [exact Hsame|].
    apply Hcut; [simpl; lia|fits_check].
Defined.

(** C9.  Each step of the extractor scans the whole buffer, that is the
    text kept so far with the new fragment appended.  When the scan finds
    closed fences, all of them make one batch, in the order of their opening
    markers in the buffer (each match lies after the end of the one before),
    and the buffer becomes empty; when it finds none, there is no batch and the
    buffer is the old text followed by the fragment.  And [Query] does this
    for the fragment of every line: with [OnCodeBlock] set, on a body that
    ends with [io.EOF] and whose lines carry the fragments [fragments], the
    batches handed to [OnCodeBlock] are, in order, batches of the extractor of
    the specification run over [fragments]; when [Query] returns nil they are
    all its batches and the buffer is the one it leaves; and [Query] does
    return nil when no handler fails. *)
Theorem C9_whole_buffer_is_scanned_and_one_batch_delivered :
  (forall (text fragment : bytes) (res : Response),
      Response_ res = Some fragment ->
      let found := FindAll CodeBlockRegExp (text ++ fragment) in
      ParseCodeBlock (text ++ fragment) = map block_of found /\
      in_order 0 found /\
      Forall (located (text ++ fragment)) found /\
      (found <> [] -> analyse text res = Some ([], Some (map block_of found))) /\
      (found = [] -> analyse text res = Some (text ++ fragment, None))) /\
  (forall (State : Type) (decode : bytes -> Object + error)
          (request : Request State) (h : handler State (list CodeBlock)) (st : State)
          (chunks : list bytes) (last : bytes),
      Forall (fun c => c <> []) chunks ->
      OnCodeBlock request = Some h ->
      exists ls e,
        tokens [newline] chunks last = Some (ls, e) /\
        forall fragments,
          carries decode ls fragments ->
          let run := Query decode (reader_of chunks last) request st in
          (exists k, batches (trace run) = firstn k (fst (fence_extractor [] fragments))) /\
          (outcome run = Returns None ->
           batches (trace run) = fst (fence_extractor [] fragments) /\
           buffer run = snd (fence_extractor [] fragments)) /\
          (OnJson request = None -> (forall bs s, snd (h bs s) = None) ->
           outcome run = Returns None)).
Proof.
  split.
  - intros text fragment res Hres found.
    pose proof (FindAll_matches (text ++ fragment)) as [Hm Ho].
    pose proof (ParseCodeBlock_map (text ++ fragment)) as Hp.
    fold found in Hm, Ho, Hp.
    split; [exact Hp|]. split; [exact Ho|].
    split; [eapply Forall_impl; [|exact Hm]; apply match_at_located|].
    unfold analyse. rewrite Hres, Hp.
    split; intros Hf.
    + destruct found; [contradiction|reflexivity].
    + rewrite Hf. reflexivity.
  - intros State decode request h st chunks last Hne Hh.
    destruct (Query_lines State decode request st chunks last Hne) as (ls & e & Ht & Hr).
    exists ls, e. split; [exact Ht|]. intros fragments Hc run.
    rewrite Hh in Hr. cbn [is_nil negb] in Hr.
    exact (handle_lines_batches State decode request h Hh _ _ _ _ _ _ _ _ _ _ Hc
             (eq_sym Hr)).
Qed.

(** Two fences in one fragment: one batch, [python] before [bash], and the
    buffer is empty afterwards. *)
Lemma C9_witness :
  map (fun m => (m_start m, m_end m)) (FindAll CodeBlockRegExp ([] ++ two_fences))
    = [(0, 24); (32, 50)] /\
  analyse [] (fragment_only two_fences) = Some ([], Some [python_block; bash_block]) /\
  outcome run_two_fences = Returns None /\
  batches (trace run_two_fences) = [[python_block; bash_block]] /\
  buffer run_two_fences = [].
Proof.
  split; [vm_compute; reflexivity|].
  destruct C9_whole_buffer_is_scanned_and_one_batch_delivered as [Hstep Hrun].
  split.
  - destruct (Hstep [] two_fences (fragment_only two_fences) eq_refl)
      as (_ & _ & _ & Hsome & _).
    rewrite Hsome; [vm_compute; reflexivity|]. vm_compute. discriminate.
  - destruct (Hrun (list CodeBlock) json_line with_OnCodeBlock keep_blocks []
                [line (fragment_only two_fences)] [])
      as (ls & e & Ht & Hq).
    + repeat constructor. discriminate.
    + reflexivity.
    + vm_compute in Ht. injection Ht as <- <-.
      destruct (Hq [two_fences]) as (_ & Hnil & Hok).
      * repeat constructor. eexists. split; vm_compute; reflexivity.
      * pose proof (Hok eq_refl (fun _ _ => eq_refl)) as Ho.
        split; [exact Ho|]. destruct (Hnil Ho) as [Hb Hbuf].
        unfold run_two_fences. rewrite Hb, Hbuf. split; vm_compute; reflexivity.
Defined.

(** C10 (defect of the code).  A fence that three backticks open and that
    no run of three backticks closes is open, as the specification reads a
    fence; when two backticks follow a line feed in it, the pattern takes them
    for the closing marker.  So the stream whose text is [half_closed] and
    which ends there has handed the fence to [OnCodeBlock] as a block, instead
    of dropping it.  A fence after which no such line comes is dropped: the
    stream that ends inside a [go] fence returns nil without a batch. *)
Theorem C10_fence_followed_by_two_backticks_is_delivered :
  index_of half_closed (str "```") = Some 0 /\
  index_of (skipn 3 half_closed) (str "```") = None /\
  outcome run_half_closed = Returns None /\
  trace run_half_closed
    = [ EvScan true;
        EvOnCodeBlock [ {| Type_ := str "go"; Code := newline :: str "x := 1" |} ] None;
        EvScan false ] /\
  buffer run_half_closed = [] /\
  outcome run_open_fence = Returns None /\
  batches (trace run_open_fence) = [] /\
  buffer run_open_fence = str "see ```go" ++ [newline] ++ str "x := 1".
Proof. vm_compute. repeat split; reflexivity. Qed.

(** * Further properties of the code *)

(** ** [SplitAt] keeps to the contract of a split function *)

(** X1.  For a separator that is not empty, the split function keeps to the
    contract of [bufio.SplitFunc]: it never fails, it advances within the
    data and past every token it gives, the token is the bytes before the
    first separator (or all the data at the end of the stream) and holds no
    separator, and it asks for more data only when the data holds no
    separator and the stream goes on or the data is empty. *)
Theorem SplitAt_contract (sep data : bytes) (atEOF : bool) :
  sep <> [] ->
  let '(advance, tok, e) := SplitAt sep data atEOF in
  e = None /\
  (0 <= advance <= len data)%Z /\
  match tok with
  | Some t =>
      (0 < advance)%Z /\
      (exists rest, data = t ++ rest) /\
      index_of t sep = None /\
      (index_of data sep = None -> atEOF = true /\ t = data /\ advance = len data) /\
      (forall i, index_of data sep = Some i ->
                 t = firstn i data /\ advance = Z.of_nat (i + length sep))
  | None =>
      advance = 0%Z /\ index_of data sep = None /\ (atEOF = false \/ data = [])
  end.
Proof.
  intros Hsep.
  destruct (index_of data sep) as [i|] eqn:Hi.
  - rewrite (SplitAt_found sep data atEOF i Hsep Hi).
    pose proof (index_of_bound _ _ _ Hi) as Hb.
    assert (0 < length sep) by (destruct sep; [contradiction|simpl; lia]).
    split; [reflexivity|]. unfold len. split; [lia|]. split; [lia|].
    split; [exists (skipn i data); now rewrite firstn_skipn|].
    split; [now apply index_of_first|].
    split; [discriminate|]. intros j Hj. injection Hj as <-. auto.
  - destruct atEOF.
    + rewrite (SplitAt_final sep data Hi). destruct data as [|c data]; simpl.
      * repeat split; auto; unfold len; simpl; lia.
      * split; [reflexivity|]. unfold len. simpl length. split; [lia|]. split; [lia|].
        split; [exists []; now rewrite app_nil_r|].
        split; [exact Hi|]. split; [auto|discriminate].
    + rewrite (SplitAt_more sep data Hi).
      repeat split; auto; unfold len; lia.
Qed.

Lemma SplitAt_contract_witness :
  let '(advance, tok, e) := SplitAt (str "||") (str "ab||c") false in
  e = None /\
  (0 <= advance <= len (str "ab||c"))%Z /\
  match tok with
  | Some t =>
      (0 < advance)%Z /\
      (exists rest, str "ab||c" = t ++ rest) /\
      index_of t (str "||") = None /\
      (index_of (str "ab||c") (str "||") = None ->
       false = true /\ t = str "ab||c" /\ advance = len (str "ab||c")) /\
      (forall i, index_of (str "ab||c") (str "||") = Some i ->
                 t = firstn i (str "ab||c") /\ advance = Z.of_nat (i + length (str "||")))
  | None =>
      advance = 0%Z /\ index_of (str "ab||c") (str "||") = None /\
      (false = false \/ str "ab||c" = [])
  end.
Proof.
  apply (SplitAt_contract (str "||") (str "ab||c") false). discriminate.
Defined.

(** ** The tokens of a body *)

(** The tokens of a body are those of the scanner that has met the end with
    all the bytes in its window. *)
Lemma tokens_at_end (sep : bytes) (chunks : list bytes) (last : bytes) :
  sep <> [] -> Forall (fun c => c <> []) chunks ->
  fits sep (concat chunks ++ last) ->
  forall fuel,
    scan_all fuel (NewSplitScanner (reader_of chunks last) sep)
    = scan_all fuel (at_end sep (concat chunks ++ last) None).
Proof.
  intros Hsep Hne Hf fuel.
  transitivity (scan_all fuel (feeding sep (concat chunks ++ last) [] [] None)).
  - apply (scan_all_ahead sep Hsep). right. left. exists [], chunks, last, None. auto.
  - symmetry. apply (scan_all_ahead sep Hsep). right. right.
    exists (concat chunks ++ last), None. auto.
Qed.

(** ** Splitting, then joining *)

Lemma at_end_rebuild (sep : bytes) (Hsep : sep <> []) :
  forall fuel w tok toks e,
    scan_all fuel (at_end sep w tok) = Some (toks, e) ->
    Forall (fun t => index_of t sep = None) toks /\
    (terminated sep toks = w \/ terminated sep toks = w ++ sep).
Proof.
  induction fuel as [|fuel IH]; intros w tok toks e H; [discriminate|].
  cbn [scan_all] in H. rewrite (Scan_at_end sep w tok Hsep) in H.
  destruct (index_of w sep) as [i|] eqn:Hi.
  - destruct (scan_all fuel _) as [[toks' e']|] eqn:Ha; [|discriminate].
    injection H as <- <-.
    destruct (IH _ _ _ _ Ha) as [Hall Hr].
    pose proof (index_of_split sep w i Hi) as Hw.
    split; [constructor; [now apply index_of_first|exact Hall]|].
    unfold terminated in *. cbn [flat_map].
    change (Bytes (at_end sep (skipn (i + length sep) w) (Some (firstn i w))))
      with (firstn i w).
    destruct Hr as [Hr|Hr]; [left|right]; rewrite Hr.
    all: rewrite Hw at 3; now rewrite <- !app_assoc.
  - destruct (nonempty w) eqn:Hw.
    + destruct fuel as [|fuel]; [discriminate|]. cbn [scan_all] in H.
      rewrite (Scan_at_end sep [] (Some w) Hsep), (index_of_empty sep Hsep) in H.
      simpl in H. injection H as <- <-.
      split; [constructor; auto|]. right. unfold terminated; simpl.
      now rewrite app_nil_r.
    + injection H as <- <-. split; [constructor|]. left.
      destruct w; [reflexivity|discriminate].
Qed.

(** X2.  For every body that fits the buffer, the tokens followed by the
    separator, put end to end, are the body, or the body and one more
    separator; and no token holds the separator. *)
Theorem tokens_rebuild_the_body (sep : bytes) (chunks : list bytes) (last : bytes)
        (toks : list bytes) (e : option error) :
  sep <> [] ->
  Forall (fun c => c <> []) chunks ->
  fits sep (concat chunks ++ last) ->
  tokens sep chunks last = Some (toks, e) ->
  Forall (fun t => index_of t sep = None) toks /\
  (terminated sep toks = concat chunks ++ last \/
   terminated sep toks = (concat chunks ++ last) ++ sep).
Proof.
  intros Hsep Hne Hf H. unfold tokens in H. rewrite tokens_at_end in H by assumption.
  exact (at_end_rebuild sep Hsep _ _ _ _ _ H).
Qed.

Lemma tokens_rebuild_the_body_witness :
  tokens (str "||") [str "a|"; str "|b|"] (str "|c")
    = Some ([str "a"; str "b"; str "c"], None) /\
  terminated (str "||") [str "a"; str "b"; str "c"] = str "a||b||c" ++ str "||".
Proof.
  assert (H : tokens (str "||") [str "a|"; str "|b|"] (str "|c")
              = Some ([str "a"; str "b"; str "c"], None)) by (vm_compute; reflexivity).
  split; [exact H|].
  destruct (tokens_rebuild_the_body (str "||") [str "a|"; str "|b|"] (str "|c") _ _
              ltac:(discriminate) ltac:(repeat constructor; discriminate)
              ltac:(fits_check) H)
    as [_ [Hr|Hr]]; [discriminate Hr|exact Hr].
Defined.

(** ** Joining, then splitting *)

Lemma sep_free_index (sep t rest : bytes) :
  sep_free sep t -> index_of ((t ++ sep) ++ rest) sep = Some (length t).
Proof. intros H. now apply index_of_app. Qed.

Lemma at_end_joined (sep : bytes) (Hsep : sep <> []) (tail : bytes) :
  index_of tail sep = None ->
  forall toks tok,
    Forall (sep_free sep) toks ->
    exists e,
      scan_all (length toks + 2) (at_end sep (terminated sep toks ++ tail) tok)
      = Some (toks ++ (if nonempty tail then [tail] else []), e).
Proof.
  intros Htail. induction toks as [|t toks IH]; intros tok Hall.
  - simpl terminated. simpl app at 1. simpl length. cbn [Nat.add scan_all].
    rewrite (Scan_at_end sep tail tok Hsep), Htail.
    destruct (nonempty tail) eqn:Hn.
    + rewrite (Scan_at_end sep [] (Some tail) Hsep), (index_of_empty sep Hsep).
      simpl. eauto.
    + simpl. eauto.
  - inversion Hall as [|? ? Ht Hall']; subst.
    unfold terminated. cbn [flat_map]. fold (terminated sep toks).
    simpl length. cbn [Nat.add scan_all].
    rewrite (Scan_at_end sep _ tok Hsep).
    rewrite <- (app_assoc (t ++ sep)).
    rewrite (sep_free_index sep t _ Ht).
    rewrite firstn_app_le, skipn_app_le by (rewrite length_app; lia).
    rewrite <- length_app, skipn_all, firstn_app_le by lia.
    rewrite firstn_all. simpl app at 1.
    destruct (IH (Some t) Hall') as [e He].
    simpl app. unfold bytes in *. rewrite He.
    exists e. reflexivity.
Qed.

(** Tokens that fit the buffer make a body that fits it. *)
Lemma fits_terminated (sep : bytes) (toks : list bytes) (tail : bytes) :
  Forall (sep_free sep) toks ->
  Forall (short sep) toks ->
  index_of tail sep = None ->
  (len tail < MaxScanTokenSize)%Z ->
  fits sep (terminated sep toks ++ tail).
Proof.
  intros Hall Hshort Htail Hl. induction toks as [|t toks IH].
  - now apply fits_tail.
  - inversion Hall as [|? ? Ht Hall']; inversion Hshort as [|? ? Hs Hshort']; subst.
    unfold terminated. cbn [flat_map]. fold (terminated sep toks).
    rewrite <- (app_assoc (t ++ sep)).
    apply fits_token with (i := length t).
    + now apply sep_free_index.
    + unfold short, len in Hs. lia.
    + rewrite <- length_app, skipn_app_le, skipn_all by lia. now apply IH.
Qed.

Lemma tokens_joined
        (sep : bytes) (toks : list bytes) (tail : bytes)
        (chunks : list bytes) (last : bytes) :
  sep <> [] ->
  Forall (sep_free sep) toks ->
  Forall (short sep) toks ->
  index_of tail sep = None ->
  (len tail < MaxScanTokenSize)%Z ->
  Forall (fun c => c <> []) chunks ->
  concat chunks ++ last = terminated sep toks ++ tail ->
  tokens sep chunks last
  = Some (toks ++ (if nonempty tail then [tail] else []), None).
Proof.
  intros Hsep Hall Hshort Htail Hl Hne Hbody.
  assert (Hf : fits sep (concat chunks ++ last)).
  { rewrite Hbody. now apply fits_terminated. }
  destruct (tokens_chunking sep chunks chunks last last Hsep Hne Hne eq_refl Hf)
    as [[toks0 H0] _].
  rewrite H0. unfold tokens in H0. rewrite tokens_at_end in H0 by assumption.
  rewrite Hbody in H0.
  destruct (at_end_joined sep Hsep tail Htail toks None Hall) as [e He].
  set (F := S (Scanner_size (NewSplitScanner (reader_of chunks last) sep))) in H0.
  pose proof (scan_all_more_fuel _ _ _ H0 (F + (length toks + 2)) ltac:(lia)) as H1.
  pose proof (scan_all_more_fuel _ _ _ He (F + (length toks + 2)) ltac:(lia)) as H2.
  rewrite H1 in H2. injection H2 as -> _. reflexivity.
Qed.


(** X3.  Every list of tokens that are free of the separator and, with it,
    no longer than [MaxScanTokenSize], each followed by the separator, and a
    last piece without separator that is shorter than [MaxScanTokenSize], is
    split back into the same tokens (and the last piece when it is not
    empty), however the bytes come in, and the scanner reports no error. *)
Theorem joined_tokens_are_split_back
        (sep : bytes) (toks : list bytes) (tail : bytes)
        (chunks : list bytes) (last : bytes) :
  sep <> [] ->
  Forall (sep_free sep) toks ->
  Forall (short sep) toks ->
  index_of tail sep = None ->
  (len tail < MaxScanTokenSize)%Z ->
  Forall (fun c => c <> []) chunks ->
  concat chunks ++ last = terminated sep toks ++ tail ->
  tokens sep chunks last
  = Some (toks ++ (if nonempty tail then [tail] else []), None).
Proof. apply tokens_joined. Qed.

Lemma joined_tokens_are_split_back_witness :
  tokens (str "||") [str "a|"; str "|b|"] (str "|c")
  = Some ([str "a"; str "b"; str "c"], None).
Proof.
  apply (joined_tokens_are_split_back (str "||") [str "a"; str "b"] (str "c")
           [str "a|"; str "|b|"] (str "|c")).
  - discriminate.
  - repeat constructor.
  - repeat constructor; vm_compute; discriminate.
  - reflexivity.
  - reflexivity.
  - repeat constructor; discriminate.
  - reflexivity.
Defined.

(** ** The empty separator *)

Lemma Scan_stuck (c : bytes) (rd : Reader) :
  c <> [] -> Scan (stuck c rd None 0) = Scanned true (stuck c rd None 0).
Proof.
  intros Hc. destruct c as [|x c]; [contradiction|]. reflexivity.
Qed.

(** X4.  With the empty separator and a first read that brings bytes without
    ending the body, every call of [Scan] answers true with an empty token:
    the window is never consumed and the reader is never asked again. *)
Theorem empty_separator_never_advances (c : bytes) (rd : Reader) (n : nat) :
  c <> [] ->
  Scan_times (S n) (NewSplitScanner (Chunk c rd) []) = Scanned true (stuck c rd None 0).
Proof.
  intros Hc.
  assert (H1 : Scan (NewSplitScanner (Chunk c rd) []) = Scanned true (stuck c rd None 0)).
  { destruct c as [|x c]; [contradiction|]. reflexivity. }
  cbn [Scan_times]. rewrite H1. clear H1.
  induction n as [|n IH]; [reflexivity|].
  cbn [Scan_times]. now rewrite (Scan_stuck c rd Hc).
Qed.

Lemma empty_separator_never_advances_witness :
  Scan_times 1000 (NewSplitScanner (Chunk (str "ab") (Ends [] EOF)) [])
  = Scanned true (stuck (str "ab") (Ends [] EOF) None 0).
Proof.
  apply (empty_separator_never_advances (str "ab") (Ends [] EOF) 999).
  discriminate.
Defined.

Lemma Scan_stuck_at_end (c : bytes) (e : error) (n : nat) :
  c <> [] ->
  Scan (stuck c (Ends [] e) (Some e) n) =
    if maxConsecutiveEmptyReads <? S n
    then ScanPanic "bufio.Scan: too many empty tokens without progressing"
    else Scanned true (stuck c (Ends [] e) (Some e) (S n)).
Proof.
  intros Hc. destruct c as [|x c]; [contradiction|].
  unfold Scan, scan_split. cbn [done stuck window err nonempty orb is_nil negb split r empties].
  unfold SplitAt. cbn -[Nat.ltb maxConsecutiveEmptyReads].
  destruct (maxConsecutiveEmptyReads <? S n); reflexivity.
Qed.

Lemma Scan_times_stuck_at_end (c : bytes) (e : error) :
  c <> [] ->
  forall j n, n + j = maxConsecutiveEmptyReads ->
    Scan_times (S j) (stuck c (Ends [] e) (Some e) n)
    = ScanPanic "bufio.Scan: too many empty tokens without progressing".
Proof.
  intros Hc. induction j as [|j IH]; intros n Hn.
  - cbn [Scan_times]. rewrite (Scan_stuck_at_end c e n Hc).
    replace (maxConsecutiveEmptyReads <? S n) with true; [reflexivity|].
    symmetry. apply Nat.ltb_lt. lia.
  - cbn [Scan_times]. rewrite (Scan_stuck_at_end c e n Hc).
    replace (maxConsecutiveEmptyReads <? S n) with false.
    + apply IH. lia.
    + symmetry. apply Nat.ltb_ge. lia.
Qed.

Lemma Scan_times_stuck_before (c : bytes) (e : error) :
  c <> [] ->
  forall j n, n + j <= maxConsecutiveEmptyReads ->
    Scan_times j (stuck c (Ends [] e) (Some e) n)
    = Scanned true (stuck c (Ends [] e) (Some e) (n + j)).
Proof.
  intros Hc. induction j as [|j IH]; intros n Hn.
  - cbn [Scan_times]. now rewrite Nat.add_0_r.
  - cbn [Scan_times]. rewrite (Scan_stuck_at_end c e n Hc).
    replace (maxConsecutiveEmptyReads <? S n) with false.
    + rewrite IH by lia. f_equal. f_equal. lia.
    + symmetry. apply Nat.ltb_ge. lia.
Qed.

(** X5.  With the empty separator and a body that ends with its first,
    non-empty read, the scanner hands out empty tokens without advancing and
    the call of [Scan] after the hundredth empty token panics. *)
Theorem empty_separator_panics_at_end (c : bytes) (e : error) :
  c <> [] ->
  (forall n, 0 < n <= maxConsecutiveEmptyReads ->
     Scan_times n (NewSplitScanner (Ends c e) [])
     = Scanned true (stuck c (Ends [] e) (Some e) n)) /\
  Scan_times (S maxConsecutiveEmptyReads) (NewSplitScanner (Ends c e) [])
    = ScanPanic "bufio.Scan: too many empty tokens without progressing".
Proof.
  intros Hc.
  assert (H1 : Scan (NewSplitScanner (Ends c e) [])
               = Scanned true (stuck c (Ends [] e) (Some e) 1)).
  { destruct c as [|x c]; [contradiction|]. reflexivity. }
  split.
  - intros [|n] Hn; [lia|]. cbn [Scan_times]. rewrite H1.
    rewrite (Scan_times_stuck_before c e Hc n 1) by lia. reflexivity.
  - cbn [Scan_times]. rewrite H1.
    apply (Scan_times_stuck_at_end c e Hc 99 1). reflexivity.
Qed.

Lemma empty_separator_panics_at_end_witness :
  Scan_times 101 (NewSplitScanner (Ends (str "ab") EOF) [])
  = ScanPanic "bufio.Scan: too many empty tokens without progressing".
Proof.
  apply (empty_separator_panics_at_end (str "ab") EOF). discriminate.
Defined.

Lemma Err_at_end (sep w : bytes) (tok : option bytes) :
  Err (at_end sep w tok) = None.
Proof. reflexivity. Qed.

Lemma Bytes_at_end (sep w t : bytes) : Bytes (at_end sep w (Some t)) = t.
Proof. reflexivity. Qed.

Lemma Err_breaking (e : error) (sep w : bytes) (chunks : list bytes) (last : bytes)
      (tok : option bytes) :
  Err (breaking e sep w chunks last tok) = None.
Proof. reflexivity. Qed.

Lemma Bytes_breaking (e : error) (sep w : bytes) (chunks : list bytes) (last t : bytes) :
  Bytes (breaking e sep w chunks last (Some t)) = t.
Proof. reflexivity. Qed.

(** The body of the loop after a token came without error: both loops go
    the same way, and the tactic [IH] closes the turns that follow. *)
Ltac same_turn IH :=
  cbn [handle_lines]; cbn zeta;
  rewrite ?Err_at_end, ?Bytes_at_end, ?Err_breaking, ?Bytes_breaking;
  match goal with
  | |- context [Unmarshal ?d ?t ?res] =>
      destruct (Unmarshal d t res) as [?res|?e]; [|reflexivity]
  end;
  match goal with
  | |- context [OnJson ?request] => destruct (OnJson request) as [?h|]
  end;
  [ match goal with
    | |- context [?h ?res ?st] =>
        match type of h with handler _ _ => destruct (h res st) as [?st [?e|]] end
    end; [reflexivity|] | ];
  (match goal with
   | |- context [if ?b then _ else _] => destruct b; [|IH]
   end;
   match goal with
   | |- context [analyse ?text ?res] =>
       destruct (analyse text res) as [[?text [?blocks|]]|];
       [| IH | reflexivity]
   end;
   match goal with
   | |- context [OnCodeBlock ?request] =>
       destruct (OnCodeBlock request) as [?h|]; [|reflexivity]
   end;
   match goal with
   | |- context [let '(_, _) := ?h ?blocks ?st in _] =>
       destruct (h blocks st) as [?st [?e|]]; [reflexivity|IH]
   end).

Section Returning.
Variable State : Type.
Variable decode : bytes -> Object + error.

Lemma Query_loop_returns (request : Request State) (shouldAnalyse : bool) :
  (shouldAnalyse = true -> OnCodeBlock request <> None) ->
  forall fuel sc ls e0 res text err st tr,
    splits_at [newline] sc -> Scanner_size sc < fuel ->
    (shouldAnalyse = true ->
     scan_all fuel sc = Some (ls, e0) /\ Forall (has_fragment decode) ls) ->
    exists e,
      outcome (Query_loop decode fuel request shouldAnalyse sc res text err st tr)
      = Returns e.
Proof.
  intros Hsa.
  assert (Hnl : [newline] <> []) by discriminate.
  induction fuel as [|fuel IH]; intros sc ls e0 res text err st tr Hsc Hlt Hls; [lia|].
  cbn [Query_loop]. cbn [scan_all] in Hls.
  pose proof (Scan_ok [newline] sc Hnl Hsc) as Hscan.
  destruct (Scan sc) as [[|] sc'|]; simpl in Hscan; [| |contradiction].
  2:{ eexists; reflexivity. }
  destruct Hscan as [Hsc' Hlt']. cbn zeta.
  destruct (Err sc'); [eexists; reflexivity|].
  unfold Unmarshal.
  destruct (decode (Bytes sc')) as [o|e] eqn:Hd; [|eexists; reflexivity].
  (* the lines that follow, when they are looked at *)
  assert (Hrest : shouldAnalyse = true ->
            exists ls' e', scan_all fuel sc' = Some (ls', e') /\
                           Forall (has_fragment decode) ls' /\
                           has_fragment decode (Bytes sc')).
  { intros Hs. destruct (Hls Hs) as [H Hall].
    destruct (scan_all fuel sc') as [[ls' e']|]; [|discriminate].
    injection H as <- <-. inversion Hall; subst. eauto. }
  assert (Hnext : forall text1 st1 tr1,
    exists e,
      outcome (Query_loop decode fuel request shouldAnalyse sc' (assign o res) text1 None
                 st1 tr1) = Returns e).
  { intros text1 st1 tr1. destruct shouldAnalyse.
    - destruct (Hrest eq_refl) as (ls' & e' & Ha & Hall & _).
      apply (IH sc' ls' e'); [exact Hsc'|lia|auto].
    - apply (IH sc' [] None); [exact Hsc'|lia|discriminate]. }
  assert (Hgo : forall st1 tr1,
    exists e,
      outcome
        (if shouldAnalyse then
           match analyse text (assign o res) with
           | None =>
               mkRun (Panics "invalid memory address or nil pointer dereference")
                 st1 tr1 text sc'
           | Some (text0, None) =>
               Query_loop decode fuel request shouldAnalyse sc' (assign o res) text0 None
                 st1 tr1
           | Some (text0, Some blocks) =>
               match OnCodeBlock request with
               | None =>
                   mkRun (Panics "invalid memory address or nil pointer dereference")
                     st1 tr1 text0 sc'
               | Some h =>
                   let '(st', ret) := h blocks st1 in
                   let tr := tr1 ++ [EvOnCodeBlock blocks ret] in
                   match ret with
                   | Some e =>
                       mkRun
                         (Returns (Some (Errorf
                            "failed to process ollama response code block: " e)))
                         st' tr text0 sc'
                   | None =>
                       Query_loop decode fuel request shouldAnalyse sc' (assign o res) text0
                         None st' tr
                   end
               end
           end
         else Query_loop decode fuel request shouldAnalyse sc' (assign o res) text None
                st1 tr1)
      = Returns e).
  { intros st1 tr1. destruct shouldAnalyse eqn:Hs; [|apply Hnext].
    pose proof (Hsa eq_refl) as Hcb.
    destruct (Hrest eq_refl) as (_ & _ & _ & _ & Hfr).
    destruct (Hfr _ Hd) as [t Ht].
    unfold analyse. cbn [assign Response_]. rewrite Ht. cbn [store].
    destruct (0 <? length (ParseCodeBlock (text ++ t))); [|apply Hnext].
    destruct (OnCodeBlock request) as [h|]; [|contradiction].
    destruct (h _ st1) as [st2 [e|]]; [eexists; reflexivity|].
    apply Hnext. }
  destruct (OnJson request) as [h|].
  - destruct (h (assign o res) st) as [st' [e|]]; [eexists; reflexivity|]. apply Hgo.
  - apply Hgo.
Qed.
End Returning.

Lemma OnJson_calls_app (tr1 tr2 : list Event) :
  OnJson_calls (tr1 ++ tr2) = OnJson_calls tr1 ++ OnJson_calls tr2.
Proof. apply flat_map_app. Qed.

Section Calls.
Variable State : Type.
Variable decode : bytes -> Object + error.

Lemma handle_lines_calls (request : Request State) (shouldAnalyse : bool) (h : handler State Response) :
  OnJson request = Some h ->
  forall ls os res text st tr out st' tr' text',
    Forall2 (fun l o => decode l = inl o) ls os ->
    handle_lines decode request shouldAnalyse (@stream_ended State) ls res text st tr
      = (out, st', tr', text') ->
    (exists k, OnJson_calls tr' = OnJson_calls tr ++ firstn k (accumulate os res)) /\
    (out = Returns None -> OnJson_calls tr' = OnJson_calls tr ++ accumulate os res).
Proof.
  intros Hh.
  assert (Hstop : forall (tr : list Event) res' os' ret,
    exists k, OnJson_calls ((tr ++ [EvScan true]) ++ [EvOnJson res' ret])
              = OnJson_calls tr ++ firstn k (res' :: os')).
  { intros. exists 1. rewrite !OnJson_calls_app. simpl. now rewrite app_nil_r. }
  induction ls as [|l ls IH];
    intros os res text st tr out st' tr' text' Hdec H.
  - inversion Hdec; subst. simpl in H. injection H as <- <- <- <-.
    rewrite OnJson_calls_app. simpl. split; [exists 0|]; reflexivity.
  - inversion Hdec as [|? o ? os' Hd Hdec']; subst. cbn [handle_lines] in H.
    unfold Unmarshal in H. rewrite Hd, Hh in H. cbn zeta in H. cbn [accumulate].
    set (res' := assign o res) in *.
    assert (Hnext : forall text1 st1 tr1,
      OnJson_calls tr1 = OnJson_calls tr ++ [res'] ->
      handle_lines decode request shouldAnalyse (@stream_ended State) ls res' text1 st1 tr1
        = (out, st', tr', text') ->
      (exists k, OnJson_calls tr' = OnJson_calls tr ++ firstn k (res' :: accumulate os' res')) /\
      (out = Returns None -> OnJson_calls tr' = OnJson_calls tr ++ res' :: accumulate os' res')).
    { intros text1 st1 tr1 Htr1 H1.
      destruct (IH _ _ _ _ _ _ _ _ _ Hdec' H1) as [[k Hk] Hall].
      rewrite Htr1, <- app_assoc in Hk, Hall. split; [exists (S k); exact Hk|exact Hall]. }
    assert (Hcalls : forall ret,
      OnJson_calls ((tr ++ [EvScan true]) ++ [EvOnJson res' ret]) = OnJson_calls tr ++ [res']).
    { intros. rewrite !OnJson_calls_app. simpl. now rewrite app_nil_r. }
    destruct (h res' st) as [st1 [e|]].
    { injection H as <- <- <- <-. split; [apply Hstop|discriminate]. }
    destruct shouldAnalyse; [|exact (Hnext _ _ _ (Hcalls None) H)].
    destruct (analyse text res') as [[text1 [blocks|]]|].
    + destruct (OnCodeBlock request) as [h'|].
      * destruct (h' blocks st1) as [st2 [e|]].
        -- injection H as <- <- <- <-. split; [|discriminate].
           exists 1. rewrite !OnJson_calls_app. simpl. now rewrite !app_nil_r.
        -- refine (Hnext _ _ _ _ H). rewrite OnJson_calls_app, Hcalls. simpl.
           now rewrite app_nil_r.
      * injection H as <- <- <- <-. split; [apply Hstop|discriminate].
    + exact (Hnext _ _ _ (Hcalls None) H).
    + injection H as <- <- <- <-. split; [apply Hstop|discriminate].
Qed.
End Calls.

(** ** Properties of [Query] *)



(** X7.  What the caller of [Query] sees does not depend on how the bytes of
    the body are cut into reads, when the body fits the buffer. *)
Theorem Query_does_not_depend_on_chunking
        (State : Type) (decode : bytes -> Object + error)
        (request : Request State) (st : State)
        (chunks1 chunks2 : list bytes) (last1 last2 : bytes) :
  Forall (fun c => c <> []) chunks1 ->
  Forall (fun c => c <> []) chunks2 ->
  concat chunks1 ++ last1 = concat chunks2 ++ last2 ->
  fits [newline] (concat chunks1 ++ last1) ->
  result (Query decode (reader_of chunks1 last1) request st)
  = result (Query decode (reader_of chunks2 last2) request st).
Proof.
  intros H1 H2 Hb Hf.
  destruct (Query_lines State decode request st chunks1 last1 H1) as (l1 & e1 & Ht1 & ->).
  destruct (Query_lines State decode request st chunks2 last2 H2) as (l2 & e2 & Ht2 & ->).
  destruct (tokens_chunking [newline] chunks1 chunks2 last1 last2
              ltac:(discriminate) H1 H2 Hb Hf) as [_ He].
  rewrite He, Ht2 in Ht1. injection Ht1 as -> _. reflexivity.
Qed.

Lemma Query_does_not_depend_on_chunking_witness :
  result (Query json_line (reader_of [firstn 7 five_events; skipn 7 five_events] [])
            {| OnJson := Some collect; OnCodeBlock := None |} [])
  = result (Query json_line (reader_of [] five_events)
              {| OnJson := Some collect; OnCodeBlock := None |} []).
Proof.
  apply (Query_does_not_depend_on_chunking (list bytes) json_line
           {| OnJson := Some collect; OnCodeBlock := None |} []
           [firstn 7 five_events; skipn 7 five_events] [] [] five_events).
  - repeat constructor; intros H; vm_compute in H; discriminate H.
  - constructor.
  - vm_compute. reflexivity.
  - vm_compute. fits_check.
Defined.

(** X8.  [Query] comes to a return, for every body (also one that breaks),
    when no block handler is set, or when every line the scanner yields on
    the body either fails to decode or carries a text fragment: it neither
    panics nor reads without end. *)
Theorem Query_returns_when_fragments_are_present
        (State : Type) (decode : bytes -> Object + error)
        (body : Reader) (request : Request State) (st : State) :
  OnCodeBlock request = None \/
  (exists ls e, scanned body = Some (ls, e) /\ Forall (has_fragment decode) ls) ->
  exists e, outcome (Query decode body request st) = Returns e.
Proof.
  intros H. unfold Query.
  destruct (OnCodeBlock request) as [h|] eqn:Hh.
  - destruct H as [H|(ls & e & Hs & Hall)]; [discriminate H|].
    apply (Query_loop_returns State decode request true
             ltac:(intros _; rewrite Hh; discriminate) _ _ ls e).
    + split; reflexivity.
    + unfold Scanner_size. simpl. lia.
    + intros _. split; [exact Hs|exact Hall].
  - apply (Query_loop_returns State decode request false ltac:(discriminate)
             _ _ [] None).
    + split; reflexivity.
    + unfold Scanner_size. simpl. lia.
    + discriminate.
Qed.

Lemma Query_returns_when_fragments_are_present_witness :
  exists e,
    outcome (Query json_line
               (Chunk (line (fragment_only (str "a")) ++ str "{") (Ends [] connection_reset))
               with_OnCodeBlock [])
    = Returns e.
Proof.
  apply (Query_returns_when_fragments_are_present (list CodeBlock) json_line).
  right. exists [json_of_Response (fragment_only (str "a")); str "{"], (Some connection_reset).
  split; [vm_compute; reflexivity|].
  repeat constructor; intros o H; vm_compute in H; [|discriminate H].
  injection H as <-. eexists. reflexivity.
Defined.

(** X9.  [OnJson] receives the lines merged into one value: each line is
    decoded into the value left by the lines before (a member that is absent
    keeps what it had), the handler is called once per line, in the order of
    the lines, and when [Query] returns nil it has been called for every
    line. *)
Theorem OnJson_is_called_with_the_merged_lines
        (State : Type) (decode : bytes -> Object + error)
        (request : Request State) (h : handler State Response) (st : State)
        (chunks : list bytes) (last : bytes) (lines : list bytes) (os : list Object) :
  Forall (fun c => c <> []) chunks ->
  tokens [newline] chunks last = Some (lines, None) ->
  Forall2 (fun l o => decode l = inl o) lines os ->
  OnJson request = Some h ->
  let run := Query decode (reader_of chunks last) request st in
  (exists k, OnJson_calls (trace run) = firstn k (accumulate os zero_Response)) /\
  (outcome run = Returns None ->
   OnJson_calls (trace run) = accumulate os zero_Response).
Proof.
  intros Hne Ht Hdec Hh run.
  destruct (Query_lines State decode request st chunks last Hne)
    as (lines' & e' & Ht' & Hr).
  rewrite Ht in Ht'. injection Ht' as <- _.
  unfold result in Hr. fold run in Hr.
  exact (handle_lines_calls State decode request _ h Hh _ _ _ _ _ _ _ _ _ _ Hdec
           (eq_sym Hr)).
Qed.

Lemma OnJson_is_called_with_the_merged_lines_witness :
  OnJson_calls
    (trace (Query json_line
              (reader_of [] (line (fragment_only (str "a")) ++ line done_only))
              {| OnJson := Some collect; OnCodeBlock := None |} []))
  = [ fragment_only (str "a");
      {| Model := None; CreatedAt := None; Response_ := Some (str "a");
         Done := Some true |} ].
Proof.
  refine (proj2 (OnJson_is_called_with_the_merged_lines (list bytes) json_line
                   {| OnJson := Some collect; OnCodeBlock := None |} collect []
                   [] (line (fragment_only (str "a")) ++ line done_only)
                   [json_of_Response (fragment_only (str "a")); json_of_Response done_only]
                   [mkObject absent absent (value (str "a")) absent;
                    mkObject absent absent absent (value true)]
                   _ _ _ _) _).
  - constructor.
  - vm_compute. reflexivity.
  - repeat constructor.
  - reflexivity.
  - vm_compute. reflexivity.
Defined.

(** X10.  When [OnCodeBlock] returns a failure, that call is the last event of
    the run (no further call of a handler, no further [Scan]), the batch it
    got holds at least one block, and the result of [Query] wraps the
    failure: its message is prefixed with
    [failed to process ollama response code block: ], and unwrapping it
    gives the handler's value. *)
Theorem OnCodeBlock_failure_stops_the_run_and_is_wrapped
        (State : Type) (decode : bytes -> Object + error) (body : Reader)
        (request : Request State) (st : State)
        (tr1 tr2 : list Event) (blocks : list CodeBlock) (e : error) :
  trace (Query decode body request st) = tr1 ++ EvOnCodeBlock blocks (Some e) :: tr2 ->
  tr2 = [] /\
  blocks <> [] /\
  outcome (Query decode body request st)
    = Returns (Some (Errorf "failed to process ollama response code block: " e)) /\
  Unwrap (Errorf "failed to process ollama response code block: " e) = Some e.
Proof.
  intros Htr.
  destruct (Query_ending State decode body request st) as (Hend & _ & Hb & _).
  assert (Hf : failed (EvOnCodeBlock blocks (Some e)) = true) by reflexivity.
  assert (Hne : blocks <> []).
  { rewrite Htr, batches_app in Hb. apply Forall_app in Hb. destruct Hb as [_ Hb].
    simpl in Hb. inversion Hb as [|? ? [Hx _] _]. exact Hx. }
  destruct Hend as [_ (tr & Ht & Hc)|e' _ _ Hc|e' _ _ Hc|res' e' Ho (tr & Ht & Hc)
                   |bs e' Ho (tr & Ht & Hc)|_ Hc];
    try (exfalso; exact (clean_no_failed _ _ _ _ Hc Hf Htr));
    rewrite Ht in Htr;
    destruct (failed_is_last _ _ _ _ _ Hc Hf Htr) as (-> & Hev & _);
    try discriminate.
  injection Hev as _ <-. auto.
Qed.

Lemma OnCodeBlock_failure_stops_the_run_and_is_wrapped_witness :
  outcome (Query json_line (in_one_read (line (fragment_only go_fence)))
             {| OnJson := None; OnCodeBlock := Some block_error |} tt)
  = Returns (Some (Errorf "failed to process ollama response code block: "
                     (errorString "block error"))).
Proof.
  refine (proj1 (proj2 (proj2
    (OnCodeBlock_failure_stops_the_run_and_is_wrapped unit json_line
       (in_one_read (line (fragment_only go_fence)))
       {| OnJson := None; OnCodeBlock := Some block_error |} tt
       [EvScan true] []
       [{| Type_ := str "go"; Code := newline :: println_hi |}]
       (errorString "block error") _)))).
  vm_compute. reflexivity.
Defined.

(** ** Lines too long for the buffer *)

(** X26.  A body whose first [MaxScanTokenSize] bytes hold no separator and
    have come before the end of the body: the scanner yields no token and
    stops with [ErrTooLong], whatever follows. *)
Theorem token_too_long_stops_the_scanner
        (sep : bytes) (chunks : list bytes) (last : bytes) :
  Forall (fun c => c <> []) chunks ->
  index_of (concat chunks) sep = None ->
  (MaxScanTokenSize <= len (concat chunks))%Z ->
  tokens sep chunks last = Some ([], Some ErrTooLong).
Proof. apply tokens_too_long. Qed.

Lemma token_too_long_stops_the_scanner_witness :
  tokens [newline] (filling_reads ++ [last_read]) (str "{}") = Some ([], Some ErrTooLong).
Proof.
  destruct filling_reads_long_token as (_ & _ & H).
  apply (token_too_long_stops_the_scanner [newline] (filling_reads ++ [last_read])
           (str "{}")).
  - repeat constructor; apply letters_not_empty; lia.
  - rewrite H. apply letters_no_newline.
  - rewrite H. unfold long_token. rewrite letters_length by discriminate. lia.
Defined.

(** X27.  On such a body [Query] returns nil at the first call of [Scan]: no
    line is decoded, no handler is called, and the error the scanner holds,
    [ErrTooLong], is not reported. *)
Theorem Query_returns_nil_on_a_line_too_long
        (State : Type) (decode : bytes -> Object + error)
        (request : Request State) (st : State) (chunks : list bytes) (last : bytes) :
  Forall (fun c => c <> []) chunks ->
  index_of (concat chunks) [newline] = None ->
  (MaxScanTokenSize <= len (concat chunks))%Z ->
  let run := Query decode (reader_of chunks last) request st in
  outcome run = Returns None /\
  trace run = [EvScan false] /\
  state run = st /\
  buffer run = [] /\
  Err (scanner run) = Some ErrTooLong.
Proof.
  intros Hne Hi Hl run. unfold run, Query. cbn [Query_loop]. rewrite Scan_new.
  destruct (scan_read_too_long [newline] last chunks [] None (reader_of chunks last)
              Hne Hi) as (s' & -> & HErr).
  - cbn [app]. split; [|exact Hl]. unfold MaxScanTokenSize, len; simpl; lia.
  - cbn [outcome trace state buffer scanner app]. auto.
Qed.

Lemma Query_returns_nil_on_a_line_too_long_witness :
  outcome (Query json_line (reader_of (filling_reads ++ [last_read]) (str "{}"))
             {| OnJson := Some collect; OnCodeBlock := None |} [])
  = Returns None.
Proof.
  destruct filling_reads_long_token as (_ & _ & H).
  apply (Query_returns_nil_on_a_line_too_long (list bytes) json_line
           {| OnJson := Some collect; OnCodeBlock := None |} []
           (filling_reads ++ [last_read]) (str "{}")).
  - repeat constructor; apply letters_not_empty; lia.
  - rewrite H. apply letters_no_newline.
  - rewrite H. unfold long_token. rewrite letters_length by discriminate. lia.
Defined.

(** ** Bodies that break *)

(** The first token of a text that starts with [t] and the separator. *)
Lemma first_token (sep w x t more : bytes) (i : nat) :
  sep_free sep t ->
  w ++ x = (t ++ sep) ++ more ->
  index_of w sep = Some i ->
  firstn i w = t /\ skipn (i + length sep) w ++ x = more.
Proof.
  intros Ht Hw Hi.
  pose proof (index_of_bound _ _ _ Hi) as Hb.
  pose proof (index_of_app sep w x i Hi) as Hi'.
  rewrite Hw, (index_of_app sep (t ++ sep) more (length t) Ht) in Hi'.
  injection Hi' as <-. split.
  - rewrite <- (firstn_app_le (length t) w x) by lia.
    rewrite Hw, <- app_assoc, firstn_app, firstn_all, Nat.sub_diag. cbn [firstn].
    apply app_nil_r.
  - rewrite <- skipn_app_le by lia. rewrite Hw, <- length_app, skipn_app, skipn_all.
    now rewrite Nat.sub_diag.
Qed.

(** While the token [t] is not complete, the window is not full. *)
Lemma window_before_token (sep w x t more : bytes) :
  sep_free sep t -> short sep t ->
  w ++ x = (t ++ sep) ++ more ->
  index_of w sep = None ->
  (len w < MaxScanTokenSize)%Z.
Proof.
  intros Ht Hs Hw Hi.
  pose proof (index_of_app sep (t ++ sep) more (length t) Ht) as Hi'.
  rewrite <- Hw in Hi'.
  destruct (Nat.le_gt_cases (length t + length sep) (length w)) as [Hin|Hout].
  - rewrite (index_of_within sep w x _ Hi' Hin) in Hi. discriminate.
  - unfold short, len in *. lia.
Qed.

Section Breaking.
Variable sep : bytes.
Hypothesis Hsep : sep <> [].
Variable last : bytes.
Variable e : error.
Hypothesis He : e <> EOF.

Lemma splits_at_breaking (w : bytes) (chunks : list bytes) (tok : option bytes) :
  splits_at sep (breaking e sep w chunks last tok).
Proof. split; reflexivity. Qed.

(** Reading on until the token [t] is complete. *)
Lemma scan_read_token (t more : bytes) (Ht : sep_free sep t) (Hshort : short sep t) :
  forall chunks w tok rd,
    Forall (fun c => c <> []) chunks ->
    index_of w sep = None ->
    w ++ concat chunks = (t ++ sep) ++ more ->
    exists w' chunks',
      scan_read (broken chunks last e) 0
        {| r := rd; split := SplitAt sep; token := tok; window := w;
           err := None; empties := 0; done := false |}
      = Scanned true (breaking e sep w' chunks' last (Some t)) /\
      w' ++ concat chunks' = more /\ Forall (fun c => c <> []) chunks'.
Proof.
  induction chunks as [|c chunks IH]; intros w tok rd Hne Hi Hw.
  - exfalso. cbn [concat] in Hw. rewrite app_nil_r in Hw. subst w.
    rewrite <- app_assoc in Hi. exact (index_of_occurs sep t more Hi).
  - inversion Hne as [|? ? Hc Hne']; subst.
    assert (Hcb : nonempty c = true) by (destruct c; [contradiction|reflexivity]).
    cbn [broken scan_read]. rewrite Hcb.
    unfold after_read; cbn [window split token err done r empties].
    change {| r := broken chunks last e; split := SplitAt sep; token := tok;
              window := w ++ c; err := None; empties := 0; done := false |}
      with (breaking e sep (w ++ c) chunks last tok).
    cbn [concat] in Hw. rewrite app_assoc in Hw.
    destruct (index_of (w ++ c) sep) as [i|] eqn:Hi'.
    + rewrite (scan_split_found sep _ i Hsep (splits_at_breaking _ _ _) Hi').
      destruct (first_token sep (w ++ c) (concat chunks) t more i Ht Hw Hi') as [Hf Hs].
      exists (skipn (i + length sep) (w ++ c)), chunks.
      split; [|split; [exact Hs|exact Hne']].
      unfold with_token, breaking; cbn [window split token err done r empties].
      now rewrite Hf.
    + rewrite (scan_split_more sep _ (splits_at_breaking _ _ _) eq_refl Hi').
      cbn [window breaking].
      assert (Hwc : nonempty (w ++ c) = true).
      { destruct w; simpl; [exact Hcb|reflexivity]. }
      rewrite Hwc. unfold with_token; cbn [window split token err done r empties is_nil skipn].
      rewrite buffer_not_full
        by (cbn [window]; exact (window_before_token sep _ _ t more Ht Hshort Hw Hi')).
      now apply IH.
Qed.

Lemma Scan_token (t more : bytes) (Ht : sep_free sep t) (Hshort : short sep t)
      (chunks : list bytes) (w : bytes) (tok : option bytes) :
  Forall (fun c => c <> []) chunks ->
  w ++ concat chunks = (t ++ sep) ++ more ->
  exists w' chunks',
    Scan (breaking e sep w chunks last tok)
    = Scanned true (breaking e sep w' chunks' last (Some t)) /\
    w' ++ concat chunks' = more /\ Forall (fun c => c <> []) chunks'.
Proof.
  intros Hne Hw. unfold Scan. cbn [done breaking].
  destruct (index_of w sep) as [i|] eqn:Hi.
  - rewrite (scan_split_found sep _ i Hsep (splits_at_breaking _ _ _) Hi).
    destruct (first_token sep w (concat chunks) t more i Ht Hw Hi) as [Hf Hs].
    exists (skipn (i + length sep) w), chunks.
    split; [|split; [exact Hs|exact Hne]].
    unfold with_token, breaking; cbn [window split token err done r empties].
    now rewrite Hf.
  - rewrite (scan_split_more sep _ (splits_at_breaking _ _ _) eq_refl Hi).
    cbn [window breaking].
    pose proof (window_before_token sep _ _ t more Ht Hshort Hw Hi) as Hl.
    destruct (nonempty w); unfold with_token, breaking;
      cbn [window split token err done r empties is_nil skipn];
      rewrite buffer_not_full by exact Hl; cbn [r];
      now apply scan_read_token.
Qed.

(** The failing read: a token comes with the error when bytes are left,
    and the scan ends when none are. *)
Lemma scan_read_failing :
  forall chunks w tok rd,
    Forall (fun c => c <> []) chunks ->
    index_of (w ++ concat chunks) sep = None ->
    (len (w ++ concat chunks) < MaxScanTokenSize)%Z ->
    exists s',
      scan_read (broken chunks last e) 0
        {| r := rd; split := SplitAt sep; token := tok; window := w;
           err := None; empties := 0; done := false |}
      = Scanned (nonempty ((w ++ concat chunks) ++ last)) s' /\
      (nonempty ((w ++ concat chunks) ++ last) = true -> Err s' = Some e).
Proof.
  assert (HErr : forall s, err s = Some e -> Err s = Some e).
  { intros s Hs. unfold Err. rewrite Hs. destruct e; try reflexivity. contradiction. }
  induction chunks as [|c chunks IH]; intros w tok rd Hne Hi Hl.
  - cbn [concat]. rewrite app_nil_r. cbn [broken scan_read].
    unfold setErr, after_read; cbn [window split token err done r empties].
    set (s := {| r := Ends [] e; split := SplitAt sep; token := tok;
                 window := w ++ last; err := Some e; empties := 0; done := false |}).
    assert (Hs : splits_at sep s) by (split; reflexivity).
    unfold scan_last.
    destruct (index_of (w ++ last) sep) as [i|] eqn:Hi'.
    + rewrite (scan_split_found sep s i Hsep Hs Hi').
      pose proof (index_of_bound _ _ _ Hi') as Hb.
      assert (Hn : nonempty (w ++ last) = true).
      { destruct (w ++ last); [|reflexivity]. destruct sep; [contradiction|simpl in Hb; lia]. }
      rewrite Hn. eexists. split; [reflexivity|]. intros _. now apply HErr.
    + rewrite (scan_split_final sep s e Hs eq_refl Hi'). cbn [window s].
      destruct (nonempty (w ++ last)).
      * eexists. split; [reflexivity|]. intros _. now apply HErr.
      * eexists. split; [reflexivity|]. discriminate.
  - inversion Hne as [|? ? Hc Hne']; subst.
    assert (Hcb : nonempty c = true) by (destruct c; [contradiction|reflexivity]).
    cbn [broken scan_read]. rewrite Hcb.
    unfold after_read; cbn [window split token err done r empties].
    change {| r := broken chunks last e; split := SplitAt sep; token := tok;
              window := w ++ c; err := None; empties := 0; done := false |}
      with (breaking e sep (w ++ c) chunks last tok).
    cbn [concat] in *. rewrite app_assoc in *.
    pose proof (index_of_prefix_none sep _ _ Hi) as Hi'.
    rewrite (scan_split_more sep _ (splits_at_breaking _ _ _) eq_refl Hi').
    cbn [window breaking].
    assert (Hwc : nonempty (w ++ c) = true).
    { destruct w; simpl; [exact Hcb|reflexivity]. }
    rewrite Hwc. unfold with_token; cbn [window split token err done r empties is_nil skipn].
    rewrite buffer_not_full
      by (cbn [window breaking]; unfold len in *; rewrite !length_app in Hl;
          rewrite length_app; lia).
    now apply IH.
Qed.

Lemma Scan_failing (chunks : list bytes) (w : bytes) (tok : option bytes) :
  Forall (fun c => c <> []) chunks ->
  index_of (w ++ concat chunks) sep = None ->
  (len (w ++ concat chunks) < MaxScanTokenSize)%Z ->
  exists s',
    Scan (breaking e sep w chunks last tok)
    = Scanned (nonempty ((w ++ concat chunks) ++ last)) s' /\
    (nonempty ((w ++ concat chunks) ++ last) = true -> Err s' = Some e).
Proof.
  intros Hne Hi Hl. unfold Scan. cbn [done breaking].
  pose proof (index_of_prefix_none sep _ _ Hi) as Hi'.
  rewrite (scan_split_more sep _ (splits_at_breaking _ _ _) eq_refl Hi').
  cbn [window breaking].
  assert (Hlw : (len w < MaxScanTokenSize)%Z)
    by (unfold len in *; rewrite length_app in Hl; lia).
  destruct (nonempty w); unfold with_token, breaking;
    cbn [window split token err done r empties is_nil skipn];
    rewrite buffer_not_full by exact Hlw; cbn [r];
    now apply scan_read_failing.
Qed.
End Breaking.

Lemma terminated_length (sep : bytes) (lines : list bytes) :
  sep <> [] -> length lines <= length (terminated sep lines).
Proof.
  intros Hsep. induction lines as [|l lines IH]; [simpl; lia|].
  unfold terminated in *. cbn [flat_map length]. rewrite !length_app.
  destruct sep; [contradiction|]. simpl. lia.
Qed.

Lemma Reader_size_broken (chunks : list bytes) (last : bytes) (e : error) :
  length (concat chunks) < Reader_size (broken chunks last e).
Proof.
  induction chunks as [|c chunks IH]; cbn [broken Reader_size concat length]; [lia|].
  rewrite length_app. lia.
Qed.

Section Broken.
Variable State : Type.
Variable decode : bytes -> Object + error.
Variable last : bytes.
Variable e : error.
Hypothesis He : e <> EOF.

Lemma Query_loop_broken (request : Request State) (shouldAnalyse : bool) (rest : bytes) :
  index_of rest [newline] = None ->
  (len rest < MaxScanTokenSize)%Z ->
  forall ls fuel w chunks tok res text st tr,
    length ls < fuel ->
    Forall (fun c => c <> []) chunks ->
    Forall (sep_free [newline]) ls ->
    Forall (short [newline]) ls ->
    w ++ concat chunks = terminated [newline] ls ++ rest ->
    result (Query_loop decode fuel request shouldAnalyse
              (breaking e [newline] w chunks last tok) res text None st tr)
    = handle_lines decode request shouldAnalyse
        (if nonempty (rest ++ last) then read_failure e else @stream_ended State)
        ls res text st tr.
Proof.
  assert (Hnl : [newline] <> []) by discriminate.
  intros Hrest Hlrest. induction ls as [|t ls IH];
    intros fuel w chunks tok res text st tr Hfuel Hne Hfree Hshort Hw;
    (destruct fuel as [|fuel]; [simpl in Hfuel; lia|]); cbn [Query_loop].
  - cbn [terminated flat_map app] in Hw.
    destruct (Scan_failing [newline] Hnl last e He chunks w tok Hne) as (s' & -> & HErr).
    { now rewrite Hw. }
    { now rewrite Hw. }
    rewrite Hw in *. cbn [handle_lines].
    destruct (nonempty (rest ++ last)); [|reflexivity].
    cbn zeta. now rewrite (HErr eq_refl).
  - inversion Hfree as [|? ? Ht Hfree']; inversion Hshort as [|? ? Hs Hshort']; subst.
    unfold terminated in Hw. cbn [flat_map] in Hw. rewrite <- app_assoc in Hw.
    fold (terminated [newline] ls) in Hw.
    destruct (Scan_token [newline] Hnl last e t (terminated [newline] ls ++ rest) Ht Hs
                chunks w tok Hne)
      as (w' & chunks' & -> & Hw' & Hne').
    { rewrite Hw. now rewrite <- !app_assoc. }
    simpl in Hfuel.
    same_turn ltac:(apply IH; [lia|assumption|assumption|assumption|assumption]).
Qed.
End Broken.

(** X11.  On a body that breaks and whose bytes before the failing read fit
    the buffer, [Query] handles the lines that were complete before the
    failing read as it handles the lines of any body; then, when bytes are
    left (the rest of an unfinished line, or what the failing read brought),
    it returns the read error, wrapped, without decoding them; when no byte
    is left it returns as at the end of a stream. *)
Theorem Query_on_a_body_that_breaks
        (State : Type) (decode : bytes -> Object + error)
        (request : Request State) (st : State)
        (chunks : list bytes) (last : bytes) (e : error)
        (lines : list bytes) (rest : bytes) :
  e <> EOF ->
  Forall (fun c => c <> []) chunks ->
  Forall (sep_free [newline]) lines ->
  Forall (short [newline]) lines ->
  index_of rest [newline] = None ->
  (len rest < MaxScanTokenSize)%Z ->
  concat chunks = terminated [newline] lines ++ rest ->
  result (Query decode (broken chunks last e) request st)
  = handle_lines decode request (negb (is_nil (OnCodeBlock request)))
      (if nonempty (rest ++ last) then read_failure e else @stream_ended State)
      lines zero_Response [] st [].
Proof.
  intros He Hne Hfree Hshort Hrest Hlrest Hbody. unfold Query.
  change (NewSplitScanner (broken chunks last e) [newline])
    with (breaking e [newline] [] chunks last None).
  apply (Query_loop_broken State decode last e He request _ rest Hrest Hlrest);
    [|exact Hne|exact Hfree|exact Hshort|exact Hbody].
  pose proof (Reader_size_broken chunks last e) as Hsize.
  pose proof (terminated_length [newline] lines ltac:(discriminate)) as Hlen.
  rewrite Hbody, length_app in Hsize. lia.
Qed.

Lemma Query_on_a_body_that_breaks_witness :
  result (Query json_line
            (broken [line (fragment_only (str "a")) ++ str "{"] [] connection_reset)
            {| OnJson := Some collect; OnCodeBlock := None |} [])
  = handle_lines json_line {| OnJson := Some collect; OnCodeBlock := None |} false
      (read_failure connection_reset)
      [json_of_Response (fragment_only (str "a"))] zero_Response [] [] [].
Proof.
  apply (Query_on_a_body_that_breaks (list bytes) json_line
           {| OnJson := Some collect; OnCodeBlock := None |} []
           [line (fragment_only (str "a")) ++ str "{"] [] connection_reset
           [json_of_Response (fragment_only (str "a"))] (str "{")).
  - discriminate.
  - repeat constructor. discriminate.
  - repeat constructor.
  - repeat constructor. vm_compute. discriminate.
  - reflexivity.
  - reflexivity.
  - vm_compute. reflexivity.
Defined.

(** ** Encoding, then decoding *)

Lemma json_string_escape (c : ascii) (s : bytes) :
  plain c = true ->
  json_string (escape c ++ s) =
    match json_string s with
    | Some (t, rest) => Some (c :: t, rest)
    | None => None
    end.
Proof.
  destruct c as [[] [] [] [] [] [] [] []]; intros Hp;
    try (vm_compute in Hp; discriminate Hp); reflexivity.
Qed.

Lemma json_string_quote (t rest : bytes) :
  forallb plain t = true ->
  json_string (flat_map escape t ++ dquote :: rest) = Some (t, rest).
Proof.
  induction t as [|c t IH]; intros Hp; [reflexivity|].
  simpl in Hp. apply andb_prop in Hp. destruct Hp as [Hc Ht].
  cbn [flat_map]. rewrite <- app_assoc, (json_string_escape c _ Hc), (IH Ht).
  reflexivity.
Qed.

Lemma json_value_quote (t rest : bytes) :
  forallb plain t = true ->
  json_value (json_quote t ++ rest) = Some (j_string t, rest).
Proof.
  intros Hp. unfold json_quote. cbn [app json_value].
  change (Ascii.eqb dquote dquote) with true. cbv iota.
  rewrite <- app_assoc. cbn [app]. now rewrite (json_string_quote t rest Hp).
Qed.

Lemma json_value_bool (b : bool) (rest : bytes) :
  json_value ((if b then str "true" else str "false") ++ rest) = Some (j_bool b, rest).
Proof. destruct b; reflexivity. Qed.

Lemma json_members_more_fuel :
  forall fuel s o o',
    json_members fuel s o = Some o' ->
    forall fuel', fuel <= fuel' -> json_members fuel' s o = Some o'.
Proof.
  induction fuel as [|fuel IH]; intros s o o' H fuel' Hle; [discriminate|].
  destruct fuel' as [|fuel']; [lia|]. cbn [json_members] in *.
  destruct s as [|q s1]; [discriminate|].
  destruct (Ascii.eqb q dquote); [|discriminate].
  destruct (json_string s1) as [[key [|colon s2]]|]; try discriminate.
  destruct (Ascii.eqb colon ":"); [|discriminate].
  destruct (json_value s2) as [[v s3]|]; [|discriminate].
  destruct (set_member key v o) as [o1|]; [|destruct s3; discriminate].
  destruct s3 as [|c [|c' s4]]; [discriminate|exact H|].
  destruct (Ascii.eqb c ","); [|discriminate].
  apply IH with (fuel' := fuel') in H; [exact H|lia].
Qed.

Lemma json_key_read (name : string) (s : bytes) :
  key_ok name ->
  json_string (str name ++ [dquote; ":"%char] ++ s) = Some (str name, ":"%char :: s).
Proof.
  intros [Hp He]. rewrite <- He at 1. now apply json_string_quote.
Qed.

Lemma json_members_step (fuel : nat) (name : string) (v : bytes) (val : jvalue)
      (s : bytes) (o o' : Object) :
  key_ok name ->
  (forall rest, json_value (v ++ rest) = Some (val, rest)) ->
  set_member (str name) val o = Some o' ->
  json_members (S fuel) (json_key name ++ v ++ str "," ++ s) o = json_members fuel s o'.
Proof.
  intros Hk Hv Hset. unfold json_key. cbn [app json_members].
  change (Ascii.eqb dquote dquote) with true. cbv iota.
  rewrite <- app_assoc, (json_key_read name _ Hk).
  change (Ascii.eqb ":" ":") with true. cbv iota.
  rewrite Hv, Hset. cbn [str list_ascii_of_string app].
  destruct s as [|c s].
  - destruct fuel; reflexivity.
  - reflexivity.
Qed.

Lemma json_members_last (fuel : nat) (name : string) (v : bytes) (val : jvalue)
      (o o' : Object) :
  key_ok name ->
  (forall rest, json_value (v ++ rest) = Some (val, rest)) ->
  set_member (str name) val o = Some o' ->
  json_members (S fuel) (json_key name ++ v ++ str "}") o = Some o'.
Proof.
  intros Hk Hv Hset. unfold json_key. cbn [app json_members].
  change (Ascii.eqb dquote dquote) with true. cbv iota.
  rewrite <- app_assoc, (json_key_read name _ Hk).
  change (Ascii.eqb ":" ":") with true. cbv iota.
  rewrite Hv, Hset. reflexivity.
Qed.

Lemma json_line_members (name : string) (tail : bytes) (o : Object) :
  json_members 4 (json_key name ++ tail) empty_Object = Some o ->
  4 <= length (json_key name ++ tail) ->
  json_line (str "{" ++ json_key name ++ tail) = inl o.
Proof.
  intros H Hlen.
  apply json_members_more_fuel with (fuel' := length (json_key name ++ tail)) in H;
    [|exact Hlen].
  unfold json_key in *. cbn [str list_ascii_of_string app json_line] in *.
  change (Ascii.eqb "{" "{") with true. cbv iota.
  destruct (str name) as [|c cs]; cbn [app] in *; now rewrite H.
Qed.

(** One member after the other, then the closing brace. *)
Ltac read_members Hm Hn Ht :=
  repeat first
    [ erewrite json_members_last;
      [reflexivity
      |split; reflexivity
      |intros; first [apply json_value_bool
                     |apply json_value_quote; first [exact Hm|exact Hn|exact Ht]]
      |reflexivity]
    | erewrite json_members_step;
      [
      |split; reflexivity
      |intros; first [apply json_value_bool
                     |apply json_value_quote; first [exact Hm|exact Hn|exact Ht]]
      |reflexivity] ].

Lemma json_line_of_Response (res : Response) :
  plain_Response res = true ->
  json_line (json_of_Response res) = inl (object_of res).
Proof.
  destruct res as [m n t d]. unfold plain_Response. cbn [Model CreatedAt Response_].
  intros H. apply andb_prop in H. destruct H as [H Ht].
  apply andb_prop in H. destruct H as [Hm Hn].
  destruct m as [m|], n as [n|], t as [t|], d as [d|];
    cbn [plain_text] in Hm, Hn, Ht;
    unfold json_of_Response, object_of;
    cbn [Model CreatedAt Response_ Done app join member_of];
    rewrite <- ?app_assoc;
    try (apply json_line_members;
         [read_members Hm Hn Ht
         |unfold json_key; rewrite !length_app; simpl; lia]).
  reflexivity.
Qed.

(** ** Lines hold no line feed *)

Lemma no_newline_app (a b : bytes) :
  no_newline (a ++ b) = no_newline a && no_newline b.
Proof. apply forallb_app. Qed.

Lemma no_newline_escape (t : bytes) : no_newline (flat_map escape t) = true.
Proof.
  induction t as [|c t IH]; [reflexivity|].
  cbn [flat_map]. rewrite no_newline_app, IH, andb_true_r.
  destruct c as [[] [] [] [] [] [] [] []]; reflexivity.
Qed.

Lemma no_newline_quote (t : bytes) : no_newline (json_quote t) = true.
Proof.
  unfold json_quote. change (dquote :: flat_map escape t ++ [dquote])
    with ([dquote] ++ flat_map escape t ++ [dquote]).
  now rewrite !no_newline_app, no_newline_escape.
Qed.

Lemma no_newline_json (res : Response) : no_newline (json_of_Response res) = true.
Proof.
  destruct res as [[m|] [n|] [t|] [[|]|]];
    unfold json_of_Response;
    cbn [Model CreatedAt Response_ Done app join];
    rewrite ?no_newline_app, ?no_newline_quote; reflexivity.
Qed.

Lemma no_newline_sep_free (t : bytes) :
  no_newline t = true -> sep_free [newline] t.
Proof.
  unfold sep_free. induction t as [|c t IH]; intros H; [reflexivity|].
  simpl in H. apply andb_prop in H. destruct H as [Hc Ht].
  cbn [app index_of HasPrefix length].
  rewrite Ascii.eqb_sym in Hc. apply negb_true_iff in Hc. rewrite Hc. cbn [andb].
  now rewrite (IH Ht).
Qed.

(** ** The stream of the tests *)

Lemma simulateStreamBody_lines (now model : bytes) (toks : list bytes) :
  simulateStreamBody now toks model
  = terminated [newline] (map json_of_Response (stream_events model now toks)).
Proof.
  unfold simulateStreamBody, terminated, stream_events.
  rewrite map_app, flat_map_app. cbn [map flat_map]. rewrite app_nil_r.
  f_equal. induction toks as [|t toks IH]; [reflexivity|].
  cbn [map flat_map]. now rewrite IH.
Qed.

Lemma stream_tokens (now model : bytes) (toks : list bytes)
      (chunks : list bytes) (last : bytes) :
  Forall (short [newline]) (map json_of_Response (stream_events model now toks)) ->
  Forall (fun c => c <> []) chunks ->
  concat chunks ++ last = simulateStreamBody now toks model ->
  tokens [newline] chunks last
  = Some (map json_of_Response (stream_events model now toks), None).
Proof.
  intros Hshort Hne Hb.
  rewrite <- (app_nil_r (map json_of_Response _)).
  apply (tokens_joined [newline] _ [] chunks last).
  - discriminate.
  - apply Forall_forall. intros l Hl. apply in_map_iff in Hl.
    destruct Hl as (res & <- & _). apply no_newline_sep_free, no_newline_json.
  - exact Hshort.
  - reflexivity.
  - reflexivity.
  - exact Hne.
  - now rewrite app_nil_r, <- simulateStreamBody_lines.
Qed.

Lemma assign_object_of_stream_event (model now tok : bytes) (done : bool) (res : Response) :
  assign (object_of (stream_event model now tok done)) res
  = stream_event model now tok done.
Proof. reflexivity. Qed.

(** The loop over lines written for the values [events], with the collector
    of [TestQueryStream_TokenByToken] as [OnJson] and no block handler. *)
Lemma handle_lines_collect (events : list Response) :
  Forall (fun ev => plain_Response ev = true /\
                    exists model now tok done, ev = stream_event model now tok done)
         events ->
  forall res st tr,
    handle_lines json_line {| OnJson := Some collect; OnCodeBlock := None |} false
      (@stream_ended (list bytes)) (map json_of_Response events) res [] st tr
    = (Returns None,
       st ++ flat_map (fun ev => match Response_ ev with Some t => [t] | None => [] end)
               events,
       tr ++ flat_map (fun ev => [EvScan true; EvOnJson ev None]) events ++ [EvScan false],
       []).
Proof.
  induction 1 as [|ev events [Hp (model & now & tok & done & ->)] _ IH]; intros res st tr.
  - simpl. now rewrite app_nil_r.
  - cbn [map handle_lines]. unfold Unmarshal.
    rewrite (json_line_of_Response _ Hp), assign_object_of_stream_event.
    cbn [OnJson collect Response_ stream_event]. cbn zeta.
    change (collect (stream_event model now tok done) st)
      with (st ++ [tok], @None error).
    cbv iota beta. rewrite IH. cbn [flat_map Response_ stream_event app].
    now rewrite <- !app_assoc.
Qed.

Lemma stream_events_plain (model now : bytes) (toks : list bytes) :
  forallb plain model = true -> forallb plain now = true ->
  Forall (fun t => forallb plain t = true) toks ->
  Forall (fun ev => plain_Response ev = true /\
                    exists model now tok done, ev = stream_event model now tok done)
         (stream_events model now toks).
Proof.
  intros Hm Hn Ht. unfold stream_events. apply Forall_app. split.
  - apply Forall_forall. intros ev Hev. apply in_map_iff in Hev.
    destruct Hev as (t & <- & Hin). split; [|eauto].
    unfold plain_Response. cbn [stream_event Model CreatedAt Response_ plain_text].
    rewrite Hm, Hn. rewrite Forall_forall in Ht. now rewrite (Ht t Hin).
  - constructor; [|constructor]. split; [|eauto].
    unfold plain_Response. cbn [stream_event Model CreatedAt Response_ plain_text].
    now rewrite Hm, Hn.
Qed.

Lemma stream_fragments (model now : bytes) (toks : list bytes) :
  flat_map (fun ev => match Response_ ev with Some t => [t] | None => [] end)
    (stream_events model now toks)
  = toks ++ [[]].
Proof.
  unfold stream_events. rewrite flat_map_app. cbn [flat_map Response_ stream_event app].
  f_equal. induction toks as [|t toks IH]; [reflexivity|].
  cbn [map flat_map Response_ stream_event app]. now rewrite IH.
Qed.

(** X12.  The stream of the tests, for every list of plain tokens, model name
    and timestamp such that every line written, with its line feed, fits the
    buffer, and however the body is cut into reads: [Query] returns nil, and
    the collector has received every token, in order, and the empty fragment
    of the final line. *)
Theorem streamed_tokens_are_collected
        (model now : bytes) (toks : list bytes) (chunks : list bytes) (last : bytes) :
  forallb plain model = true ->
  forallb plain now = true ->
  Forall (fun t => forallb plain t = true) toks ->
  Forall (short [newline]) (map json_of_Response (stream_events model now toks)) ->
  Forall (fun c => c <> []) chunks ->
  concat chunks ++ last = simulateStreamBody now toks model ->
  let run := Query json_line (reader_of chunks last)
               {| OnJson := Some collect; OnCodeBlock := None |} [] in
  outcome run = Returns None /\
  state run = toks ++ [[]] /\
  OnJson_calls (trace run) = stream_events model now toks.
Proof.
  intros Hm Hn Ht Hshort Hne Hb run.
  destruct (Query_lines (list bytes) json_line
              {| OnJson := Some collect; OnCodeBlock := None |} [] chunks last Hne)
    as (ls & e & Hl & Hr).
  rewrite (stream_tokens now model toks chunks last Hshort Hne Hb) in Hl.
  injection Hl as <- _. fold run in Hr. cbn [OnCodeBlock is_nil negb] in Hr.
  rewrite (handle_lines_collect _ (stream_events_plain model now toks Hm Hn Ht)) in Hr.
  unfold result in Hr. injection Hr as Ho Hs Htr _.
  rewrite Ho, Hs, Htr, stream_fragments. repeat split.
  cbn [app]. rewrite OnJson_calls_app.
  assert (H : forall evs, OnJson_calls (flat_map (fun ev => [EvScan true; EvOnJson ev None]) evs)
                          = evs).
  { induction evs as [|ev evs IH]; [reflexivity|]. cbn [flat_map app]. simpl.
    now rewrite IH. }
  rewrite H. simpl. now rewrite app_nil_r.
Qed.

Lemma streamed_tokens_are_collected_witness :
  state (Query json_line
           (reader_of [firstn 7 five_events; skipn 7 five_events] [])
           {| OnJson := Some collect; OnCodeBlock := None |} [])
  = [str "Hello"; str ", "; str "world"; str "!"; []].
Proof.
  refine (proj1 (proj2 (streamed_tokens_are_collected (str "m") created
            [str "Hello"; str ", "; str "world"; str "!"]
            [firstn 7 five_events; skipn 7 five_events] [] _ _ _ _ _ _))).
  - reflexivity.
  - reflexivity.
  - repeat constructor.
  - repeat constructor; vm_compute; discriminate.
  - repeat constructor; intros H; vm_compute in H; discriminate H.
  - vm_compute. reflexivity.
Defined.

(** ** What the search finds first *)

Section First.
Variable R : Type.

Lemma plus_greedy_stops (c : cclass) (rest : bytes) (k : bytes -> option R) :
  match rest with x :: _ => accepts c x = false | [] => True end ->
  plus_greedy c rest k = None.
Proof. destruct rest as [|x rest]; [reflexivity|]. simpl. now intros ->. Qed.

(** A greedy repetition takes the longest run when the rest of the pattern
    matches after it. *)
Lemma plus_greedy_longest (c : cclass) (run rest : bytes) (k : bytes -> option R)
      (res : R) :
  run <> [] -> forallb (accepts c) run = true ->
  match rest with x :: _ => accepts c x = false | [] => True end ->
  k rest = Some res ->
  plus_greedy c (run ++ rest) k = Some res.
Proof.
  intros Hne Hrun Hrest Hk. induction run as [|x run IH]; [contradiction|].
  simpl in Hrun. apply andb_prop in Hrun. destruct Hrun as [Hx Hrun].
  cbn [app plus_greedy]. rewrite Hx.
  destruct run as [|y run].
  - cbn [app]. now rewrite (plus_greedy_stops c rest k Hrest).
  - rewrite IH; [reflexivity|discriminate|exact Hrun].
Qed.

(** A lazy repetition of [.] stops at the first place where the rest of the
    pattern matches. *)
Lemma plus_lazy_first (pre rest : bytes) (k : bytes -> option R) (res : R) :
  pre <> [] ->
  (forall j, 1 <= j < length pre -> k (skipn j (pre ++ rest)) = None) ->
  k rest = Some res ->
  plus_lazy c_any (pre ++ rest) k = Some res.
Proof.
  intros Hne Hbefore Hk. induction pre as [|x pre IH]; [contradiction|].
  cbn [app plus_lazy accepts].
  destruct pre as [|y pre].
  - cbn [app]. now rewrite Hk.
  - pose proof (Hbefore 1 ltac:(simpl; lia)) as H1. cbn [app skipn] in H1.
    cbn [app]. rewrite H1.
    apply IH; [discriminate|].
    intros j Hj. apply (Hbefore (S j)). simpl in *. lia.
Qed.
End First.

Lemma index_of_before (sep s : bytes) :
  forall i, index_of s sep = Some i ->
  forall j, j < i -> HasPrefix (skipn j s) sep = false.
Proof.
  induction s as [|c s IH]; intros i Hi j Hj.
  - simpl in Hi. destruct (HasPrefix [] sep); [|discriminate].
    injection Hi as <-. lia.
  - cbn [index_of] in Hi. destruct (HasPrefix (c :: s) sep) eqn:Hp.
    + injection Hi as <-. lia.
    + destruct (index_of s sep) as [i'|] eqn:Hi'; [|discriminate].
      injection Hi as <-. destruct j as [|j]; [exact Hp|].
      cbn [skipn]. apply (IH i' eq_refl). lia.
Qed.

(** A fence marker: a backtick and one or more backticks. *)
Lemma fence_marker_ticks (s : bytes) :
  fence_marker s ->
  exists ticks, s = backtick :: ticks /\ ticks <> [] /\
                forallb (accepts (c_lit backtick)) ticks = true.
Proof.
  intros [Hlen Hall]. destruct s as [|a [|b s]]; simpl in Hlen; try lia.
  inversion Hall as [|? ? -> Hall']; subst. exists (b :: s).
  split; [reflexivity|]. split; [discriminate|].
  apply forallb_forall. intros x Hx. rewrite Forall_forall in Hall'.
  rewrite (Hall' x Hx). reflexivity.
Qed.

(** The end of the pattern, a line feed, a backtick and one or more
    backticks, fails on a text that does not start with a line feed and two
    backticks. *)
Lemma closing_fails (R : Type) (s : bytes) (cap : captures)
      (k : bytes -> captures -> option R) :
  HasPrefix s [newline; backtick; backtick] = false ->
  backtrack (r_cat (r_char (c_lit newline))
               (r_cat (r_char (c_lit backtick)) (r_plus (c_lit backtick) true)))
    s cap k = None.
Proof.
  intros H. destruct s as [|a [|b [|c s]]]; cbn [backtrack accepts plus_greedy].
  - reflexivity.
  - destruct (Ascii.eqb a newline); reflexivity.
  - destruct (Ascii.eqb a newline); [|reflexivity]. destruct (Ascii.eqb b backtick); reflexivity.
  - cbn [HasPrefix] in H. rewrite (Ascii.eqb_sym newline a), (Ascii.eqb_sym backtick b),
      (Ascii.eqb_sym backtick c), andb_true_r in H.
    destruct (Ascii.eqb a newline); [|reflexivity].
    destruct (Ascii.eqb b backtick); [|reflexivity].
    destruct (Ascii.eqb c backtick); [discriminate H|reflexivity].
Qed.

Lemma starts_with_stops (c : ascii) (s : bytes) :
  starts_with c s = false ->
  match s with x :: _ => accepts (c_lit c) x = false | [] => True end.
Proof. destruct s; [trivial|exact (fun H => H)]. Qed.

Lemma match_here_fence (opening tag code closing after : bytes) :
  fence_marker opening -> fence_marker closing ->
  tag <> [] -> forallb (accepts c_not_space) tag = true ->
  starts_with backtick tag = false ->
  sep_free [newline; backtick; backtick] code ->
  starts_with backtick after = false ->
  match_here CodeBlockRegExp (fence opening tag code closing ++ after)
  = Some (fence opening tag code closing, [(2, newline :: code); (1, tag)]).
Proof.
  intros Ho Hc Htag Hns Htb Hcode Hafter.
  destruct (fence_marker_ticks _ Ho) as (ticks1 & -> & Hne1 & Ht1).
  destruct (fence_marker_ticks _ Hc) as (ticks2 & -> & Hne2 & Ht2).
  unfold match_here.
  set (text := fence (backtick :: ticks1) tag code (backtick :: ticks2) ++ after).
  set (K := fun (s' : bytes) (cap : captures) =>
              Some (firstn (length text - length s') text, cap)).
  assert (HK : K after [(2, newline :: code); (1, tag)]
               = Some (fence (backtick :: ticks1) tag code (backtick :: ticks2),
                       [(2, newline :: code); (1, tag)])).
  { unfold K, text. now rewrite firstn_consumed. }
  clearbody K. subst text. unfold fence, CodeBlockRegExp.
  rewrite <- !app_assoc. cbn [app backtrack accepts].
  change (Ascii.eqb backtick backtick) with true. cbv iota.
  (* the opening marker *)
  apply plus_greedy_longest; [exact Hne1|exact Ht1| |].
  { destruct tag as [|x tag]; [contradiction|exact Htb]. }
  (* the tag *)
  apply plus_greedy_longest; [exact Htag|exact Hns|reflexivity|].
  rewrite firstn_consumed.
  (* the code *)
  change (newline :: code ++ newline :: backtick :: ticks2 ++ after)
    with ((newline :: code) ++ newline :: backtick :: ticks2 ++ after).
  apply plus_lazy_first; [discriminate| |].
  { intros j Hj.
    assert (H : HasPrefix (skipn j ((newline :: code) ++ newline :: backtick :: ticks2 ++ after))
                  [newline; backtick; backtick] = false).
    { destruct j as [|j]; [lia|]. cbn [app skipn].
      destruct ticks2 as [|b ticks2]; [contradiction|].
      simpl in Ht2. apply andb_prop in Ht2. destruct Ht2 as [Hb _].
      apply Ascii.eqb_eq in Hb. subst b.
      apply (index_of_before [newline; backtick; backtick] _ (length code)).
      - cbn [app].
        change (code ++ newline :: backtick :: backtick :: ticks2 ++ after)
          with (code ++ [newline; backtick; backtick] ++ ticks2 ++ after).
        rewrite app_assoc. apply index_of_app. exact Hcode.
      - simpl in Hj. lia. }
    exact (closing_fails _ _ _ _ H). }
  rewrite firstn_consumed.
  (* the closing marker *)
  cbn [backtrack accepts].
  change (Ascii.eqb newline newline) with true.
  change (Ascii.eqb backtick backtick) with true. cbv iota.
  apply plus_greedy_longest; [exact Hne2|exact Ht2| |exact HK].
  apply starts_with_stops, Hafter.
Qed.

(** No match starts at a character other than a backtick. *)
Lemma match_here_no_backtick (x : ascii) (s : bytes) :
  Ascii.eqb x backtick = false -> match_here CodeBlockRegExp (x :: s) = None.
Proof.
  intros H. unfold match_here, CodeBlockRegExp. cbn [backtrack accepts]. now rewrite H.
Qed.

Lemma doExecute_skip (before s whole : bytes) (cap : captures) :
  forallb (fun c => negb (Ascii.eqb c backtick)) before = true ->
  match_here CodeBlockRegExp s = Some (whole, cap) ->
  doExecute CodeBlockRegExp (before ++ s) = Some (length before, whole, cap).
Proof.
  intros Hb Hm. induction before as [|x before IH].
  - cbn [app length]. destruct s; cbn [doExecute]; now rewrite Hm.
  - simpl in Hb. apply andb_prop in Hb. destruct Hb as [Hx Hb].
    apply negb_true_iff in Hx.
    cbn [app doExecute length]. rewrite (match_here_no_backtick x _ Hx), (IH Hb).
    reflexivity.
Qed.

Lemma doExecute_none (s : bytes) :
  forallb (fun c => negb (Ascii.eqb c backtick)) s = true ->
  doExecute CodeBlockRegExp s = None.
Proof.
  induction s as [|x s IH]; intros Hb; [reflexivity|].
  simpl in Hb. apply andb_prop in Hb. destruct Hb as [Hx Hb].
  apply negb_true_iff in Hx.
  cbn [doExecute]. now rewrite (match_here_no_backtick x _ Hx), (IH Hb).
Qed.

(** The texts of the matches do not depend on the position the search is
    at, nor on the number of turns once there are enough of them. *)
Lemma allMatches_texts (re : regex) (Hne : never_empty re) :
  forall turns turns' s pos pos' prev prev',
    length s < turns -> length s < turns' ->
    map m_sub (allMatches turns re s pos prev)
    = map m_sub (allMatches turns' re s pos' prev').
Proof.
  induction turns as [|turns IH]; intros turns' s pos pos' prev prev' H1 H2; [lia|].
  destruct turns' as [|turns']; [lia|]. cbn [allMatches].
  destruct (doExecute re s) as [[[skipped whole] cap]|] eqn:Hd; [|reflexivity].
  destruct (doExecute_sound re s _ _ _ Hd) as (rest & Hs & Hlen & Hder).
  pose proof (Hne _ _ Hder) as Hw.
  assert (0 < length whole) by (destruct whole; [contradiction|simpl; lia]).
  cbn zeta.
  replace (pos + skipped + length whole =? pos) with false
    by (symmetry; apply Nat.eqb_neq; lia).
  replace (pos' + skipped + length whole =? pos') with false
    by (symmetry; apply Nat.eqb_neq; lia).
  cbn [map m_sub]. f_equal.
  apply IH; rewrite length_skipn; lia.
Qed.

Lemma block_of_texts (ms : list Match) :
  map block_of ms
  = map (fun sub => {| Type_ := nth 1 sub []; Code := nth 2 sub [] |}) (map m_sub ms).
Proof. now rewrite map_map. Qed.

Lemma fence_not_empty (opening tag code closing : bytes) :
  0 < length (fence opening tag code closing).
Proof. unfold fence. rewrite !length_app. simpl. lia. Qed.

Lemma ParseCodeBlock_fence (before opening tag code closing after : bytes) :
  forallb (fun c => negb (Ascii.eqb c backtick)) before = true ->
  fence_marker opening -> fence_marker closing ->
  tag <> [] -> forallb (accepts c_not_space) tag = true ->
  starts_with backtick tag = false ->
  sep_free [newline; backtick; backtick] code ->
  starts_with backtick after = false ->
  ParseCodeBlock (before ++ fence opening tag code closing ++ after)
  = {| Type_ := tag; Code := newline :: code |} :: ParseCodeBlock after.
Proof.
  intros Hb Ho Hc Htag Hns Htb Hcode Hafter.
  pose proof (match_here_fence opening tag code closing after Ho Hc Htag Hns Htb Hcode Hafter)
    as Hm.
  pose proof (doExecute_skip before _ _ _ Hb Hm) as Hd.
  pose proof (fence_not_empty opening tag code closing) as Hlen.
  rewrite (ParseCodeBlock_map (before ++ _)).
  unfold FindAll at 1. cbn [allMatches]. rewrite Hd. cbn zeta.
  replace (0 + length before + length (fence opening tag code closing) =? 0) with false
    by (symmetry; apply Nat.eqb_neq; lia).
  cbn [map]. f_equal.
  rewrite <- length_app, app_assoc, skipn_app_le, skipn_all by lia.
  cbn [app]. rewrite ParseCodeBlock_map, !block_of_texts. f_equal. unfold FindAll.
  apply (allMatches_texts CodeBlockRegExp CodeBlockRegExp_never_empty).
  - rewrite !length_app. lia.
  - lia.
Qed.

Lemma starts_with_no_backtick (s t : bytes) :
  s <> [] -> no_backtick s = true -> starts_with backtick (s ++ t) = false.
Proof.
  intros Hne H. destruct s as [|x s]; [contradiction|].
  simpl in H. apply andb_prop in H. destruct H as [Hx _].
  now apply negb_true_iff in Hx.
Qed.

Lemma no_backtick_no_fence (s : bytes) :
  no_backtick s = true -> ParseCodeBlock s = [].
Proof.
  intros H. rewrite ParseCodeBlock_map. unfold FindAll. cbn [allMatches].
  now rewrite (doExecute_none s H).
Qed.

Lemma no_closing_line (text : bytes) :
  index_of text [newline; backtick; backtick] = None ->
  ParseCodeBlock text = [].
Proof.
  intros Hi. pose proof (ParseCodeBlock_closed text) as Hc.
  destruct (ParseCodeBlock text) as [|b bs]; [reflexivity|]. exfalso.
  apply Forall_inv in Hc.
  destruct Hc as (before & opening & closing & after & Ht & _ & Hlen & Hall).
  destruct closing as [|x [|y closing]]; simpl in Hlen; try lia.
  apply Forall_cons_iff in Hall. destruct Hall as [-> Hall].
  apply Forall_cons_iff in Hall. destruct Hall as [-> _].
  apply (index_of_occurs [newline; backtick; backtick]
           (before ++ opening ++ Type_ b ++ Code b) (closing ++ after)).
  rewrite <- Hi, Ht. f_equal. now rewrite <- !app_assoc.
Qed.

(** ** Properties of [ParseCodeBlock] *)

(** X13.  A text without a line feed followed by two backticks holds no block:
    nothing is extracted before the closing line of a fence has come. *)
Theorem ParseCodeBlock_needs_a_closing_line (text : bytes) :
  index_of text [newline; backtick; backtick] = None ->
  ParseCodeBlock text = [].
Proof. apply no_closing_line. Qed.

Lemma ParseCodeBlock_needs_a_closing_line_witness :
  ParseCodeBlock (str "```go" ++ [newline] ++ str "x := 1" ++ [newline] ++ str "`") = [].
Proof.
  apply ParseCodeBlock_needs_a_closing_line. reflexivity.
Defined.

(** X14.  A well-formed fence after a text without backtick is extracted as
    one block, the tag as written and the code from the line feed after the
    tag up to, not including, the line feed of the closing line; the search
    goes on in the text after the fence as if it stood alone. *)
Theorem ParseCodeBlock_extracts_a_well_formed_fence (f : Fence) (after : bytes) :
  well_formed f ->
  starts_with backtick after = false ->
  ParseCodeBlock (written f ++ after) = block f :: ParseCodeBlock after.
Proof.
  intros (Hb & Ho & Hc & Htag & Hns & Htb & Hcode) Hafter.
  unfold written. rewrite <- app_assoc.
  now apply ParseCodeBlock_fence.
Qed.

Lemma ParseCodeBlock_extracts_a_well_formed_fence_witness :
  ParseCodeBlock go_fence = [{| Type_ := str "go"; Code := newline :: println_hi |}].
Proof.
  apply (ParseCodeBlock_extracts_a_well_formed_fence
           (mkFence [] (str "```") (str "go") println_hi (str "```")) [newline]).
  - repeat split; try reflexivity; try discriminate; try (simpl; lia);
      repeat constructor.
  - reflexivity.
Defined.

(** X15.  A document made of well-formed fences, each after a text without
    backtick (not empty between two fences), and a last text without
    backtick gives exactly the blocks of its fences, in order. *)
Theorem ParseCodeBlock_reads_a_document (fs : list Fence) (tail : bytes) :
  Forall well_formed fs -> separated fs -> no_backtick tail = true ->
  ParseCodeBlock (document fs tail) = map block fs.
Proof.
  intros Hwf Hsep Htail. revert Hwf Hsep.
  induction fs as [|f fs IH]; intros Hwf Hsep.
  - apply no_backtick_no_fence, Htail.
  - inversion Hwf as [|? ? (Hb & Ho & Hc & Htag & Hns & Htb & Hcode) Hwf']; subst.
    unfold document, written. cbn [flat_map map]. rewrite <- !app_assoc.
    change (flat_map written fs ++ tail) with (document fs tail).
    rewrite (ParseCodeBlock_fence _ _ _ _ _ _ Hb Ho Hc Htag Hns Htb Hcode).
    + f_equal. apply IH; [exact Hwf'|]. destruct fs as [|g fs]; [exact I|apply Hsep].
    + destruct fs as [|g fs].
      * unfold document. cbn [flat_map app]. destruct tail as [|x tail]; [reflexivity|].
        simpl in Htail. apply andb_prop in Htail. destruct Htail as [Hx _].
        now apply negb_true_iff in Hx.
      * destruct Hsep as [Hg _]. inversion Hwf' as [|? ? (Hgb & _) _]; subst.
        unfold document, written. cbn [flat_map]. rewrite <- !app_assoc.
        now apply starts_with_no_backtick.
Qed.

Lemma ParseCodeBlock_reads_a_document_witness :
  ParseCodeBlock two_fences
  = [ {| Type_ := str "python"; Code := newline :: str "print('a')" |};
      {| Type_ := str "bash"; Code := newline :: str "echo b" |} ].
Proof.
  apply (ParseCodeBlock_reads_a_document
           [ mkFence [] (str "```") (str "python") (str "print('a')") (str "```");
             mkFence (newline :: str "middle" ++ [newline])
                     (str "```") (str "bash") (str "echo b") (str "```") ]
           [newline]).
  - repeat constructor; try reflexivity; try discriminate; simpl; lia.
  - split; [discriminate|exact I].
  - reflexivity.
Defined.

(** ** Fences that arrive in fragments *)

Section Fragments.
Variable decode : bytes -> Object + error.
Variable finish : list CodeBlock -> list Event -> bytes -> Result (list CodeBlock).

(** Fragments that do not complete a closing line are added to the text,
    and no batch is delivered. *)
Lemma handle_lines_quiet (more : list bytes) :
  forall ls fs res text st tr,
    carries decode ls fs ->
    index_of (text ++ concat fs) [newline; backtick; backtick] = None ->
    exists res' tr',
      handle_lines decode with_OnCodeBlock true finish (ls ++ more) res text st tr
      = handle_lines decode with_OnCodeBlock true finish more res' (text ++ concat fs) st tr'
      /\ batches tr' = batches tr.
Proof.
  intros ls fs res text st tr Hc. revert res text tr.
  induction Hc as [|l fragment ls fs (o & Hd & Ho) _ IH]; intros res text tr Hi.
  - exists res, tr. cbn [app concat]. now rewrite app_nil_r.
  - cbn [concat] in Hi. rewrite app_assoc in Hi.
    cbn [app handle_lines]. unfold Unmarshal. rewrite Hd. cbn [with_OnCodeBlock OnJson].
    cbn zeta. unfold analyse. cbn [assign Response_]. rewrite Ho. cbn [store].
    rewrite (no_closing_line _ (index_of_prefix_none _ _ _ Hi)). cbn [length Nat.ltb Nat.leb].
    destruct (IH (assign o res) (text ++ fragment) (tr ++ [EvScan true]) Hi)
      as (res' & tr' & -> & Hb).
    exists res', tr'. cbn [concat]. rewrite app_assoc. split; [reflexivity|].
    rewrite Hb, batches_app. cbn. now rewrite app_nil_r.
Qed.
End Fragments.

Lemma no_backtick_no_closing_line (s : bytes) :
  no_backtick s = true -> index_of s [newline; backtick; backtick] = None.
Proof.
  induction s as [|c s IH]; intros H; [reflexivity|].
  simpl in H. apply andb_prop in H. destruct H as [_ Hs].
  cbn [index_of HasPrefix]. rewrite (IH Hs).
  destruct s as [|d s]; [now rewrite andb_false_r|].
  simpl in Hs. apply andb_prop in Hs. destruct Hs as [Hd _].
  apply negb_true_iff in Hd. rewrite Ascii.eqb_sym in Hd. rewrite Hd.
  now rewrite andb_false_r.
Qed.

Lemma starts_with_backtick_none (s : bytes) :
  no_backtick s = true -> starts_with backtick s = false.
Proof.
  destruct s as [|c s]; [reflexivity|]. intros H. simpl in H.
  apply andb_prop in H. destruct H as [Hc _]. now apply negb_true_iff in Hc.
Qed.

(** X16.  A fence that arrives in fragments is delivered once, and whole:
    when the fragments before the one that completes the closing line hold
    no line feed followed by two backticks, and the text up to and including
    that fragment is a well-formed fence followed by text without backtick,
    then [OnCodeBlock] is called exactly once, with the one block of the
    fence; with the collecting handler of the tests [Query] returns nil, the
    collector holds that block, and the buffer holds the fragments that came
    after. *)
Theorem fence_in_fragments_is_delivered_once
        (decode : bytes -> Object + error) (chunks : list bytes) (last : bytes)
        (ls1 : list bytes) (l : bytes) (ls2 : list bytes)
        (pre : list bytes) (fragment : bytes) (post : list bytes)
        (f : Fence) (tail : bytes) :
  Forall (fun c => c <> []) chunks ->
  tokens [newline] chunks last = Some (ls1 ++ l :: ls2, None) ->
  carries decode ls1 pre -> carries decode [l] [fragment] -> carries decode ls2 post ->
  index_of (concat pre) [newline; backtick; backtick] = None ->
  concat pre ++ fragment = written f ++ tail ->
  well_formed f -> no_backtick tail = true ->
  no_backtick (concat post) = true ->
  let run := Query decode (reader_of chunks last) with_OnCodeBlock [] in
  outcome run = Returns None /\
  state run = [block f] /\
  batches (trace run) = [[block f]] /\
  buffer run = concat post.
Proof.
  intros Hne Htok H1 Hk H2 Hpre Htext (Hb & Ho & Hc & Htag & Hns & Htb & Hcode) Htail Hpost run.
  destruct (Query_lines (list CodeBlock) decode with_OnCodeBlock [] chunks last Hne)
    as (ls & e' & Htok' & Hr).
  rewrite Htok in Htok'. injection Htok' as <- _. fold run in Hr.
  cbn [with_OnCodeBlock OnCodeBlock is_nil negb] in Hr.
  (* the fragments before the closing line *)
  destruct (handle_lines_quiet decode (@stream_ended (list CodeBlock)) (l :: ls2)
              ls1 pre zero_Response [] [] [] H1 Hpre) as (res1 & tr1 & Hq1 & Hb1).
  rewrite Hq1 in Hr. clear Hq1.
  (* the fragment that completes it *)
  inversion Hk as [|? ? ? ? (o & Hd & Hfr) _]; subst.
  cbn [handle_lines] in Hr. unfold Unmarshal in Hr. rewrite Hd in Hr.
  cbn [with_OnCodeBlock OnJson OnCodeBlock] in Hr. cbn zeta in Hr.
  unfold analyse in Hr. cbn [assign Response_] in Hr. rewrite Hfr in Hr. cbn [store] in Hr.
  cbn [app] in Hr. rewrite Htext in Hr. unfold written in Hr. rewrite <- app_assoc in Hr.
  rewrite (ParseCodeBlock_fence _ _ _ _ _ _ Hb Ho Hc Htag Hns Htb Hcode
             (starts_with_backtick_none _ Htail)) in Hr.
  rewrite (no_backtick_no_fence _ Htail) in Hr.
  cbn [length Nat.ltb Nat.leb keep_blocks app] in Hr.
  (* the fragments after the fence *)
  destruct (handle_lines_quiet decode (@stream_ended (list CodeBlock)) []
              ls2 post (assign o res1) []
              [{| Type_ := f_tag f; Code := newline :: f_code f |}]
              ((tr1 ++ [EvScan true])
                 ++ [EvOnCodeBlock [{| Type_ := f_tag f; Code := newline :: f_code f |}] None])
              H2 (no_backtick_no_closing_line _ Hpost)) as (res2 & tr2 & Hq2 & Hb2).
  rewrite app_nil_r in Hq2. rewrite Hq2 in Hr. clear Hq2.
  cbn [handle_lines stream_ended app] in Hr. unfold result in Hr.
  injection Hr as Hout Hst Htr Hbuf.
  rewrite Hout, Hst, Htr, Hbuf. repeat split.
  rewrite batches_app, Hb2, !batches_app, Hb1. reflexivity.
Qed.

Lemma fence_in_fragments_is_delivered_once_witness :
  outcome run_three_fragments = Returns None /\
  state run_three_fragments = [{| Type_ := str "go"; Code := newline :: println_hi |}] /\
  batches (trace run_three_fragments)
    = [[{| Type_ := str "go"; Code := newline :: println_hi |}]] /\
  buffer run_three_fragments = concat [[]].
Proof.
  apply (fence_in_fragments_is_delivered_once json_line
           [simulateStreamBody created
              [str "```go" ++ [newline]; println_hi ++ [newline]; str "```" ++ [newline]]
              (str "m")] []
           [json_of_Response (stream_event (str "m") created (str "```go" ++ [newline]) false);
            json_of_Response (stream_event (str "m") created (println_hi ++ [newline]) false)]
           (json_of_Response (stream_event (str "m") created (str "```" ++ [newline]) false))
           [json_of_Response (stream_event (str "m") created [] true)]
           [str "```go" ++ [newline]; println_hi ++ [newline]]
           (str "```" ++ [newline])
           [[]]
           (mkFence [] (str "```") (str "go") println_hi (str "```"))
           [newline]).
  - repeat constructor. intros H. vm_compute in H. discriminate H.
  - vm_compute. reflexivity.
  - repeat constructor; eexists; (split; [vm_compute; reflexivity|reflexivity]).
  - repeat constructor; eexists; (split; [vm_compute; reflexivity|reflexivity]).
  - repeat constructor; eexists; (split; [vm_compute; reflexivity|reflexivity]).
  - vm_compute. reflexivity.
  - reflexivity.
  - repeat split; try reflexivity; try discriminate; try (simpl; lia);
      repeat constructor.
  - reflexivity.
  - reflexivity.
Defined.

(** ** The address of [Ps] *)

Lemma bytes_eqb_refl (s : bytes) : bytes_eqb s s = true.
Proof. unfold bytes_eqb. destruct (list_eq_dec ascii_dec s s); congruence. Qed.

Lemma bytes_eqb_eq (a b : bytes) : bytes_eqb a b = true -> a = b.
Proof. unfold bytes_eqb. destruct (list_eq_dec ascii_dec a b); [auto|discriminate]. Qed.

Lemma TrimSuffix_app (s suffix : bytes) : TrimSuffix (s ++ suffix) suffix = s.
Proof.
  unfold TrimSuffix, HasSuffix. rewrite length_app.
  replace (length s + length suffix - length suffix) with (length s) by lia.
  replace (length suffix <=? length s + length suffix) with true
    by (symmetry; apply Nat.leb_le; lia).
  rewrite skipn_app, skipn_all, Nat.sub_diag. cbn [app skipn andb].
  rewrite bytes_eqb_refl, firstn_app, firstn_all, Nat.sub_diag. cbn [firstn].
  apply app_nil_r.
Qed.

Lemma last_index_of_none (c : ascii) (s : bytes) :
  forallb (fun x => negb (Ascii.eqb x c)) s = true -> last_index_of s [c] = None.
Proof.
  induction s as [|x s IH]; intros H; [reflexivity|].
  simpl in H. apply andb_prop in H. destruct H as [Hx Hs].
  cbn [last_index_of HasPrefix]. rewrite (IH Hs).
  rewrite Ascii.eqb_sym. apply negb_true_iff in Hx. now rewrite Hx.
Qed.

Lemma last_index_of_last (c : ascii) (base seg : bytes) :
  forallb (fun x => negb (Ascii.eqb x c)) seg = true ->
  last_index_of (base ++ c :: seg) [c] = Some (length base).
Proof.
  intros H. induction base as [|x base IH].
  - cbn [app last_index_of HasPrefix length]. rewrite (last_index_of_none c seg H).
    now rewrite Ascii.eqb_refl.
  - cbn [app last_index_of length]. now rewrite IH.
Qed.

Lemma TrimSuffix_other (c : ascii) (s : bytes) (x : ascii) :
  Ascii.eqb x c = false -> TrimSuffix (s ++ [x]) [c] = s ++ [x].
Proof.
  intros Hx. unfold TrimSuffix, HasSuffix. rewrite length_app. cbn [length].
  replace (length s + 1 - 1) with (length s) by lia.
  rewrite skipn_app, skipn_all, Nat.sub_diag. cbn [app skipn].
  destruct (bytes_eqb [x] [c]) eqn:He; [|now rewrite andb_false_r].
  apply bytes_eqb_eq in He. injection He as ->. now rewrite Ascii.eqb_refl in Hx.
Qed.

Lemma TrimSuffix_segment (base seg : bytes) :
  seg <> [] -> no_slash seg = true ->
  TrimSuffix (base ++ str "/" ++ seg) (str "/") = base ++ str "/" ++ seg.
Proof.
  intros Hne Hns. destruct (exists_last Hne) as (seg' & x & ->).
  unfold no_slash in Hns. rewrite forallb_app in Hns. apply andb_prop in Hns.
  destruct Hns as [_ Hx]. simpl in Hx. rewrite andb_true_r in Hx.
  apply negb_true_iff in Hx.
  rewrite !app_assoc. apply TrimSuffix_other. exact Hx.
Qed.

Lemma replace_last_segment (base seg : bytes) :
  no_slash seg = true ->
  (if (LastIndex (base ++ str "/" ++ seg) (str "/") >=? 0)%Z
   then firstn (Z.to_nat (LastIndex (base ++ str "/" ++ seg) (str "/")))
          (base ++ str "/" ++ seg) ++ str "/ps"
   else base ++ str "/" ++ seg)
  = base ++ str "/ps".
Proof.
  intros Hns. unfold LastIndex. cbn [str list_ascii_of_string app].
  rewrite (last_index_of_last "/" base seg Hns).
  replace (Z.of_nat (length base) >=? 0)%Z with true by (symmetry; apply Z.geb_le; lia).
  rewrite Nat2Z.id, firstn_app, firstn_all, Nat.sub_diag. cbn [firstn].
  now rewrite app_nil_r.
Qed.

Lemma psURL_segment (base seg : bytes) :
  seg <> [] -> no_slash seg = true ->
  psURL (base ++ str "/" ++ seg) = base ++ str "/ps".
Proof.
  intros Hne Hns. unfold psURL. rewrite (TrimSuffix_segment base seg Hne Hns).
  now apply replace_last_segment.
Qed.

Lemma psURL_no_slash (URL : bytes) : no_slash URL = true -> psURL URL = URL.
Proof.
  intros Hns.
  assert (Ht : TrimSuffix URL (str "/") = URL).
  { destruct URL as [|c URL] using rev_ind; [reflexivity|].
    unfold no_slash in Hns. rewrite forallb_app in Hns. apply andb_prop in Hns.
    destruct Hns as [_ Hx]. simpl in Hx. rewrite andb_true_r in Hx.
    apply negb_true_iff in Hx. now apply TrimSuffix_other. }
  unfold psURL. rewrite Ht. unfold LastIndex.
  cbn [str list_ascii_of_string]. now rewrite (last_index_of_none "/" URL Hns).
Qed.

(** ** Properties of the address of [Ps] *)

(** X17.  The address of [Ps] is the address of the DSN with its last path
    segment replaced by [ps], whether or not the address ends with a
    slash. *)
Theorem Ps_replaces_the_last_segment (base seg : bytes) :
  seg <> [] -> no_slash seg = true ->
  psURL (base ++ str "/" ++ seg) = base ++ str "/ps" /\
  psURL (base ++ str "/" ++ seg ++ str "/") = base ++ str "/ps".
Proof.
  intros Hne Hns. split; [now apply psURL_segment|].
  unfold psURL. rewrite !app_assoc, TrimSuffix_app, <- !app_assoc.
  now apply replace_last_segment.
Qed.

Lemma Ps_replaces_the_last_segment_witness :
  psURL (str "http://localhost:11434/api/generate") = str "http://localhost:11434/api/ps" /\
  psURL (str "http://localhost:11434/api/generate/") = str "http://localhost:11434/api/ps".
Proof.
  apply (Ps_replaces_the_last_segment (str "http://localhost:11434/api") (str "generate")).
  - discriminate.
  - reflexivity.
Defined.

(** X18.  An address without a path loses its host: the text after the last
    slash, here the host of [scheme://host], is what [Ps] replaces. *)
Theorem Ps_replaces_the_host_of_a_bare_address (scheme host : bytes) :
  host <> [] -> no_slash host = true ->
  psURL (scheme ++ str "://" ++ host) = scheme ++ str "://ps".
Proof.
  intros Hne Hns.
  change (scheme ++ str "://" ++ host) with (scheme ++ str ":/" ++ str "/" ++ host).
  rewrite app_assoc, (psURL_segment _ host Hne Hns), <- app_assoc. reflexivity.
Qed.

Lemma Ps_replaces_the_host_of_a_bare_address_witness :
  psURL (str "http://localhost:11434") = str "http://ps".
Proof.
  apply (Ps_replaces_the_host_of_a_bare_address (str "http") (str "localhost:11434")).
  - discriminate.
  - reflexivity.
Defined.

(** X19.  An address without any slash is used as it is: nothing is replaced
    and [/ps] is not appended. *)
Theorem Ps_keeps_an_address_without_slash (URL : bytes) :
  no_slash URL = true -> psURL URL = URL.
Proof. apply psURL_no_slash. Qed.

Lemma Ps_keeps_an_address_without_slash_witness :
  psURL (str "localhost:11434") = str "localhost:11434".
Proof. apply Ps_keeps_an_address_without_slash. reflexivity. Defined.

(** X20.  Deriving the address of [Ps] from an address that was derived
    already changes nothing. *)
Theorem Ps_address_is_stable (URL : bytes) :
  psURL (psURL URL) = psURL URL.
Proof.
  unfold psURL at 2 3.
  set (u := TrimSuffix URL (str "/")). unfold LastIndex.
  destruct (last_index_of u (str "/")) as [i|] eqn:Hi.
  - replace (Z.of_nat i >=? 0)%Z with true by (symmetry; apply Z.geb_le; lia).
    change (str "/ps") with (str "/" ++ str "ps").
    apply psURL_segment; [discriminate|reflexivity].
  - cbn [Z.geb Z.compare]. cbv iota.
    assert (Hns : no_slash u = true).
    { clear -Hi. induction u as [|x u IH]; [reflexivity|].
      cbn [last_index_of] in Hi.
      destruct (last_index_of u (str "/")) as [j|]; [discriminate|].
      cbn [str list_ascii_of_string HasPrefix] in Hi.
      rewrite andb_true_r in Hi. destruct (Ascii.eqb "/" x) eqn:Hx; [discriminate|].
      cbn [no_slash forallb]. rewrite Ascii.eqb_sym, Hx. cbn [negb andb].
      now apply IH. }
    now apply psURL_no_slash.
Qed.

(** ** The chat client *)

Lemma int_wrap_small (z : Z) :
  (- 2 ^ 63 <= z < 2 ^ 63)%Z -> Tui.int_wrap z = z.
Proof.
  intros Hz. unfold Tui.int_wrap. rewrite Z.mod_small; lia.
Qed.

Lemma index_in_range {A : Type} (l : list A) (i : Z) :
  (0 <= i < Tui.len l)%Z -> exists a, Tui.index l i = Some a /\ In a l.
Proof.
  intros Hi. unfold Tui.index, Tui.len in *.
  replace (i <? 0)%Z with false by (symmetry; apply Z.ltb_ge; lia).
  destruct (nth_error l (Z.to_nat i)) as [a|] eqn:Hn.
  - exists a. split; [reflexivity|]. eapply nth_error_In, Hn.
  - apply nth_error_None in Hn. lia.
Qed.

Section Client.
Variable T : Type.
Context {TA : Tui.Textarea T}.
Variable TrimSpace : bytes -> bytes.

Lemma picker_kept_returns (m m' : Tui.model T) (c : Tui.Cmd) :
  Tui.models m' = Tui.models m -> Tui.cursor m' = Tui.cursor m ->
  Tui.cursor_ok m -> Tui.picker_kept m (Tui.returns m' c).
Proof.
  intros Hm Hcur Hc. eexists. split; [reflexivity|]. cbn [Tui.next].
  split; [exact Hm|]. unfold Tui.cursor_ok in *. now rewrite Hm, Hcur.
Qed.

Lemma updateModelSelect_ok (msg : Tui.Msg) (m : Tui.model T) :
  Tui.cursor_ok m -> Tui.picker_kept m (Tui.updateModelSelect msg m).
Proof.
  intros Hc. pose proof Hc as [Hr Hl].
  unfold Tui.updateModelSelect.
  destruct msg as [key| | | | |]; try (now apply picker_kept_returns).
  destruct (String.eqb key "q" || String.eqb key "esc");
    [now apply picker_kept_returns|].
  destruct (String.eqb key "up" || String.eqb key "k").
  { destruct (Tui.cursor m >? 0)%Z eqn:Hgt; [|now apply picker_kept_returns].
    apply Z.gtb_lt in Hgt.
    eexists. split; [reflexivity|]. split; [reflexivity|].
    unfold Tui.cursor_ok. cbn. rewrite int_wrap_small; lia. }
  destruct (String.eqb key "down" || String.eqb key "j").
  { destruct (Tui.cursor m <? Tui.len (Tui.models m) - 1)%Z eqn:Hlt;
      [|now apply picker_kept_returns].
    apply Z.ltb_lt in Hlt.
    eexists. split; [reflexivity|]. split; [reflexivity|].
    unfold Tui.cursor_ok. cbn. rewrite int_wrap_small; lia. }
  destruct (String.eqb key "s"); [now apply picker_kept_returns|].
  destruct (String.eqb key "enter"); [|now apply picker_kept_returns].
  destruct (index_in_range (Tui.models m) (Tui.cursor m) Hr) as (a & -> & _).
  cbn zeta. cbn [Tui.set_selectedModel Tui.set_screen Tui.runningModels Tui.selectedModel].
  destruct (Tui.runningModels m a); now apply picker_kept_returns.
Qed.
(** Splits the tests of a handler and closes the branches that leave the
    model picker alone. *)
Ltac branches :=
  repeat match goal with
         | |- context [if ?b then _ else _] => destruct b
         | |- context [match rev ?l with _ => _ end] => destruct (rev l)
         end;
  try (apply picker_kept_returns; [reflexivity|reflexivity|assumption]).

Lemma updateSystemPrompt_ok (msg : Tui.Msg) (m : Tui.model T) :
  Tui.cursor_ok m -> Tui.picker_kept m (Tui.updateSystemPrompt TrimSpace msg m).
Proof.
  intros Hc. unfold Tui.updateSystemPrompt. destruct msg; branches.
Qed.

Lemma updateChat_ok (msg : Tui.Msg) (m : Tui.model T) :
  Tui.cursor_ok m -> Tui.picker_kept m (Tui.updateChat TrimSpace msg m).
Proof.
  intros Hc. unfold Tui.updateChat. destruct msg; branches.
  eexists. split; [reflexivity|]. split; [reflexivity|exact Hc].
Qed.

Lemma Update_ok (msg : Tui.Msg) (m : Tui.model T) :
  Tui.cursor_ok m -> Tui.picker_kept m (Tui.Update TrimSpace msg m).
Proof.
  intros Hc.
  assert (Hs : Tui.picker_kept m
                 match Tui.screen_ m with
                 | Tui.screenModelSelect => Tui.updateModelSelect msg m
                 | Tui.screenSystemPrompt => Tui.updateSystemPrompt TrimSpace msg m
                 | Tui.screenChat => Tui.updateChat TrimSpace msg m
                 end).
  { destruct (Tui.screen_ m);
      [now apply updateModelSelect_ok|now apply updateSystemPrompt_ok|now apply updateChat_ok]. }
  unfold Tui.Update. destruct msg as [key|w h| | | |running]; try exact Hs.
  - destruct (String.eqb key "ctrl+c"); [|exact Hs].
    now apply picker_kept_returns.
  - cbn zeta. cbn [Tui.set_size Tui.screen_].
    destruct (Tui.screen_ m); now apply picker_kept_returns.
  - cbn zeta. cbn [Tui.set_runningModels Tui.selectedModel].
    destruct (nonempty (Tui.selectedModel m)); [|now apply picker_kept_returns].
    destruct (running (Tui.selectedModel m)); now apply picker_kept_returns.
Qed.

Lemma run_ok (msgs : list Tui.Msg) :
  forall m : Tui.model T,
    Tui.cursor_ok m ->
    exists m', Tui.run TrimSpace msgs m = inl m' /\
               Tui.models m' = Tui.models m /\ Tui.cursor_ok m'.
Proof.
  induction msgs as [|msg msgs IH]; intros m Hc.
  - exists m. auto.
  - cbn [Tui.run]. destruct (Update_ok msg m Hc) as (s & -> & Hm & Hc').
    destruct (IH _ Hc') as (m' & Hr & Hm' & Hc''). exists m'.
    split; [exact Hr|]. split; [congruence|exact Hc''].
Qed.
Lemma set_last_text_snoc (front : list Tui.chatEntry) (e : Tui.chatEntry) (t : bytes) :
  Tui.set_last_text t (front ++ [e]) = front ++ [Tui.mkChatEntry (Tui.role e) t].
Proof.
  unfold Tui.set_last_text. rewrite rev_app_distr. cbn [rev app].
  now rewrite rev_involutive.
Qed.

(** The tokens of a reply, one message each, on the chat screen while it
    streams: they are appended to the buffer and shown in the last entry. *)
Lemma run_tokens (toks : list bytes) :
  forall rest w h ms c rm sp sta sel front r b ta vp e tc cs cu,
    (0 <= tc)%Z -> (tc + Tui.len toks < 2 ^ 63)%Z ->
    Tui.run TrimSpace (map Tui.tokenMsg toks ++ rest)
      (Tui.mkModel Tui.screenChat w h ms c rm sp sta sel
         (front ++ [Tui.mkChatEntry r b]) true b ta vp e tc cs cu)
    = Tui.run TrimSpace rest
        (Tui.mkModel Tui.screenChat w h ms c rm sp sta sel
           (front ++ [Tui.mkChatEntry r (b ++ concat toks)]) true (b ++ concat toks)
           ta vp e (tc + Tui.len toks)%Z cs cu).
Proof.
  induction toks as [|tok toks IH]; intros rest w h ms c rm sp sta sel front r b ta vp e tc cs cu
    Htc Hlen.
  - cbn [map app concat Tui.len length Z.of_nat]. now rewrite app_nil_r, Z.add_0_r.
  - unfold Tui.len in *. cbn [length] in Hlen. rewrite Nat2Z.inj_succ in Hlen.
    cbn [map app Tui.run Tui.Update Tui.screen_ Tui.updateChat].
    cbn [Tui.streaming Tui.history Tui.len andb].
    replace (Tui.len (front ++ [Tui.mkChatEntry r b]) >? 0)%Z with true.
    2:{ symmetry. apply Z.gtb_lt. unfold Tui.len. rewrite length_app. simpl. lia. }
    cbn zeta. cbn [Tui.returns Tui.next].
    unfold Tui.set_history, Tui.set_streamBuf, Tui.set_tokenCount.
    cbn [Tui.screen_ Tui.width Tui.height Tui.models Tui.cursor Tui.runningModels
         Tui.systemPrompt Tui.sysTA Tui.selectedModel Tui.history Tui.streaming
         Tui.streamBuf Tui.textarea Tui.vpReady Tui.err Tui.tokenCount Tui.ctxSize
         Tui.ctxUsed].
    rewrite set_last_text_snoc. cbn [Tui.role].
    rewrite int_wrap_small by lia.
    rewrite IH by lia. cbn [concat length]. rewrite Nat2Z.inj_succ, <- !app_assoc.
    do 2 f_equal. lia.
Qed.
End Client.

(** ** Properties of the chat client *)

(** X21.  From its initial state, whatever messages arrive, the chat client
    never indexes the list of models out of range: every [Update] returns,
    the list of models stays the default one and the cursor points into
    it. *)
Theorem chat_client_never_panics
        (T : Type) (TA : Tui.Textarea T) (TrimSpace : bytes -> bytes)
        (ta sysTA : T) (msgs : list Tui.Msg) :
  exists m', Tui.run TrimSpace msgs (Tui.initialModel ta sysTA) = inl m' /\
             Tui.models m' = Tui.defaultModels /\ Tui.cursor_ok m'.
Proof.
  apply (run_ok T TrimSpace msgs (Tui.initialModel ta sysTA)).
  split; [split; [reflexivity|reflexivity]|reflexivity].
Qed.

Section Rounds.
Variable T : Type.
Context {TA : Tui.Textarea T}.
Variable TrimSpace : bytes -> bytes.

(** [enter] on the chat screen, with a prompt typed in and no reply being
    streamed. *)
Lemma Update_enter (w h : Z) ms c rm sp sta sel hist b ta vp e tc cs cu :
  nonempty (TrimSpace (Tui.Value ta)) = true ->
  let m1 :=
    Tui.mkModel Tui.screenChat w h ms c rm sp sta sel
      ((hist ++ [Tui.mkChatEntry (str "user") (TrimSpace (Tui.Value ta))])
         ++ [Tui.mkChatEntry (str "assistant") []])
      true [] (Tui.Reset ta) vp None 0 cs cu in
  Tui.Update TrimSpace (Tui.KeyMsg "enter")
    (Tui.mkModel Tui.screenChat w h ms c rm sp sta sel hist false b ta vp e tc cs cu)
  = Tui.Returns (Tui.mkStep m1 Tui.Cmd_nil (Some m1)).
Proof.
  intros Hp m1. unfold Tui.Update, Tui.updateChat.
  cbn [String.eqb Ascii.eqb Bool.eqb Tui.screen_ Tui.streaming Tui.textarea].
  rewrite Hp. reflexivity.
Qed.
End Rounds.

Lemma written_fold (h : list Tui.chatEntry) (acc : bytes) :
  fold_left (fun sb entry => sb ++ Tui.written_entry entry) h acc
  = acc ++ flat_map Tui.written_entry h.
Proof.
  revert acc. induction h as [|e h IH]; intros acc; cbn [fold_left flat_map].
  - now rewrite app_nil_r.
  - now rewrite IH, app_assoc.
Qed.

(** X22.  A reply that is streamed to its end is kept in the history: after
    [enter] with a prompt typed in, the tokens of the reply and the final
    message, the history has grown by the user's entry and the assistant's
    entry with the tokens put end to end; the client is ready for the next
    prompt and has counted the tokens. *)
Theorem streamed_reply_enters_the_history
        (T : Type) (TA : Tui.Textarea T) (TrimSpace : bytes -> bytes)
        (m : Tui.model T) (toks : list bytes) (promptEvalCount evalCount : Z) :
  Tui.screen_ m = Tui.screenChat ->
  Tui.streaming m = false ->
  nonempty (TrimSpace (Tui.Value (Tui.textarea m))) = true ->
  (Tui.len toks < 2 ^ 63)%Z ->
  exists m',
    Tui.run TrimSpace
      (Tui.KeyMsg "enter" :: map Tui.tokenMsg toks
         ++ [Tui.doneMsg promptEvalCount evalCount]) m = inl m' /\
    Tui.history m'
    = Tui.history m
        ++ Tui.exchange (TrimSpace (Tui.Value (Tui.textarea m))) (concat toks) false /\
    Tui.streaming m' = false /\
    Tui.tokenCount m' = Tui.len toks /\
    Tui.ctxUsed m' = Tui.int_wrap (promptEvalCount + evalCount).
Proof.
  destruct m as [sc w h ms c rm sp sta sel hist st b ta vp e tc cs cu].
  cbn [Tui.screen_ Tui.streaming Tui.textarea Tui.history]. intros -> -> Hp Hlen.
  cbn [Tui.run]. rewrite (Update_enter T TrimSpace) by exact Hp. cbn zeta. cbn [Tui.next].
  rewrite (run_tokens T TrimSpace) by (unfold Tui.len in *; lia).
  cbn [app Tui.run Tui.Update Tui.screen_ Tui.updateChat Tui.returns Tui.next].
  eexists. split; [reflexivity|]. cbn.
  rewrite <- app_assoc. repeat split.
Qed.

Lemma streamed_reply_enters_the_history_witness :
  exists m',
    Tui.run (fun s => s)
      (Tui.KeyMsg "enter" :: map Tui.tokenMsg [str "Hel"; str "lo"]
         ++ [Tui.doneMsg 7 2]) (Tui.chatting [] (str "hi")) = inl m' /\
    Tui.history m'
    = [] ++ Tui.exchange (str "hi") (concat [str "Hel"; str "lo"]) false /\
    Tui.streaming m' = false /\
    Tui.tokenCount m' = Tui.len [str "Hel"; str "lo"] /\
    Tui.ctxUsed m' = Tui.int_wrap (7 + 2).
Proof.
  apply (streamed_reply_enters_the_history bytes Tui.plain_textarea (fun s => s)
           (Tui.chatting [] (str "hi")) [str "Hel"; str "lo"] 7 2).
  - reflexivity.
  - reflexivity.
  - reflexivity.
  - reflexivity.
Defined.

(** X23.  A reply that breaks off is kept as far as it came: after [enter],
    the tokens received and the error message, the history has the user's
    entry and the partial reply; the empty placeholder of a reply that
    brought no text is removed, the user's entry stays, and the error is
    recorded. *)
Theorem broken_reply_keeps_what_came
        (T : Type) (TA : Tui.Textarea T) (TrimSpace : bytes -> bytes)
        (m : Tui.model T) (toks : list bytes) (e : error) :
  Tui.screen_ m = Tui.screenChat ->
  Tui.streaming m = false ->
  nonempty (TrimSpace (Tui.Value (Tui.textarea m))) = true ->
  (Tui.len toks < 2 ^ 63)%Z ->
  exists m',
    Tui.run TrimSpace
      (Tui.KeyMsg "enter" :: map Tui.tokenMsg toks ++ [Tui.errMsg e]) m = inl m' /\
    Tui.history m'
    = Tui.history m
        ++ Tui.exchange (TrimSpace (Tui.Value (Tui.textarea m))) (concat toks) true /\
    Tui.streaming m' = false /\
    Tui.err m' = Some e.
Proof.
  destruct m as [sc w h ms c rm sp sta sel hist st b ta vp e0 tc cs cu].
  cbn [Tui.screen_ Tui.streaming Tui.textarea Tui.history]. intros -> -> Hp Hlen.
  cbn [Tui.run]. rewrite (Update_enter T TrimSpace) by exact Hp. cbn zeta. cbn [Tui.next].
  rewrite (run_tokens T TrimSpace) by (unfold Tui.len in *; lia).
  cbn [app Tui.run Tui.Update Tui.screen_ Tui.updateChat]. cbn zeta.
  cbn [Tui.set_streaming Tui.set_err Tui.history Tui.screen_ Tui.width Tui.height
       Tui.models Tui.cursor Tui.runningModels Tui.systemPrompt Tui.sysTA
       Tui.selectedModel Tui.streaming Tui.streamBuf Tui.textarea Tui.vpReady Tui.err
       Tui.tokenCount Tui.ctxSize Tui.ctxUsed].
  rewrite rev_app_distr. cbn [rev app Tui.role Tui.text].
  change (bytes_eqb (str "assistant") (str "assistant")) with true. cbn [andb].
  unfold Tui.exchange. cbn [andb].
  destruct (nonempty (concat toks)); cbn [negb];
    eexists; (split; [reflexivity|]); cbn; rewrite ?rev_involutive, <- ?app_assoc;
    repeat split.
Qed.

Lemma broken_reply_keeps_what_came_witness :
  exists m',
    Tui.run (fun s => s)
      (Tui.KeyMsg "enter" :: map Tui.tokenMsg [] ++ [Tui.errMsg connection_reset])
      (Tui.chatting [] (str "hi")) = inl m' /\
    Tui.history m' = [] ++ Tui.exchange (str "hi") (concat []) true /\
    Tui.streaming m' = false /\
    Tui.err m' = Some connection_reset.
Proof.
  apply (broken_reply_keeps_what_came bytes Tui.plain_textarea (fun s => s)
           (Tui.chatting [] (str "hi")) [] connection_reset).
  - reflexivity.
  - reflexivity.
  - reflexivity.
  - reflexivity.
Defined.

(** X24.  The prompt a query is started with: [enter] starts [runQuery] on a
    copy of the model whose conversation prompt is the entries so far as
    they are written, the new prompt as the last [User:] turn, and the cue
    [Assistant: ]; the empty placeholder of the reply is not written. *)
Theorem enter_sends_the_conversation
        (T : Type) (TA : Tui.Textarea T) (TrimSpace : bytes -> bytes)
        (m : Tui.model T) :
  Tui.screen_ m = Tui.screenChat ->
  Tui.streaming m = false ->
  nonempty (TrimSpace (Tui.Value (Tui.textarea m))) = true ->
  exists s q,
    Tui.Update TrimSpace (Tui.KeyMsg "enter") m = Tui.Returns s /\
    Tui.spawned s = Some q /\
    Tui.buildConversationPrompt q
    = flat_map Tui.written_entry (Tui.history m)
        ++ str "User: " ++ TrimSpace (Tui.Value (Tui.textarea m)) ++ [newline; newline]
        ++ str "Assistant: ".
Proof.
  destruct m as [sc w h ms c rm sp sta sel hist st b ta vp e0 tc cs cu].
  cbn [Tui.screen_ Tui.streaming Tui.textarea Tui.history]. intros -> -> Hp.
  rewrite (Update_enter T TrimSpace) by exact Hp. cbn zeta.
  do 2 eexists. split; [reflexivity|]. split; [reflexivity|].
  unfold Tui.buildConversationPrompt. cbn [Tui.history].
  rewrite written_fold, !flat_map_app. cbn [app flat_map].
  unfold Tui.written_entry at 2 3. cbn [Tui.role Tui.text].
  change (bytes_eqb (str "user") (str "user")) with true.
  change (bytes_eqb (str "assistant") (str "user")) with false.
  change (bytes_eqb (str "assistant") (str "assistant")) with true.
  cbn [nonempty app]. now rewrite !app_nil_r, <- !app_assoc.
Qed.

Lemma enter_sends_the_conversation_witness :
  exists s q,
    Tui.Update (fun s => s) (Tui.KeyMsg "enter")
      (Tui.chatting [Tui.mkChatEntry (str "user") (str "a");
                     Tui.mkChatEntry (str "assistant") (str "b")] (str "c"))
    = Tui.Returns s /\
    Tui.spawned s = Some q /\
    Tui.buildConversationPrompt q
    = flat_map Tui.written_entry
        [Tui.mkChatEntry (str "user") (str "a");
         Tui.mkChatEntry (str "assistant") (str "b")]
        ++ str "User: " ++ str "c" ++ [newline; newline] ++ str "Assistant: ".
Proof.
  apply (enter_sends_the_conversation bytes Tui.plain_textarea (fun s => s)
           (Tui.chatting [Tui.mkChatEntry (str "user") (str "a");
                          Tui.mkChatEntry (str "assistant") (str "b")] (str "c"))).
  - reflexivity.
  - reflexivity.
  - reflexivity.
Defined.

(** X25.  While a reply is streamed, [enter], [esc] and [ctrl+m] do
    nothing: [Update] on the chat screen returns the model as it was, with no
    command. *)
Theorem enter_and_esc_wait_for_the_reply
        (T : Type) (TA : Tui.Textarea T) (TrimSpace : bytes -> bytes)
        (m : Tui.model T) (key : string) :
  Tui.screen_ m = Tui.screenChat ->
  Tui.streaming m = true ->
  In key ["enter"; "esc"; "ctrl+m"] ->
  Tui.Update TrimSpace (Tui.KeyMsg key) m = Tui.returns m Tui.Cmd_nil.
Proof.
  intros Hs Hst [<-|[<-|[<-|[]]]];
    unfold Tui.Update, Tui.updateChat; rewrite Hs, Hst; reflexivity.
Qed.

Lemma enter_and_esc_wait_for_the_reply_witness :
  Tui.Update (fun s => s) (Tui.KeyMsg "enter")
    (Tui.set_streaming true (Tui.chatting [] (str "hi")))
  = Tui.returns (Tui.set_streaming true (Tui.chatting [] (str "hi"))) Tui.Cmd_nil.
Proof.
  apply (enter_and_esc_wait_for_the_reply bytes Tui.plain_textarea (fun s => s)
           (Tui.set_streaming true (Tui.chatting [] (str "hi"))) "enter").
  - reflexivity.
  - reflexivity.
  - simpl. auto.
Defined.
